(** * trackcutter: a shallow embedding of the cutting pipeline

    This development embeds the parts of [trackcutter.c] that decide where a
    long recording is cut into tracks: the range option parsers, the
    frame source ([fetch_next_frame]), the per-frame filter
    ([filter_new_frame]), the two ring buffers and their cursors
    ([advance_buf_ptrs]), the RMS detector ([we_have_signal]), the lead-in
    buffer, the segmentation state machine ([update_context]) and the driver
    ([init_state], [cutter_loop]).

    Modelling conventions.
    - C [int] and [sf_count_t] values are integers in [Z]; C's truncating
      division is [Z.quot].  Signed overflow is undefined behaviour in C and
      is not modelled.
    - A [double *] into a buffer is the offset (counted in doubles) from the
      base of that buffer; a buffer is a [list] of doubles.  An access
      outside the buffer is undefined behaviour in C; the model reads zero
      and ignores the write there.
    - [double] arithmetic is an interface ([DoubleOps]); it is instantiated
      with IEEE binary64 (to run the code), with exact rationals and with the
      real numbers (for the statements that the source makes about exact
      arithmetic).  [exp2], [log10] and [M_PI] come from libm and are fields
      of the same interface.
    - libsndfile is an ideal collaborator: the input is a finite list of
      frames, a read never fails, a seek fails only beyond the end of the
      recording, and opening or writing an output file succeeds whenever
      the handle is valid.  The fatal exits that the source takes when
      libsndfile or the file system reports a failure ([sf_open],
      [sf_readf_double], a short [sf_writef_double], [fopen], [chdir]) are
      therefore outside the model; the exits that the code decides on its
      own are the result [None].
    - [sscanf] converts [%lld] as glibc does: a number too large for a
      [long long] becomes [LLONG_MAX] or [LLONG_MIN].
    - Not modelled: analysis mode, the track-names file (a run is a run
      without one; only the trimming of a name read from it is embedded),
      time ranges given in seconds and the flag [time_range_given] that
      goes with them, the rendering of cut rows as text, verbose
      messages. *)

From Stdlib Require Import ZArith Lia Bool String Ascii.
From Stdlib Require Import Reals Lra.
From Stdlib Require Import QArith Qcanon.
From Stdlib Require Import Floats.
From Stdlib Require Import Decimal DecimalString DecimalPos DecimalN.
From stdpp Require Import base option list.

Local Open Scope Z_scope.

(** ** Constants of the source *)

Definition RMS_WINDOW_PERIOD : Z := 50.
Definition MAX_CHANNELS : Z := 8.
Definition DFL_MIN_SILENCE_PERIOD : Z := 2000.
Definition DFL_MIN_SIGNAL_PERIOD : Z := 100.
Definition DFL_MIN_TRACK_LENGTH : Z := 40.
Definition INT_MAX : Z := 2147483647.
Definition SF_COUNT_MAX : Z := 9223372036854775807.
Definition LLONG_MAX : Z := 9223372036854775807.
Definition LLONG_MIN : Z := -9223372036854775808.

Inductive tc_task_t := TCT_CUTTING | TCT_ANALYSIS.

Inductive cut_context_t :=
  CCTX_SILENCE | CCTX_TRACK | CCTX_TRACK_STARTING | CCTX_TRACK_ENDING.

Inductive cut_point_action_t := CPA_LOG_POINT | CPA_EXTRACT_TRACK.

Definition cut_context_eqb (a b : cut_context_t) : bool :=
  match a, b with
  | CCTX_SILENCE, CCTX_SILENCE | CCTX_TRACK, CCTX_TRACK
  | CCTX_TRACK_STARTING, CCTX_TRACK_STARTING
  | CCTX_TRACK_ENDING, CCTX_TRACK_ENDING => true
  | _, _ => false
  end.

(** ** The arithmetic of [double] *)

Class DoubleOps : Type := {
  double : Type;
  dzero : double;
  dadd : double -> double -> double;
  dsub : double -> double -> double;
  dmul : double -> double -> double;
  ddiv : double -> double -> double;
  dltb : double -> double -> bool;
  d_of_Z : Z -> double;
  exp2 : double -> double;
  log10 : double -> double;
  M_PI : double
}.

(** The laws of exact arithmetic that the running sum of squares and the
    pass-through of unfiltered samples rely on. *)
Record ExactArith (D : DoubleOps) : Prop := {
  dadd_comm : forall a b : double, dadd a b = dadd b a;
  dadd_assoc : forall a b c : double, dadd a (dadd b c) = dadd (dadd a b) c;
  dadd_0_l : forall a : double, dadd dzero a = a;
  dadd_sub : forall a b : double, dsub (dadd a b) b = a
}.

(** ** Program options *)

Section Options.
Context {D : DoubleOps}.

(** The fields of [options] that the cutter reads.  [noise_floor_dbfs] is a
    [float] in the source and is converted to [double] where it is used. *)
Record options_t := {
  task : tc_task_t;
  cut_point_action : cut_point_action_t;
  min_silence_period : Z;
  min_signal_period : Z;
  noise_floor_dbfs : double;
  min_track_length : Z;
  start_frame_idx : Z;
  end_frame_idx : Z;
  track_num_start : Z;
  track_num_end : Z;
  dc_offset : list double;
  high_pass_filter_enabled : bool
}.

Definition DFL_NOISE_FLOOR : double := d_of_Z (-48).

Definition init_options : options_t :=
  {| task := TCT_CUTTING;
     cut_point_action := CPA_LOG_POINT;
     min_silence_period := DFL_MIN_SILENCE_PERIOD;
     min_signal_period := DFL_MIN_SIGNAL_PERIOD;
     noise_floor_dbfs := DFL_NOISE_FLOOR;
     min_track_length := DFL_MIN_TRACK_LENGTH;
     start_frame_idx := 0;
     end_frame_idx := SF_COUNT_MAX;
     track_num_start := 0;
     track_num_end := INT_MAX;
     dc_offset := replicate (Z.to_nat MAX_CHANNELS) dzero;
     high_pass_filter_enabled := false |}.

Definition set_frame_range (s e : Z) (o : options_t) : options_t :=
  {| task := task o; cut_point_action := cut_point_action o;
     min_silence_period := min_silence_period o;
     min_signal_period := min_signal_period o;
     noise_floor_dbfs := noise_floor_dbfs o;
     min_track_length := min_track_length o;
     start_frame_idx := s; end_frame_idx := e;
     track_num_start := track_num_start o; track_num_end := track_num_end o;
     dc_offset := dc_offset o;
     high_pass_filter_enabled := high_pass_filter_enabled o |}.

Definition set_track_range (a b : Z) (o : options_t) : options_t :=
  {| task := task o; cut_point_action := cut_point_action o;
     min_silence_period := min_silence_period o;
     min_signal_period := min_signal_period o;
     noise_floor_dbfs := noise_floor_dbfs o;
     min_track_length := min_track_length o;
     start_frame_idx := start_frame_idx o; end_frame_idx := end_frame_idx o;
     track_num_start := a; track_num_end := b;
     dc_offset := dc_offset o;
     high_pass_filter_enabled := high_pass_filter_enabled o |}.

(** *** Range arguments: [parse_int_boundary], [parse_frame_range],
    [parse_track_range] *)

Definition isspace (c : ascii) : bool :=
  let n := Z.of_nat (nat_of_ascii c) in
  (n =? 32) || ((9 <=? n) && (n <=? 13)).

Fixpoint skip_space (s : string) : string :=
  match s with
  | String c s' => if isspace c then skip_space s' else s
  | EmptyString => s
  end.

Definition digit_of (c : ascii) : option Z :=
  let n := Z.of_nat (nat_of_ascii c) in
  if (48 <=? n) && (n <=? 57) then Some (n - 48) else None.

Fixpoint scan_digits (s : string) (acc : Z) : Z * string :=
  match s with
  | String c s' =>
      match digit_of c with
      | Some d => scan_digits s' (acc * 10 + d)
      | None => (acc, s)
      end
  | EmptyString => (acc, s)
  end.

(** The value that a conversion to [long long] stores: out of range it is
    the nearest bound. *)
Definition llong_of (z : Z) : Z := Z.max LLONG_MIN (Z.min LLONG_MAX z).

(** The conversion [%lld] of [sscanf]: leading white space, an optional
    sign, at least one decimal digit.  The result is the value and the rest
    of the string, or [None] when no number is there. *)
Definition scan_lld (s : string) : option (Z * string) :=
  let s1 := skip_space s in
  let '(neg, s2) :=
    match s1 with
    | String "-"%char t => (true, t)
    | String "+"%char t => (false, t)
    | _ => (false, s1)
    end in
  match s2 with
  | String c _ =>
      match digit_of c with
      | Some _ =>
          let '(n, rest) := scan_digits s2 0 in
          Some (llong_of (if neg then - n else n), rest)
      | None => None
      end
  | EmptyString => None
  end.

Definition is_empty (s : string) : bool :=
  match s with EmptyString => true | _ => false end.

(** [parse_int_boundary (s, dfl)]: [None] is the fatal exit (negative
    boundary, or junk after the number). *)
Definition parse_int_boundary (s : string) (dfl : Z) : option Z :=
  match scan_lld s with
  | Some (n, rest) =>
      if n <? 0 then None
      else if is_empty (skip_space rest) then Some n else None
  | None =>
      if is_empty (skip_space s) then Some dfl else None
  end.

(** [strchr (optarg, '-')]: the text before the first hyphen and the text
    after it. *)
Fixpoint strchr_hyphen (s : string) : option (string * string) :=
  match s with
  | EmptyString => None
  | String c s' =>
      if Ascii.eqb c "-"%char then Some (EmptyString, s')
      else match strchr_hyphen s' with
           | Some (a, b) => Some (String c a, b)
           | None => None
           end
  end.

(** The two halves of a range argument; [None] unless the argument holds
    exactly one hyphen ([hyphen_ptr != strrchr (optarg, '-')] otherwise). *)
Definition split_range (optarg : string) : option (string * string) :=
  match strchr_hyphen optarg with
  | Some (a, b) =>
      match strchr_hyphen b with
      | None => Some (a, b)
      | Some _ => None
      end
  | None => None
  end.

(** The conversion of an [sf_count_t] to the [int] it is stored in. *)
Definition int_of_sf_count (z : Z) : Z :=
  let r := z mod 4294967296 in
  if r <? 2147483648 then r else r - 4294967296.

(** [parse_frame_range]; the flag [time_range_given], which the source
    clears at the end, belongs to the time ranges and is not part of
    [options_t]. *)
Definition parse_frame_range (optarg : string) (o : options_t)
  : option options_t :=
  match split_range optarg with
  | None => None
  | Some (a, b) =>
      s ← parse_int_boundary a 0;
      e ← parse_int_boundary b SF_COUNT_MAX;
      let o' := set_frame_range s e o in
      if end_frame_idx o' <? start_frame_idx o' then None else Some o'
  end.

Definition parse_track_range (optarg : string) (o : options_t)
  : option options_t :=
  match split_range optarg with
  | None => None
  | Some (a, b) =>
      s ← parse_int_boundary a 1;
      e ← parse_int_boundary b INT_MAX;
      let o' := set_track_range (int_of_sf_count s) (int_of_sf_count e) o in
      if end_frame_idx o' <? start_frame_idx o' then None else Some o'
  end.

End Options.

(** ** Program state *)

Section Cutter.
Context {D : DoubleOps}.

(** One row of the cuts file, as [print_track_cut] writes it (before the
    start, end and duration are rendered as text). *)
Record cut_row := {
  row_track_num : Z;
  row_start : Z;
  row_end : Z;
  row_duration : Z
}.

(** The input recording as libsndfile presents it. *)
Record sndfile := {
  sf_samplerate : Z;
  sf_channels : Z;
  sf_frames : list (list double)
}.

(** [state_t].  [in_file] holds the frames that the codec has not delivered
    yet; [out_file] is the open per-track writer (the track number that
    names it and the frames written so far); [track_dir] holds the files
    closed so far; [cuts_file] the rows printed so far; [stderr_warnings]
    counts the lead-in overflow warnings. *)
Record state_t := {
  in_file : list (list double);
  out_file : option (Z * list (list double));
  track_dir : list (Z * list (list double));
  cuts_file : list cut_row;
  stderr_warnings : nat;
  in_eof : bool;
  frames_remaining : Z;
  cut_context : cut_context_t;
  time_to_live : Z;
  frames_read_ttl : Z;
  frames_proc_ttl : Z;
  cur_frame_pos : Z;
  cur_track_num : Z;
  cur_track_start : Z;
  numchannels : Z;
  samplerate : Z;
  rms_window_len : Z;
  min_signal_len : Z;
  min_silence_len : Z;
  min_track_len : Z;
  leadin_buf_len : Z;
  frame_sz : Z;
  ra_frame_cnt : Z;
  alpha : double;
  n_x_nf_sq : double;
  x_sq_ttl : list double;
  hpf_rej : list double;
  hpf_rej_ttl : list double;
  hpf_out : list double;
  hpf_prev_out : list double;
  hpf_prev_rej : list double;
  sq_buf : list double;
  main_buf : list double;
  sq_buf_head : Z;
  sq_buf_tail : Z;
  sq_buf_cen : Z;
  sq_buf_edge : Z;
  main_buf_head : Z;
  main_buf_tail : Z;
  main_buf_cen : Z;
  main_buf_edge : Z;
  leadin_buf : list double;
  leadin_buf_end : Z;
  leadin_buf_edge : Z
}.

Definition eta_state (st : state_t) : state_t :=
  Build_state_t (in_file st) (out_file st) (track_dir st) (cuts_file st)
    (stderr_warnings st) (in_eof st) (frames_remaining st) (cut_context st)
    (time_to_live st) (frames_read_ttl st) (frames_proc_ttl st)
    (cur_frame_pos st) (cur_track_num st) (cur_track_start st)
    (numchannels st) (samplerate st) (rms_window_len st) (min_signal_len st)
    (min_silence_len st) (min_track_len st) (leadin_buf_len st) (frame_sz st)
    (ra_frame_cnt st) (alpha st) (n_x_nf_sq st) (x_sq_ttl st) (hpf_rej st)
    (hpf_rej_ttl st) (hpf_out st) (hpf_prev_out st) (hpf_prev_rej st)
    (sq_buf st) (main_buf st) (sq_buf_head st) (sq_buf_tail st)
    (sq_buf_cen st) (sq_buf_edge st) (main_buf_head st) (main_buf_tail st)
    (main_buf_cen st) (main_buf_edge st) (leadin_buf st) (leadin_buf_end st)
    (leadin_buf_edge st).

(** A field update [st.f = v], built from the eta expansion of the record. *)
Ltac field_setter proj :=
  let e := eval cbv beta delta [eta_state] in (fun st => eta_state st) in
  match eval pattern proj in e with
  | ?f _ =>
      let g := eval cbv beta in (fun v st => f (fun _ => v) st) in
      exact g
  end.

Definition set_in_file : list (list double) -> state_t -> state_t :=
  ltac:(field_setter in_file).
Definition set_out_file : option (Z * list (list double)) -> state_t -> state_t :=
  ltac:(field_setter out_file).
Definition set_track_dir : list (Z * list (list double)) -> state_t -> state_t :=
  ltac:(field_setter track_dir).
Definition set_cuts_file : list cut_row -> state_t -> state_t :=
  ltac:(field_setter cuts_file).
Definition set_stderr_warnings : nat -> state_t -> state_t :=
  ltac:(field_setter stderr_warnings).
Definition set_in_eof : bool -> state_t -> state_t :=
  ltac:(field_setter in_eof).
Definition set_frames_remaining : Z -> state_t -> state_t :=
  ltac:(field_setter frames_remaining).
Definition set_cut_context : cut_context_t -> state_t -> state_t :=
  ltac:(field_setter cut_context).
Definition set_time_to_live : Z -> state_t -> state_t :=
  ltac:(field_setter time_to_live).
Definition set_frames_read_ttl : Z -> state_t -> state_t :=
  ltac:(field_setter frames_read_ttl).
Definition set_frames_proc_ttl : Z -> state_t -> state_t :=
  ltac:(field_setter frames_proc_ttl).
Definition set_cur_frame_pos : Z -> state_t -> state_t :=
  ltac:(field_setter cur_frame_pos).
Definition set_cur_track_num : Z -> state_t -> state_t :=
  ltac:(field_setter cur_track_num).
Definition set_cur_track_start : Z -> state_t -> state_t :=
  ltac:(field_setter cur_track_start).
Definition set_numchannels : Z -> state_t -> state_t :=
  ltac:(field_setter numchannels).
Definition set_samplerate : Z -> state_t -> state_t :=
  ltac:(field_setter samplerate).
Definition set_rms_window_len : Z -> state_t -> state_t :=
  ltac:(field_setter rms_window_len).
Definition set_min_signal_len : Z -> state_t -> state_t :=
  ltac:(field_setter min_signal_len).
Definition set_min_silence_len : Z -> state_t -> state_t :=
  ltac:(field_setter min_silence_len).
Definition set_min_track_len : Z -> state_t -> state_t :=
  ltac:(field_setter min_track_len).
Definition set_leadin_buf_len : Z -> state_t -> state_t :=
  ltac:(field_setter leadin_buf_len).
Definition set_frame_sz : Z -> state_t -> state_t :=
  ltac:(field_setter frame_sz).
Definition set_ra_frame_cnt : Z -> state_t -> state_t :=
  ltac:(field_setter ra_frame_cnt).
Definition set_alpha : double -> state_t -> state_t :=
  ltac:(field_setter alpha).
Definition set_n_x_nf_sq : double -> state_t -> state_t :=
  ltac:(field_setter n_x_nf_sq).
Definition set_x_sq_ttl : list double -> state_t -> state_t :=
  ltac:(field_setter x_sq_ttl).
Definition set_hpf_rej : list double -> state_t -> state_t :=
  ltac:(field_setter hpf_rej).
Definition set_hpf_rej_ttl : list double -> state_t -> state_t :=
  ltac:(field_setter hpf_rej_ttl).
Definition set_hpf_out : list double -> state_t -> state_t :=
  ltac:(field_setter hpf_out).
Definition set_hpf_prev_out : list double -> state_t -> state_t :=
  ltac:(field_setter hpf_prev_out).
Definition set_hpf_prev_rej : list double -> state_t -> state_t :=
  ltac:(field_setter hpf_prev_rej).
Definition set_sq_buf : list double -> state_t -> state_t :=
  ltac:(field_setter sq_buf).
Definition set_main_buf : list double -> state_t -> state_t :=
  ltac:(field_setter main_buf).
Definition set_sq_buf_head : Z -> state_t -> state_t :=
  ltac:(field_setter sq_buf_head).
Definition set_sq_buf_tail : Z -> state_t -> state_t :=
  ltac:(field_setter sq_buf_tail).
Definition set_sq_buf_cen : Z -> state_t -> state_t :=
  ltac:(field_setter sq_buf_cen).
Definition set_sq_buf_edge : Z -> state_t -> state_t :=
  ltac:(field_setter sq_buf_edge).
Definition set_main_buf_head : Z -> state_t -> state_t :=
  ltac:(field_setter main_buf_head).
Definition set_main_buf_tail : Z -> state_t -> state_t :=
  ltac:(field_setter main_buf_tail).
Definition set_main_buf_cen : Z -> state_t -> state_t :=
  ltac:(field_setter main_buf_cen).
Definition set_main_buf_edge : Z -> state_t -> state_t :=
  ltac:(field_setter main_buf_edge).
Definition set_leadin_buf : list double -> state_t -> state_t :=
  ltac:(field_setter leadin_buf).
Definition set_leadin_buf_end : Z -> state_t -> state_t :=
  ltac:(field_setter leadin_buf_end).
Definition set_leadin_buf_edge : Z -> state_t -> state_t :=
  ltac:(field_setter leadin_buf_edge).

(** ** Memory access *)

Definition sizeof_double : Z := 8.

(** [buf[p]] and [buf[p] = v]. *)
Definition load (buf : list double) (p : Z) : double :=
  if p <? 0 then dzero else nth (Z.to_nat p) buf dzero.

Definition store (buf : list double) (p : Z) (v : double) : list double :=
  if p <? 0 then buf else <[Z.to_nat p := v]> buf.

(** A run of consecutive doubles written at [p] ([memcpy], or one frame
    delivered by the codec). *)
Fixpoint store_frame (buf : list double) (p : Z) (fr : list double)
  : list double :=
  match fr with
  | [] => buf
  | x :: fr' => store_frame (store buf p x) (p + 1) fr'
  end.

(** The [n] doubles at [p]. *)
Definition load_frame (buf : list double) (p : Z) (n : Z) : list double :=
  (fun i => load buf (p + i)) <$> seqZ 0 n.

(** [memset (p, 0, bytes)]. *)
Definition memset0 (buf : list double) (p : Z) (bytes : Z) : list double :=
  store_frame buf p (replicate (Z.to_nat (bytes ÷ sizeof_double)) dzero).

(** [k] consecutive frames of [n] doubles each, starting at [p]. *)
Fixpoint load_frames (buf : list double) (p : Z) (n : Z) (k : nat)
  : list (list double) :=
  match k with
  | O => []
  | S k' => load_frame buf p n :: load_frames buf (p + n) n k'
  end.

(** Frames delivered by the codec into consecutive slots from [p]. *)
Fixpoint store_frames (buf : list double) (p : Z) (n : Z)
    (frs : list (list double)) : list double :=
  match frs with
  | [] => buf
  | fr :: frs' =>
      store_frames (store_frame buf p (take (Z.to_nat n) fr)) (p + n) n frs'
  end.

(** [sf_writef_double (h, frames, count)]: the number of frames written and
    the handle afterwards; nothing is written through a null handle. *)
Definition sf_writef_double (h : option (Z * list (list double)))
    (frs : list (list double)) : Z * option (Z * list (list double)) :=
  match h with
  | Some (nm, fs) => (Z.of_nat (length frs), Some (nm, fs ++ frs))
  | None => (0, None)
  end.

(** ** The RMS detector *)

(** The loop of [we_have_signal], from channel [c], with [n] channels left
    to look at; [thr] is [state.n_x_nf_sq] and [x] is [state.x_sq_ttl]. *)
Fixpoint we_have_signal_from (thr : double) (x : list double) (n : nat)
    (c : Z) : bool :=
  match n with
  | O => false
  | S n' =>
      if dltb thr (load x c) then true
      else we_have_signal_from thr x n' (c + 1)
  end.

Definition we_have_signal (st : state_t) : bool :=
  we_have_signal_from (n_x_nf_sq st) (x_sq_ttl st)
    (Z.to_nat (numchannels st)) 0.

(** ** Ring cursors and the per-frame filter *)

Definition advance_buf_ptrs (st : state_t) : state_t :=
  let st := set_main_buf_head (main_buf_tail st) st in
  let st := set_sq_buf_head (sq_buf_tail st) st in
  let st := set_main_buf_tail (main_buf_tail st + numchannels st) st in
  let st := set_main_buf_cen (main_buf_cen st + numchannels st) st in
  let st := set_sq_buf_tail (sq_buf_tail st + numchannels st) st in
  let st := set_sq_buf_cen (sq_buf_cen st + numchannels st) st in
  let st := set_main_buf_tail
      (if main_buf_edge st <=? main_buf_tail st then 0
       else main_buf_tail st) st in
  let st := set_main_buf_cen
      (if main_buf_edge st <=? main_buf_cen st then 0
       else main_buf_cen st) st in
  let st := set_sq_buf_tail
      (if sq_buf_edge st <=? sq_buf_tail st then 0 else sq_buf_tail st) st in
  set_sq_buf_cen
    (if sq_buf_edge st <=? sq_buf_cen st then 0 else sq_buf_cen st) st.

(** The body of the loop of [filter_new_frame], for channel [c]. *)
Definition filter_channel (o : options_t) (st : state_t) (c : Z) : state_t :=
  let st := set_x_sq_ttl
      (store (x_sq_ttl st) c
         (dsub (load (x_sq_ttl st) c) (load (sq_buf st) (sq_buf_head st + c))))
      st in
  let st := set_main_buf
      (store (main_buf st) (main_buf_head st + c)
         (dadd (load (main_buf st) (main_buf_head st + c))
               (load (dc_offset o) c))) st in
  let st := set_hpf_out
      (store (hpf_out st) c
         (dmul (alpha st)
            (dsub (load (main_buf st) (main_buf_head st + c))
                  (load (hpf_prev_rej st) c)))) st in
  let st := set_hpf_rej
      (store (hpf_rej st) c
         (dsub (load (main_buf st) (main_buf_head st + c))
               (load (hpf_out st) c))) st in
  let st := set_hpf_prev_out
      (store (hpf_prev_out st) c (load (hpf_out st) c)) st in
  let st := set_hpf_prev_rej
      (store (hpf_prev_rej st) c (load (hpf_rej st) c)) st in
  let st :=
    if high_pass_filter_enabled o
    then set_main_buf
           (store (main_buf st) (main_buf_head st + c) (load (hpf_out st) c))
           st
    else set_hpf_rej_ttl
           (store (hpf_rej_ttl st) c
              (dadd (load (hpf_rej_ttl st) c) (load (hpf_rej st) c))) st in
  let st := set_sq_buf
      (store (sq_buf st) (sq_buf_head st + c)
         (dmul (load (main_buf st) (main_buf_head st + c))
               (load (main_buf st) (main_buf_head st + c)))) st in
  set_x_sq_ttl
    (store (x_sq_ttl st) c
       (dadd (load (x_sq_ttl st) c) (load (sq_buf st) (sq_buf_head st + c))))
    st.

Definition filter_new_frame (o : options_t) (st : state_t) : state_t :=
  let st := fold_left (filter_channel o) (seqZ 0 (numchannels st)) st in
  set_frames_proc_ttl (frames_proc_ttl st + 1) st.

(** ** The frame source *)

(** The first half of [fetch_next_frame]: the frame that replaces the tail
    frame of the main buffer, and the local flag [eof].  The codec delivers
    the next frame or reports the end of the input; the exit that the
    source takes when [sf_readf_double] reports an error is outside the
    model. *)
Definition fetch_input (st : state_t) : bool * state_t :=
  if negb (in_eof st) && (0 <? frames_remaining st) then
    let st := set_frames_remaining (frames_remaining st - 1) st in
    match in_file st with
    | fr :: rest =>
        let st := set_in_file rest st in
        let st := set_main_buf
            (store_frame (main_buf st) (main_buf_tail st)
               (take (Z.to_nat (numchannels st)) fr)) st in
        (false, set_frames_read_ttl (frames_read_ttl st + 1) st)
    | [] =>
        let st := set_in_eof true st in
        let st := set_frames_remaining
            (if ra_frame_cnt st <? frames_remaining st
             then ra_frame_cnt st else frames_remaining st) st in
        (false,
         set_main_buf
           (memset0 (main_buf st) (main_buf_tail st) (frame_sz st)) st)
    end
  else
    let st := set_main_buf
        (memset0 (main_buf st) (main_buf_tail st) (frame_sz st)) st in
    if 0 <? frames_remaining st
    then (false, set_frames_remaining (frames_remaining st - 1) st)
    else (true, st).

(** [fetch_next_frame]: the result is [TRUE] while frames remain. *)
Definition fetch_next_frame (o : options_t) (st : state_t) : bool * state_t :=
  let '(eof, st) := fetch_input st in
  let st := set_cur_frame_pos (cur_frame_pos st + 1) st in
  let st := advance_buf_ptrs st in
  let st := filter_new_frame o st in
  (negb eof, st).

(** ** The lead-in buffer *)

Definition leadin_buf_add (o : options_t) (st : state_t) : state_t :=
  match cut_point_action o with
  | CPA_EXTRACT_TRACK =>
      if leadin_buf_end st <? leadin_buf_edge st then
        let st := set_leadin_buf
            (store_frame (leadin_buf st) (leadin_buf_end st)
               (load_frame (main_buf st) (main_buf_cen st)
                  (frame_sz st ÷ sizeof_double))) st in
        set_leadin_buf_end (leadin_buf_end st + numchannels st) st
      else set_stderr_warnings (S (stderr_warnings st)) st
  | CPA_LOG_POINT => st
  end.

Definition leadin_buf_commit (o : options_t) (st : state_t)
  : option state_t :=
  match cut_point_action o with
  | CPA_EXTRACT_TRACK =>
      let num_frames := leadin_buf_end st ÷ numchannels st in
      let '(cnt, h) :=
        sf_writef_double (out_file st)
          (load_frames (leadin_buf st) 0 (numchannels st)
             (Z.to_nat num_frames)) in
      if cnt <? num_frames then None else Some (set_out_file h st)
  | CPA_LOG_POINT => Some st
  end.

Definition leadin_buf_purge (o : options_t) (st : state_t) : state_t :=
  match cut_point_action o with
  | CPA_EXTRACT_TRACK => set_leadin_buf_end 0 st
  | CPA_LOG_POINT => st
  end.

(** ** Sinks *)

Definition print_track_cut (st : state_t) : state_t :=
  let duration := cur_frame_pos st - cur_track_start st in
  set_cuts_file
    (cuts_file st ++
     [ {| row_track_num := cur_track_num st;
          row_start := cur_track_start st;
          row_end := cur_frame_pos st;
          row_duration := duration |} ]) st.

(** The new file is named after the current track number (the name that a
    track-names file would give it is outside the model, and so are the
    exits on a missing file extension and on a failure of [sf_open]). *)
Definition create_new_out_file (o : options_t) (st : state_t)
  : option state_t :=
  let st := set_out_file (Some (cur_track_num st, [])) st in
  st ← leadin_buf_commit o st;
  Some (leadin_buf_purge o st).

Definition close_out_file (st : state_t) : state_t :=
  match out_file st with
  | Some f => set_out_file None (set_track_dir (track_dir st ++ [f]) st)
  | None => st
  end.

Definition force_end_of_track (o : options_t) (st : state_t) : state_t :=
  match cut_point_action o with
  | CPA_LOG_POINT =>
      match cut_context st with
      | CCTX_TRACK | CCTX_TRACK_ENDING => print_track_cut st
      | _ => st
      end
  | CPA_EXTRACT_TRACK => close_out_file st
  end.

Definition commit_current_frame (o : options_t) (st : state_t)
  : option state_t :=
  match cut_point_action o with
  | CPA_LOG_POINT => Some st
  | CPA_EXTRACT_TRACK =>
      let '(cnt, h) :=
        sf_writef_double (out_file st)
          [load_frame (main_buf st) (main_buf_cen st) (numchannels st)] in
      if cnt <? 1 then None else Some (set_out_file h st)
  end.

(** ** The segmentation state machine *)

Definition update_context (o : options_t) (st : state_t) : option state_t :=
  match cut_context st with
  | CCTX_SILENCE =>
      if we_have_signal st then
        let st := set_cut_context CCTX_TRACK_STARTING st in
        let st := set_time_to_live (min_signal_len st - 1) st in
        let st := set_cur_track_start (cur_frame_pos st) st in
        Some (leadin_buf_add o st)
      else Some st
  | CCTX_TRACK_STARTING =>
      if negb (we_have_signal st) then
        let st := leadin_buf_purge o st in
        Some (set_cut_context CCTX_SILENCE st)
      else if 0 <? time_to_live st then
        let st := leadin_buf_add o st in
        Some (set_time_to_live (time_to_live st - 1) st)
      else
        let st := set_cut_context CCTX_TRACK st in
        st ← match cut_point_action o with
             | CPA_LOG_POINT => Some st
             | CPA_EXTRACT_TRACK => create_new_out_file o st
             end;
        commit_current_frame o st
  | CCTX_TRACK_ENDING =>
      st ← commit_current_frame o st;
      if we_have_signal st then Some (set_cut_context CCTX_TRACK st)
      else if 0 <? time_to_live st then
        Some (set_time_to_live (time_to_live st - 1) st)
      else
        let st := force_end_of_track o st in
        let st := set_cut_context CCTX_SILENCE st in
        Some (set_cur_track_num (cur_track_num st + 1) st)
  | CCTX_TRACK =>
      st ← commit_current_frame o st;
      if negb (we_have_signal st)
         && (cur_track_start st + min_track_len st <=? cur_frame_pos st)
      then
        let st := set_cut_context CCTX_TRACK_ENDING st in
        Some (set_time_to_live (min_silence_len st) st)
      else Some st
  end.

(** ** Start-up *)

Definition HIGH_PASS_CORNER_FREQ : double := d_of_Z 20.

Definition HIGH_PASS_TAU : double :=
  ddiv (d_of_Z 1) (dmul (dmul (d_of_Z 2) M_PI) HIGH_PASS_CORNER_FREQ).

(** [x_nf * x_nf * (double) rms_window_len], with [x_nf] as the source
    computes it from the noise floor in dBFS. *)
Definition noise_threshold (dbfs : double) (window_len : Z) : double :=
  let x_nf := exp2 (ddiv dbfs (dmul (d_of_Z 20) (log10 (d_of_Z 2)))) in
  dmul (dmul x_nf x_nf) (d_of_Z window_len).

(** The loop of [init_state] that runs the filter over the frames read
    ahead, borrowing the head cursors as the loop counter: its body, and the
    loop. *)
Definition prime_step (o : options_t) (st : state_t) : state_t :=
  let st := filter_new_frame o st in
  let st := set_main_buf_head (main_buf_head st + numchannels st) st in
  set_sq_buf_head (sq_buf_head st + numchannels st) st.

Fixpoint prime_filter (fuel : nat) (o : options_t) (st : state_t) : state_t :=
  match fuel with
  | O => st
  | S fuel' =>
      if main_buf_head st <? main_buf_edge st
      then prime_filter fuel' o (prime_step o st)
      else st
  end.

(** [memset (&state, 0, sizeof (state))]. *)
Definition zero_state : state_t :=
  {| in_file := []; out_file := None; track_dir := []; cuts_file := [];
     stderr_warnings := O; in_eof := false; frames_remaining := 0;
     cut_context := CCTX_SILENCE; time_to_live := 0; frames_read_ttl := 0;
     frames_proc_ttl := 0; cur_frame_pos := 0; cur_track_num := 0;
     cur_track_start := 0; numchannels := 0; samplerate := 0;
     rms_window_len := 0; min_signal_len := 0; min_silence_len := 0;
     min_track_len := 0; leadin_buf_len := 0; frame_sz := 0;
     ra_frame_cnt := 0; alpha := dzero; n_x_nf_sq := dzero;
     x_sq_ttl := replicate (Z.to_nat MAX_CHANNELS) dzero;
     hpf_rej := replicate (Z.to_nat MAX_CHANNELS) dzero;
     hpf_rej_ttl := replicate (Z.to_nat MAX_CHANNELS) dzero;
     hpf_out := replicate (Z.to_nat MAX_CHANNELS) dzero;
     hpf_prev_out := replicate (Z.to_nat MAX_CHANNELS) dzero;
     hpf_prev_rej := replicate (Z.to_nat MAX_CHANNELS) dzero;
     sq_buf := []; main_buf := [];
     sq_buf_head := 0; sq_buf_tail := 0; sq_buf_cen := 0; sq_buf_edge := 0;
     main_buf_head := 0; main_buf_tail := 0; main_buf_cen := 0;
     main_buf_edge := 0;
     leadin_buf := []; leadin_buf_end := 0; leadin_buf_edge := 0 |}.

(** [calloc (n, size)], and [malloc], whose block is taken as zeroed. *)
Definition calloc (n size : Z) : list double :=
  replicate (Z.to_nat (n * size ÷ sizeof_double)) dzero.

(** [open_input_file]; [None] when the seek to the start frame fails. *)
Definition open_input_file (o : options_t) (f : sndfile) (st : state_t)
  : option state_t :=
  let st := set_in_file (sf_frames f) st in
  let st := set_samplerate (sf_samplerate f) st in
  let st := set_numchannels (sf_channels f) st in
  let st := set_frame_sz (sizeof_double * numchannels st) st in
  st ← (if 0 <? start_frame_idx o then
          if Z.of_nat (length (in_file st)) <? start_frame_idx o then None
          else Some (set_in_file
                       (drop (Z.to_nat (start_frame_idx o)) (in_file st)) st)
        else Some st);
  let st := set_cur_frame_pos (start_frame_idx o) st in
  Some (set_frames_remaining (end_frame_idx o - start_frame_idx o) st).

(** [init_state] for [options.task == TCT_CUTTING], in the four blocks of
    the source (the third in two halves).  First the window length, the two
    rings, the read-ahead count and the filter coefficient. *)
Definition init_buffers (st : state_t) : state_t :=
  let st := set_rms_window_len
      (samplerate st * RMS_WINDOW_PERIOD ÷ 1000) st in
  let st := set_sq_buf (calloc (rms_window_len st) (frame_sz st)) st in
  let st := set_sq_buf_edge (rms_window_len st * numchannels st) st in
  let st := set_sq_buf_cen ((rms_window_len st ÷ 2) * numchannels st) st in
  let st := set_main_buf (calloc (rms_window_len st) (frame_sz st)) st in
  let st := set_main_buf_edge (rms_window_len st * numchannels st) st in
  let st := set_main_buf_cen ((rms_window_len st ÷ 2) * numchannels st) st in
  let st := set_ra_frame_cnt
      ((main_buf_edge st - main_buf_cen st) ÷ numchannels st) st in
  let dt := ddiv (d_of_Z 1) (d_of_Z (samplerate st)) in
  set_alpha (ddiv HIGH_PASS_TAU (dadd HIGH_PASS_TAU dt)) st.

(** The initial half-buffer of frames is read into the slots from the
    centre to the edge, and the head cursors are lent to the priming loop. *)
Definition init_read (st : state_t) : state_t :=
  let st := set_main_buf
      (store_frames (main_buf st) (main_buf_cen st) (numchannels st)
         (take (Z.to_nat (ra_frame_cnt st)) (in_file st))) st in
  let st := set_in_file (drop (Z.to_nat (ra_frame_cnt st)) (in_file st)) st in
  let st := set_frames_read_ttl (ra_frame_cnt st) st in
  let st := set_main_buf_head (main_buf_cen st) st in
  set_sq_buf_head (sq_buf_cen st) st.

(** The priming loop runs from the centre to the edge. *)
Definition init_prime (o : options_t) (st : state_t) : state_t :=
  prime_filter (Z.to_nat (main_buf_edge st - main_buf_head st)) o st.

(** The cursors as the main loop expects them. *)
Definition init_cursors (st : state_t) : state_t :=
  let st := set_main_buf_head (main_buf_edge st - numchannels st) st in
  let st := set_main_buf_tail 0 st in
  let st := set_sq_buf_head (sq_buf_edge st - numchannels st) st in
  set_sq_buf_tail 0 st.

(** The block for [TCT_CUTTING]: threshold, dwell times, lead-in buffer. *)
Definition init_cutting (o : options_t) (st : state_t) : state_t :=
  let st := set_n_x_nf_sq
      (noise_threshold (noise_floor_dbfs o) (rms_window_len st)) st in
  let st := set_min_silence_len
      (samplerate st * min_silence_period o ÷ 1000) st in
  let st := set_min_signal_len
      (samplerate st * min_signal_period o ÷ 1000) st in
  let st := set_min_track_len (samplerate st * min_track_length o) st in
  let st :=
    match cut_point_action o with
    | CPA_EXTRACT_TRACK =>
        let st := set_leadin_buf_len (min_signal_len st) st in
        let st := set_leadin_buf
            (calloc (numchannels st * leadin_buf_len st) sizeof_double) st in
        let st := set_leadin_buf_edge
            (numchannels st * leadin_buf_len st) st in
        set_leadin_buf_end 0 st
    | CPA_LOG_POINT => st
    end in
  set_cut_context CCTX_SILENCE st.

(** [init_state], for a run without a track-names file: [cur_track_num]
    starts at 1.  The one exit that the model keeps is the failure of the
    seek to the start frame. *)
Definition init_state (o : options_t) (f : sndfile) : option state_t :=
  st ← open_input_file o f (set_cur_track_num 1 zero_state);
  Some (init_cutting o
          (init_cursors (init_prime o (init_read (init_buffers st))))).

(** ** The driver *)

(** One turn of the loop of [cutter_loop]: the state after it and whether
    the loop goes on; [None] is a fatal exit. *)
Definition loop_body (o : options_t) (st : state_t)
  : option (bool * state_t) :=
  st ← update_context o st;
  let '(more, st) := fetch_next_frame o st in
  Some (more && (cur_track_num st <=? track_num_end o), st).

(** The states in which [update_context] is called during a run. *)
Inductive loop_reach (o : options_t) (st0 : state_t) : state_t -> Prop :=
| reach_start : loop_reach o st0 st0
| reach_step st st' :
    loop_reach o st0 st ->
    loop_body o st = Some (true, st') ->
    loop_reach o st0 st'.

(** The state in which [update_context] is called for the turn number [n],
    counted from zero. *)
Fixpoint ticks (n : nat) (o : options_t) (st : state_t) : option state_t :=
  match n with
  | O => Some st
  | S n' =>
      match loop_body o st with
      | Some (true, st') => ticks n' o st'
      | _ => None
      end
  end.

Inductive outcome := Finished (st : state_t) | Fatal | OutOfFuel.

Fixpoint cutter_iterate (fuel : nat) (o : options_t) (st : state_t)
  : outcome :=
  match fuel with
  | O => OutOfFuel
  | S fuel' =>
      match loop_body o st with
      | None => Fatal
      | Some (true, st') => cutter_iterate fuel' o st'
      | Some (false, st') => Finished st'
      end
  end.

(** What [cutter_loop] does once the loop is left. *)
Definition cutter_exit (o : options_t) (st : state_t) : state_t :=
  if frames_remaining st =? 0 then force_end_of_track o st else st.

Definition cutter_loop (fuel : nat) (o : options_t) (st : state_t)
  : outcome :=
  match cutter_iterate fuel o st with
  | Finished st' => Finished (cutter_exit o st')
  | r => r
  end.

(** The whole run: [init_state] then [cutter_loop]. *)
Definition run_cutter (fuel : nat) (o : options_t) (f : sndfile) : outcome :=
  match init_state o f with
  | Some st => cutter_loop fuel o st
  | None => Fatal
  end.

End Cutter.

(** ** Three interpretations of [double] *)

(** IEEE 754 binary64, the arithmetic the program runs on.  libm is not part
    of the source: [log10] and [exp2] are tabulated at the arguments that
    the noise floors of -48 dBFS (the default) and -40 dBFS pass to them,
    with the values that glibc returns there, and are NaN elsewhere. *)
Module Binary64.

Definition of_Z (z : Z) : float :=
  if z <? 0 then PrimFloat.opp (PrimFloat.of_uint63 (Uint63.of_Z (- z)))
  else PrimFloat.of_uint63 (Uint63.of_Z z).

Definition log10_tab (x : float) : float :=
  if PrimFloat.eqb x 2%float then 0x1.34413509f79ffp-2%float else nan.

Definition exp2_tab (x : float) : float :=
  if PrimFloat.eqb x (-0x1.fe3f871c52a88p+2)%float
  then 0x1.04e74cc73ee87p-8%float
  else if PrimFloat.eqb x (-0x1.a934f0979a371p+2)%float
  then 0x1.47ae147ae147cp-7%float else nan.

Definition ops : DoubleOps :=
  {| double := float;
     dzero := 0%float;
     dadd := PrimFloat.add;
     dsub := PrimFloat.sub;
     dmul := PrimFloat.mul;
     ddiv := PrimFloat.div;
     dltb := PrimFloat.ltb;
     d_of_Z := of_Z;
     exp2 := exp2_tab;
     log10 := log10_tab;
     M_PI := 0x1.921fb54442d18p+1%float |}.

End Binary64.

(** Exact rational arithmetic.  The three libm values are rational
    approximations; only [alpha] and the threshold depend on them. *)
Module Rational.

Definition of_Z (z : Z) : Qc := Q2Qc (inject_Z z).

Definition ltb (a b : Qc) : bool :=
  match (a ?= b)%Qc with Lt => true | _ => false end.

Definition exp2_floor (x : Qc) : Qc :=
  let n := (Qnum (this x) / Zpos (Qden (this x)))%Z in
  if n <? 0 then Q2Qc (1 # Pos.pow 2 (Z.to_pos (- n)))
  else Q2Qc (inject_Z (2 ^ n)).

Definition log10_approx (x : Qc) : Qc :=
  if Qc_eq_dec x (of_Z 2) then Q2Qc (30103 # 100000) else of_Z 1.

Definition ops : DoubleOps :=
  {| double := Qc;
     dzero := of_Z 0;
     dadd := Qcplus;
     dsub := Qcminus;
     dmul := Qcmult;
     ddiv := Qcdiv;
     dltb := ltb;
     d_of_Z := of_Z;
     exp2 := exp2_floor;
     log10 := log10_approx;
     M_PI := Q2Qc (355 # 113) |}.

End Rational.

(** The real numbers: [double] without rounding, with the real functions
    that libm approximates. *)
Module Real.

Definition ltb (a b : R) : bool := if Rlt_dec a b then true else false.

Definition ops : DoubleOps :=
  {| double := R;
     dzero := 0%R;
     dadd := Rplus;
     dsub := Rminus;
     dmul := Rmult;
     ddiv := Rdiv;
     dltb := ltb;
     d_of_Z := IZR;
     exp2 := Rpower 2;
     log10 := fun x => (ln x / ln 10)%R;
     M_PI := PI |}.

End Real.

(** ** Views of the state and invariants of a run

    The definitions that the statements below are written with: groups of
    fields that a function leaves alone, the geometry of the rings, the
    counters of the frame source, and the invariants of the loop. *)

Section Views.
Context {D : DoubleOps}.

Definition params (st : state_t) :=
  (numchannels st, samplerate st, rms_window_len st, min_signal_len st,
   min_silence_len st, min_track_len st, leadin_buf_len st, frame_sz st,
   ra_frame_cnt st, alpha st, n_x_nf_sq st, sq_buf_edge st, main_buf_edge st,
   leadin_buf_edge st).

Definition machine (st : state_t) :=
  (cut_context st, time_to_live st, cur_track_start st, cur_track_num st,
   leadin_buf st, leadin_buf_end st, stderr_warnings st, out_file st,
   track_dir st, cuts_file st).

Definition source (st : state_t) :=
  (in_file st, in_eof st, frames_remaining st, frames_read_ttl st,
   frames_proc_ttl st, cur_frame_pos st, x_sq_ttl st, sq_buf st, main_buf st,
   (sq_buf_head st, sq_buf_tail st, sq_buf_cen st),
   (main_buf_head st, main_buf_tail st, main_buf_cen st),
   (hpf_rej st, hpf_rej_ttl st, hpf_out st, hpf_prev_out st, hpf_prev_rej st)).

Definition cursors (st : state_t) :=
  (in_file st, in_eof st, frames_remaining st, frames_read_ttl st,
   cur_frame_pos st,
   (sq_buf_head st, sq_buf_tail st, sq_buf_cen st),
   (main_buf_head st, main_buf_tail st, main_buf_cen st)).

Definition buf_lengths (st : state_t) :=
  (length (main_buf st), length (sq_buf st), length (x_sq_ttl st)).

(** What the priming loop leaves alone. *)
Definition prime_kept (st : state_t) :=
  (in_file st, in_eof st, frames_remaining st, frames_read_ttl st,
   cur_frame_pos st, sq_buf_tail st, sq_buf_cen st, main_buf_tail st,
   main_buf_cen st).

(** The state after [open_input_file]. *)
Definition opened (o : options_t) (f : sndfile) : state_t :=
  set_frames_remaining (end_frame_idx o - start_frame_idx o)
    (set_cur_frame_pos (start_frame_idx o)
       (set_in_file (drop (Z.to_nat (start_frame_idx o)) (sf_frames f))
          (set_frame_sz (sizeof_double * sf_channels f)
             (set_numchannels (sf_channels f)
                (set_samplerate (sf_samplerate f)
                   (set_cur_track_num 1 zero_state)))))).

Definition init_view (st : state_t) :=
  (params st, machine st, prime_kept st, (main_buf_head st, sq_buf_head st)).

Definition window_of (f : sndfile) : Z :=
  sf_samplerate f * RMS_WINDOW_PERIOD ÷ 1000.

Definition read_ahead_of (f : sndfile) : Z :=
  (window_of f * sf_channels f - window_of f ÷ 2 * sf_channels f)
  ÷ sf_channels f.

(** The state that [init_state] hands to [cutter_loop]. *)
Record init_facts (o : options_t) (f : sndfile) (st0 : state_t) : Prop := {
  if_numchannels : numchannels st0 = sf_channels f;
  if_samplerate : samplerate st0 = sf_samplerate f;
  if_window : rms_window_len st0 = window_of f;
  if_frame_sz : frame_sz st0 = sizeof_double * sf_channels f;
  if_ra : ra_frame_cnt st0 = read_ahead_of f;
  if_main_edge : main_buf_edge st0 = window_of f * sf_channels f;
  if_sq_edge : sq_buf_edge st0 = window_of f * sf_channels f;
  if_min_signal :
    min_signal_len st0 = sf_samplerate f * min_signal_period o ÷ 1000;
  if_min_silence :
    min_silence_len st0 = sf_samplerate f * min_silence_period o ÷ 1000;
  if_min_track : min_track_len st0 = sf_samplerate f * min_track_length o;
  if_threshold :
    n_x_nf_sq st0 = noise_threshold (noise_floor_dbfs o) (window_of f);
  if_leadin_edge :
    leadin_buf_edge st0 =
    match cut_point_action o with
    | CPA_EXTRACT_TRACK =>
        sf_channels f * (sf_samplerate f * min_signal_period o ÷ 1000)
    | CPA_LOG_POINT => 0
    end;
  if_context : cut_context st0 = CCTX_SILENCE;
  if_track_num : cur_track_num st0 = 1;
  if_leadin_end : leadin_buf_end st0 = 0;
  if_leadin_buf :
    leadin_buf st0 =
    match cut_point_action o with
    | CPA_EXTRACT_TRACK =>
        calloc (sf_channels f * (sf_samplerate f * min_signal_period o ÷ 1000))
          sizeof_double
    | CPA_LOG_POINT => []
    end;
  if_warnings : stderr_warnings st0 = O;
  if_out_file : out_file st0 = None;
  if_track_dir : track_dir st0 = [];
  if_cuts_file : cuts_file st0 = [];
  if_in_eof : in_eof st0 = false;
  if_remaining : frames_remaining st0 = end_frame_idx o - start_frame_idx o;
  if_pos : cur_frame_pos st0 = start_frame_idx o;
  if_read : frames_read_ttl st0 = read_ahead_of f;
  if_in_file :
    in_file st0 =
    drop (Z.to_nat (read_ahead_of f))
      (drop (Z.to_nat (start_frame_idx o)) (sf_frames f));
  if_main_tail : main_buf_tail st0 = 0;
  if_sq_tail : sq_buf_tail st0 = 0;
  if_main_cen : main_buf_cen st0 = window_of f ÷ 2 * sf_channels f;
  if_sq_cen : sq_buf_cen st0 = window_of f ÷ 2 * sf_channels f;
  if_main_head :
    main_buf_head st0 = window_of f * sf_channels f - sf_channels f;
  if_sq_head : sq_buf_head st0 = window_of f * sf_channels f - sf_channels f;
  if_main_len :
    length (main_buf st0) =
    Z.to_nat (window_of f * (sizeof_double * sf_channels f) ÷ sizeof_double);
  if_sq_len :
    length (sq_buf st0) =
    Z.to_nat (window_of f * (sizeof_double * sf_channels f) ÷ sizeof_double);
  if_x_len : length (x_sq_ttl st0) = 8%nat
}.

(** A cursor moved on by one frame, wrapping at the edge. *)
Definition advance_ptr (edge C p : Z) : Z :=
  if edge <=? p + C then 0 else p + C.

Definition ptrs (st : state_t) :=
  ((main_buf_head st, main_buf_tail st, main_buf_cen st),
   (sq_buf_head st, sq_buf_tail st, sq_buf_cen st)).

Definition untouched_by_advance (st : state_t) :=
  (params st, machine st, buf_lengths st,
   (in_file st, in_eof st, frames_remaining st, frames_read_ttl st,
    cur_frame_pos st, main_buf st, sq_buf st, x_sq_ttl st)).

(** A slot number taken modulo the window length, for a number below twice
    the window length. *)
Definition wrap (W x : Z) : Z := if x <? W then x else x - W.

(** The slot of the tail cursor. *)
Definition tail_slot (st : state_t) : Z := main_buf_tail st ÷ numchannels st.

(** The geometry of the two rings when the tail is at slot [t]: the head is
    one slot behind the tail and the centre [W / 2] slots ahead of it. *)
Definition ring_at (t C W fsz medge sedge ra : Z) (mp sp : Z * Z * Z)
    (lm ls : nat) : Prop :=
  1 <= C /\ 1 <= W /\ fsz = sizeof_double * C /\
  medge = W * C /\ sedge = W * C /\
  Z.of_nat lm = W * C /\ Z.of_nat ls = W * C /\
  ra = W - W ÷ 2 /\ 0 <= t < W /\
  mp = (wrap W (t + W - 1) * C, t * C, wrap W (t + W ÷ 2) * C) /\
  sp = (wrap W (t + W - 1) * C, t * C, wrap W (t + W ÷ 2) * C).

Definition ring_pred
    (pa : Z * Z * Z * Z * Z * Z * Z * Z * Z * double * double * Z * Z * Z)
    (pt : Z * Z * Z * (Z * Z * Z)) (bl : nat * nat * nat) : Prop :=
  let '(C, _, W, _, _, _, _, fsz, ra, _, _, sedge, medge, _) := pa in
  let '((mh, mt, mc), sp) := pt in
  let '(lm, ls, _) := bl in
  ring_at (mt ÷ C) C W fsz medge sedge ra (mh, mt, mc) sp lm ls.

Definition ring_ok (st : state_t) : Prop :=
  ring_pred (params st) (ptrs st) (buf_lengths st).

(** The counters of the frame source, and one call of [fetch_next_frame]
    seen through them: the frames the codec still holds, the EOF flag, the
    frames remaining, the frames read and the position. *)
Definition counters (st : state_t) :=
  (in_file st, in_eof st, frames_remaining st, frames_read_ttl st,
   cur_frame_pos st).

Definition source_step (ra : Z)
    (c : list (list double) * bool * Z * Z * Z)
  : bool * (list (list double) * bool * Z * Z * Z) :=
  let '(file, eof, rem, rd, pos) := c in
  if negb eof && (0 <? rem) then
    match file with
    | _ :: rest => (true, (rest, eof, rem - 1, rd + 1, pos + 1))
    | [] =>
        (true,
         ([], true, (if ra <? rem - 1 then ra else rem - 1), rd, pos + 1))
    end
  else if 0 <? rem then (true, (file, eof, rem - 1, rd, pos + 1))
  else (false, (file, eof, rem, rd, pos + 1)).

(** The position in the recording that the codec will read next, and the
    index of the frame read last, which is the one at the head cursor. *)
Definition read_position (o : options_t) (st : state_t) : Z :=
  start_frame_idx o + frames_read_ttl st.

Definition head_frame_index (o : options_t) (st : state_t) : Z :=
  read_position o st - 1.

(** The state after [n] calls of [fetch_next_frame]. *)
Fixpoint fetch_n (n : nat) (o : options_t) (st : state_t) : state_t :=
  match n with
  | O => st
  | S n' => fetch_n n' o (snd (fetch_next_frame o st))
  end.

Definition lag_ok (o : options_t) (st : state_t) : Prop :=
  in_eof st = false ->
  frames_read_ttl st + start_frame_idx o
  = cur_frame_pos st + ra_frame_cnt st.

(** The frame that a call of [fetch_next_frame] admits at the tail slot,
    before the cursors move and the filter runs. *)
Definition admitted_frame (st : state_t) : list double :=
  load_frame (main_buf (snd (fetch_input st))) (main_buf_tail st)
    (numchannels st).

(** The number of tracks ended so far: rows in the cuts file, files closed
    in the track directory. *)
Definition ends (st : state_t) : Z :=
  Z.of_nat (length (cuts_file st) + length (track_dir st)).

Definition in_track (st : state_t) : bool :=
  match cut_context st with
  | CCTX_TRACK | CCTX_TRACK_ENDING => true
  | _ => false
  end.

(** The track counter is one more than the number of tracks ended, and in
    extraction mode a file is open exactly while a track is being written. *)
Definition counter_ok (o : options_t) (st : state_t) : Prop :=
  cur_track_num st = 1 + ends st /\
  (cut_point_action o = CPA_EXTRACT_TRACK ->
   if in_track st then out_file st <> None else out_file st = None).

Definition row_ok (mtl : Z) (r : cut_row) : Prop :=
  row_start r + mtl <= row_end r.

(** A track that is ending has run for the minimum track length, and so has
    every track in the cuts file. *)
Definition lock_ok (st : state_t) : Prop :=
  (cut_context st = CCTX_TRACK_ENDING ->
   cur_track_start st + min_track_len st <= cur_frame_pos st) /\
  Forall (row_ok (min_track_len st)) (cuts_file st).

(** The fill of the lead-in buffer, by context: the buffer is empty outside
    [CCTX_TRACK_STARTING], and inside it the frames held and the dwell left
    add up to [min_signal_len]. *)
Definition leadin_fill (st : state_t) : Prop :=
  match cut_context st with
  | CCTX_TRACK_STARTING =>
      (1 <= min_signal_len st ->
       0 <= time_to_live st <= min_signal_len st - 1 /\
       leadin_buf_end st
       = (min_signal_len st - time_to_live st) * numchannels st) /\
      (min_signal_len st <= 0 -> leadin_buf_end st = 0)
  | _ => leadin_buf_end st = 0
  end.

Definition leadin_ok (o : options_t) (st : state_t) : Prop :=
  (1 <= min_signal_len st -> stderr_warnings st = O) /\
  (cut_point_action o = CPA_EXTRACT_TRACK ->
   leadin_buf_edge st = numchannels st * min_signal_len st /\
   (0 <= min_signal_len st ->
    Z.of_nat (length (leadin_buf st)) = leadin_buf_edge st) /\
   leadin_fill st).

(** The frame at the centre cursor. *)
Definition centre_frame (st : state_t) : list double :=
  load_frame (main_buf st) (main_buf_cen st) (numchannels st).

(** What a tick in [CCTX_TRACK_ENDING] does to the output of extraction mode
    when the file [(nm, fs)] is open, by the verdict and the dwell left. *)
Definition ending_files (st st' : state_t) (nm : Z) (fs : list (list double))
  : Prop :=
  if we_have_signal st || (0 <? time_to_live st) then
    out_file st' = Some (nm, fs ++ [centre_frame st]) /\
    track_dir st' = track_dir st
  else
    out_file st' = None /\
    track_dir st' = track_dir st ++ [(nm, fs ++ [centre_frame st])].

Definition ending_rows (st st' : state_t) : Prop :=
  out_file st' = out_file st /\ track_dir st' = track_dir st /\
  cuts_file st'
  = if we_have_signal st || (0 <? time_to_live st) then cuts_file st
    else cuts_file st ++
         [ {| row_track_num := cur_track_num st;
              row_start := cur_track_start st;
              row_end := cur_frame_pos st;
              row_duration := cur_frame_pos st - cur_track_start st |} ].

Definition ending_machine (st st' : state_t) : Prop :=
  if we_have_signal st then
    cut_context st' = CCTX_TRACK /\ time_to_live st' = time_to_live st /\
    cur_track_num st' = cur_track_num st
  else if 0 <? time_to_live st then
    cut_context st' = CCTX_TRACK_ENDING /\
    time_to_live st' = time_to_live st - 1 /\
    cur_track_num st' = cur_track_num st
  else
    cut_context st' = CCTX_SILENCE /\ cur_track_num st' = cur_track_num st + 1.

(** The real number that a finite binary64 value stands for (zero for an
    infinity or a NaN). *)
Definition real_of_float (x : float) : R :=
  match Prim2SF x with
  | S754_finite s m e =>
      ((if s then -1 else 1) * IZR (Zpos m) * powerRZ 2 e)%R
  | _ => 0%R
  end.

(** The sum of a list of doubles, and the squares that the ring [sq] holds
    for channel [c]: one in each of its [W] slots of [C] doubles. *)
Definition dsum (l : list double) : double := foldr dadd dzero l.

Definition channel_squares (sq : list double) (C W c : Z) : list double :=
  (fun i => load sq (i * C + c)) <$> seqZ 0 W.

Definition sums_ok (C W : Z) (x sq : list double) : Prop :=
  forall c, 0 <= c < C -> load x c = dsum (channel_squares sq C W c).

Definition sum_ok (st : state_t) : Prop :=
  sums_ok (numchannels st) (rms_window_len st) (x_sq_ttl st) (sq_buf st).

(** What [filter_channel] does to the running sum and to the ring of
    squares, for the square [v] of the new sample. *)
Definition sq_step (h c : Z) (v : double) (x sq : list double)
  : list double * list double :=
  let x1 := store x c (dsub (load x c) (load sq (h + c))) in
  let sq1 := store sq (h + c) v in
  (store x1 c (dadd (load x1 c) (load sq1 (h + c))), sq1).

Definition sq_view (st : state_t) := (x_sq_ttl st, sq_buf st).

(** The sample of channel [c] that [filter_channel] leaves in the head
    frame. *)
Definition filtered_sample (o : options_t) (st : state_t) (c : Z) : double :=
  load (main_buf (filter_channel o st c)) (main_buf_head st + c).

(** The state in which [fetch_next_frame] calls [filter_new_frame]. *)
Definition admitted (st : state_t) : state_t :=
  advance_buf_ptrs
    (set_cur_frame_pos (cur_frame_pos (snd (fetch_input st)) + 1)
       (snd (fetch_input st))).

(** What [filter_new_frame], called in the state [st], has done once the
    channels below [n] have gone through its loop: outside the head frame
    the two rings are as they were; in the head frame the ring of squares
    holds the square of the sample that the main ring now holds, and the
    running sum has lost the square that was there and gained the new one;
    with the high-pass filter off the sample is the one that was there plus
    the DC offset of its channel. *)
Definition frame_effect (o : options_t) (st : state_t) (n : Z)
    (s : state_t) : Prop :=
  params s = params st /\ ptrs s = ptrs st /\
  buf_lengths s = buf_lengths st /\
  (forall q, ~ (main_buf_head st <= q < main_buf_head st + n) ->
     load (main_buf s) q = load (main_buf st) q) /\
  (forall q, ~ (sq_buf_head st <= q < sq_buf_head st + n) ->
     load (sq_buf s) q = load (sq_buf st) q) /\
  (forall c, ~ (0 <= c < n) -> load (x_sq_ttl s) c = load (x_sq_ttl st) c) /\
  (forall c, 0 <= c < n ->
     load (sq_buf s) (sq_buf_head st + c)
     = dmul (load (main_buf s) (main_buf_head st + c))
         (load (main_buf s) (main_buf_head st + c)) /\
     load (x_sq_ttl s) c
     = dadd (dsub (load (x_sq_ttl st) c)
               (load (sq_buf st) (sq_buf_head st + c)))
         (load (sq_buf s) (sq_buf_head st + c)) /\
     (high_pass_filter_enabled o = false ->
      load (main_buf s) (main_buf_head st + c)
      = dadd (load (main_buf st) (main_buf_head st + c))
          (load (dc_offset o) c))).

(** What holds while the loop of [init_state] primes the filter. *)
Definition prime_inv (st : state_t) : Prop :=
  1 <= numchannels st <= MAX_CHANNELS /\
  main_buf_edge st = rms_window_len st * numchannels st /\
  (exists h, 0 <= h /\ main_buf_head st = h * numchannels st /\
             sq_buf_head st = h * numchannels st) /\
  length (x_sq_ttl st) = 8%nat /\
  Z.of_nat (length (sq_buf st)) = rms_window_len st * numchannels st /\
  sum_ok st.

(** The frame that [fetch_next_frame] puts at the tail of the main buffer:
    the next frame of the recording, or zeros. *)
Definition new_frame (st : state_t) : list double :=
  if negb (in_eof st) && (0 <? frames_remaining st) then
    match in_file st with
    | fr :: _ => take (Z.to_nat (numchannels st)) fr
    | [] => replicate (Z.to_nat (frame_sz st ÷ sizeof_double)) dzero
    end
  else replicate (Z.to_nat (frame_sz st ÷ sizeof_double)) dzero.

(** What the priming loop, started in the state [st], has done when its
    head cursors are where they are in [s]: the frames that the cursors
    have passed have gone through [filter_new_frame], the rest of the two
    rings is as it was. *)
Definition primed (o : options_t) (st s : state_t) : Prop :=
  params s = params st /\ buf_lengths s = buf_lengths st /\
  (exists k, 0 <= k /\
     main_buf_head s = main_buf_head st + k * numchannels st /\
     sq_buf_head s = sq_buf_head st + k * numchannels st) /\
  main_buf_head s <= main_buf_edge st /\
  (forall q, ~ (main_buf_head st <= q < main_buf_head s) ->
     load (main_buf s) q = load (main_buf st) q /\
     load (sq_buf s) q = load (sq_buf st) q) /\
  (forall q, main_buf_head st <= q < main_buf_head s ->
     load (sq_buf s) q = dmul (load (main_buf s) q) (load (main_buf s) q) /\
     (high_pass_filter_enabled o = false ->
      load (main_buf s) q
      = dadd (load (main_buf st) q)
          (load (dc_offset o)
             ((q - main_buf_head st) mod numchannels st)))).

(** The shape of the rings when the priming loop starts. *)
Definition prime_shape (st : state_t) : Prop :=
  1 <= numchannels st /\ sq_buf_head st = main_buf_head st /\
  0 <= main_buf_head st /\
  Z.of_nat (length (main_buf st)) = main_buf_edge st /\
  Z.of_nat (length (sq_buf st)) = main_buf_edge st /\
  numchannels st <= Z.of_nat (length (x_sq_ttl st)) /\
  exists m, main_buf_edge st = main_buf_head st + m * numchannels st.

(** The main ring when the priming loop starts: zeros, and the frames read
    ahead in the slots from the centre on. *)
Definition read_ahead_buf (o : options_t) (f : sndfile) : list double :=
  store_frames (calloc (window_of f) (sizeof_double * sf_channels f))
    (window_of f ÷ 2 * sf_channels f) (sf_channels f)
    (take (Z.to_nat (read_ahead_of f))
       (drop (Z.to_nat (start_frame_idx o)) (sf_frames f))).

(** Each slot of the ring of squares holds the square of the sample in the
    same slot of the main ring. *)
Definition squares_ok (st : state_t) : Prop :=
  forall q, load (sq_buf st) q
            = dmul (load (main_buf st) q) (load (main_buf st) q).

(** The exact sum of the squares that the ring holds for channel [c], when
    a [double] [x] stands for the real number [val x], and the gap between
    the running sum and it. *)
Definition window_sum (val : double -> R) (sq : list double) (C W c : Z)
  : R :=
  foldr Rplus 0%R (val <$> channel_squares sq C W c).

Definition sum_gap (val : double -> R) (st : state_t) (c : Z) : R :=
  (val (load (x_sq_ttl st) c)
   - window_sum val (sq_buf st) (numchannels st) (rms_window_len st) c)%R.

(** What [filter_channel] makes of a sample when the DC offset of its
    channel is zero and the high-pass filter is off: the sample plus
    zero. *)
Definition plus_zero (x : double) : double := dadd x dzero.

(** A sample that adding a zero DC offset gives back as it is. *)
Definition clean (x : double) : Prop := plus_zero x = x.

(** The frame of the recording at position [p], and the zero frame past its
    end. *)
Definition input_frame (f : sndfile) (p : Z) : list double :=
  match sf_frames f !! Z.to_nat p with
  | Some fr => fr
  | None => replicate (Z.to_nat (sf_channels f)) dzero
  end.

(** The same frame once it has gone through [filter_new_frame]. *)
Definition passed_frame (f : sndfile) (p : Z) : list double :=
  plus_zero <$> input_frame f p.

(** Every frame of the recording has one sample for each channel, as
    libsndfile delivers them. *)
Definition framed (f : sndfile) : Prop :=
  Forall (fun fr => length fr = Z.to_nat (sf_channels f)) (sf_frames f).

(** A binary64 sample with the sign of a zero dropped: negative zero
    becomes positive zero, every other value is as it was. *)
Definition drop_zero_sign (x : float) : float :=
  match Prim2SF x with
  | S754_zero true => 0%float
  | _ => x
  end.

(** The main buffer holds the recording as it comes out of
    [filter_new_frame]: the slots from the centre to the head hold the
    frames from the current position on, and the codec is as far ahead as
    the read-ahead count. *)
Definition content_ok (f : sndfile) (st : state_t) : Prop :=
  0 <= cur_frame_pos st /\
  (forall i, rms_window_len st ÷ 2 <= i < rms_window_len st ->
     load_frame (main_buf st)
       (wrap (rms_window_len st) (tail_slot st + i) * numchannels st)
       (numchannels st)
     = passed_frame f (cur_frame_pos st + i - rms_window_len st ÷ 2)) /\
  (in_eof st = false ->
   in_file st
   = drop (Z.to_nat (cur_frame_pos st
                     + (rms_window_len st - rms_window_len st ÷ 2)))
       (sf_frames f)) /\
  (in_eof st = true ->
   Z.of_nat (length (sf_frames f))
   <= cur_frame_pos st + (rms_window_len st - rms_window_len st ÷ 2)).


(** The numbers of the tracks written so far, in the order in which they
    were written: the first column of the cuts file, and the numbers that
    the closed track files are named after. *)
Definition track_numbers (st : state_t) : list Z :=
  (row_track_num <$> cuts_file st) ++ (fst <$> track_dir st).

Definition numbered (l : list Z) : Prop := l = seqZ 1 (Z.of_nat (length l)).

(** Tracks are numbered from one without gaps, the open file carries the
    current number, and each mode writes only its own kind of output. *)
Definition names_ok (o : options_t) (st : state_t) : Prop :=
  numbered (row_track_num <$> cuts_file st) /\
  numbered (fst <$> track_dir st) /\
  match out_file st with
  | Some (nm, _) => nm = cur_track_num st
  | None => True
  end /\
  match cut_point_action o with
  | CPA_LOG_POINT =>
      track_dir st = [] /\ out_file st = None /\
      cur_track_num st = 1 + Z.of_nat (length (cuts_file st))
  | CPA_EXTRACT_TRACK =>
      cuts_file st = [] /\
      cur_track_num st = 1 + Z.of_nat (length (track_dir st))
  end.

Definition limit_ok (o : options_t) (st : state_t) : Prop :=
  cur_track_num st <= Z.max 1 (track_num_end o) /\
  (track_num_end o < 1 -> cut_context st = CCTX_SILENCE).

(** Rows that follow one another from [lo] on: each starts at [lo] or
    later, ends after it starts, carries its own length, and leaves the next
    one to start after its end. *)
Fixpoint rows_chained (lo : Z) (l : list cut_row) : Prop :=
  match l with
  | [] => True
  | r :: l' =>
      lo <= row_start r /\ row_start r < row_end r /\
      row_duration r = row_end r - row_start r /\
      rows_chained (row_end r + 1) l'
  end.

(** The first position free after the rows. *)
Definition rows_hi (lo : Z) (l : list cut_row) : Z :=
  fold_left (fun _ r => row_end r + 1) l lo.

(** The rows are chained and end before the track being written starts, or
    before the position [d] frames ahead when no track is being written. *)
Definition rows_ok (d : Z) (o : options_t) (st : state_t) : Prop :=
  rows_chained (start_frame_idx o) (cuts_file st) /\
  match cut_context st with
  | CCTX_SILENCE =>
      rows_hi (start_frame_idx o) (cuts_file st) <= cur_frame_pos st + d
  | _ =>
      rows_hi (start_frame_idx o) (cuts_file st) <= cur_track_start st /\
      cur_track_start st < cur_frame_pos st + d
  end.

(** The frames of the recording from position [s], [n] of them, as they
    come out of [filter_new_frame] with the filter off and zero DC offsets:
    each sample plus zero. *)
Definition excerpt (f : sndfile) (s n : Z) : list (list double) :=
  passed_frame f <$> seqZ s n.

(** Track files that are excerpts of the recording, one after the other
    between [lo] and [hi]: each is a run of consecutive frames, not empty,
    and starts where the one before it has ended or later. *)
Fixpoint excerpts (f : sndfile) (lo : Z) (l : list (Z * list (list double)))
    (hi : Z) : Prop :=
  match l with
  | [] => lo <= hi
  | e :: l' =>
      exists s, lo <= s /\ snd e <> [] /\
                snd e = excerpt f s (Z.of_nat (length (snd e))) /\
                excerpts f (s + Z.of_nat (length (snd e))) l' hi
  end.

(** What has been written of the recording, by context: the closed files,
    and the frames of the track being written, which are in the lead-in
    buffer while the track is starting and in the open file afterwards.
    [d] is one between [update_context] and [fetch_next_frame]. *)
Definition slice_ok (d : Z) (f : sndfile) (lo : Z) (st : state_t) : Prop :=
  match cut_context st with
  | CCTX_SILENCE =>
      excerpts f lo (track_dir st) (cur_frame_pos st + d) /\
      out_file st = None
  | CCTX_TRACK_STARTING =>
      excerpts f lo (track_dir st) (cur_track_start st) /\
      cur_track_start st < cur_frame_pos st + d /\
      out_file st = None /\
      leadin_buf_end st
      = (cur_frame_pos st + d - cur_track_start st) * numchannels st /\
      load_frames (leadin_buf st) 0 (numchannels st)
        (Z.to_nat (cur_frame_pos st + d - cur_track_start st))
      = excerpt f (cur_track_start st)
          (cur_frame_pos st + d - cur_track_start st)
  | _ =>
      excerpts f lo (track_dir st) (cur_track_start st) /\
      cur_track_start st < cur_frame_pos st + d /\
      exists nm fs,
        out_file st = Some (nm, fs) /\
        fs = excerpt f (cur_track_start st)
               (cur_frame_pos st + d - cur_track_start st)
  end.

(** The number of hyphens in a string. *)
Fixpoint count_hyphens (s : string) : nat :=
  match s with
  | EmptyString => O
  | String c s' =>
      ((if Ascii.eqb c "-"%char then 1 else 0) + count_hyphens s')%nat
  end.

(** A string of white space only, as [sscanf (s, " %n")] sees it. *)
Definition blank (s : string) : Prop := skip_space s = EmptyString.

(** The decimal numeral of a non-negative integer, as [%lld] prints it. *)
Definition decimal (n : Z) : string :=
  NilZero.string_of_uint (N.to_uint (Z.to_N n)).

(** The text of a range boundary: a numeral, or nothing. *)
Definition boundary_text (x : option Z) : string :=
  match x with
  | Some n => decimal n
  | None => EmptyString
  end.

Definition range_text (x y : option Z) : string :=
  String.append (boundary_text x) (String "-"%char (boundary_text y)).

Definition no_digit_head (s : string) : Prop :=
  match s with
  | EmptyString => True
  | String c _ => digit_of c = None
  end.

(** While a track is starting, the frames since its start and the dwell
    left add up to [min_signal_len]; with no dwell configured the context
    lasts one frame.  A track that is being written has run for the dwell
    at least.  [d] is one between [update_context] and
    [fetch_next_frame]. *)
Definition dwell_ok (d : Z) (st : state_t) : Prop :=
  match cut_context st with
  | CCTX_SILENCE => True
  | CCTX_TRACK_STARTING =>
      (1 <= min_signal_len st ->
       cur_frame_pos st + d - cur_track_start st
       = min_signal_len st - time_to_live st /\
       0 <= time_to_live st) /\
      (min_signal_len st <= 0 ->
       cur_frame_pos st + d - cur_track_start st = 1 /\
       time_to_live st < 0)
  | _ =>
      Z.max 1 (min_signal_len st) < cur_frame_pos st + d - cur_track_start st
  end.

(** A buffer of zeros, and a frame of zeros. *)
Definition zeros (buf : list double) : Prop := forall q, load buf q = dzero.

Definition zero_frame (fr : list double) : Prop :=
  Forall (fun x => x = dzero) fr.

(** Digital silence in the pipeline: the main buffer, the ring of squares
    and the running sums hold zeros, and so do the frames still to come. *)
Definition quiet (st : state_t) : Prop :=
  zeros (main_buf st) /\ zeros (sq_buf st) /\ zeros (x_sq_ttl st).

(** Nothing has been written and no track is under way. *)
Definition idle (st : state_t) : Prop :=
  cut_context st = CCTX_SILENCE /\ cuts_file st = [] /\
  track_dir st = [] /\ out_file st = None.

(** The frames remaining count down to the end of the frame range while
    the codec delivers frames, and stay below that once it has reported the
    end of the file. *)
Definition range_ok (o : options_t) (st : state_t) : Prop :=
  0 <= frames_remaining st <= end_frame_idx o - cur_frame_pos st /\
  (in_eof st = false ->
   frames_remaining st = end_frame_idx o - cur_frame_pos st).

(** The loop of [fetch_next_track_name] that trims the line read by
    [getline]: [name_len] goes down while the character before it is white
    space, and the string is cut there. *)
Fixpoint trim_len (line : string) (name_len : nat) : nat :=
  match name_len with
  | O => O
  | S n =>
      match String.get n line with
      | Some c => if isspace c then trim_len line n else name_len
      | None => name_len
      end
  end.

Definition trimmed_name (line : string) : string :=
  String.substring 0 (trim_len line (String.length line)) line.

(** A name that does not end in white space. *)
Definition ends_clean (name : string) : Prop :=
  match String.get (String.length name - 1) name with
  | Some c => isspace c = false
  | None => True
  end.

(** The state without what the cutting mode decides: the outputs, the
    warnings and the lead-in buffer are blanked. *)
Definition core (st : state_t) : state_t :=
  set_out_file None
    (set_track_dir []
       (set_cuts_file []
          (set_stderr_warnings O
             (set_leadin_buf []
                (set_leadin_buf_end 0
                   (set_leadin_buf_len 0 (set_leadin_buf_edge 0 st))))))).

(** Two sets of options that differ in the cutting mode at most. *)
Definition same_but_mode (o1 o2 : options_t) : Prop :=
  task o1 = task o2 /\
  min_silence_period o1 = min_silence_period o2 /\
  min_signal_period o1 = min_signal_period o2 /\
  noise_floor_dbfs o1 = noise_floor_dbfs o2 /\
  min_track_length o1 = min_track_length o2 /\
  start_frame_idx o1 = start_frame_idx o2 /\
  end_frame_idx o1 = end_frame_idx o2 /\
  track_num_start o1 = track_num_start o2 /\
  track_num_end o1 = track_num_end o2 /\
  dc_offset o1 = dc_offset o2 /\
  high_pass_filter_enabled o1 = high_pass_filter_enabled o2.

End Views.

(** ** Sample runs *)

Section Samples.
Context {D : DoubleOps}.

(** The state that [init_state] hands over when the seek succeeds. *)
Definition start_state (o : options_t) (f : sndfile) : state_t :=
  init_cutting o
    (init_cursors (init_prime o (init_read (init_buffers (opened o f))))).

(** The state at the start of turn [n] of the loop. *)
Definition tick_state (n : nat) (o : options_t) (f : sndfile) : state_t :=
  match ticks n o (start_state o f) with
  | Some st => st
  | None => start_state o f
  end.

(** The state that [update_context] leaves. *)
Definition updated (o : options_t) (st : state_t) : state_t :=
  match update_context o st with
  | Some st' => st'
  | None => st
  end.

(** Options as the command line can set them, with short dwell times:
    [-s 50 -S 30 -l 1]. *)
Definition quick_options (a : cut_point_action_t) : options_t :=
  {| task := TCT_CUTTING; cut_point_action := a;
     min_silence_period := 50; min_signal_period := 30;
     noise_floor_dbfs := DFL_NOISE_FLOOR; min_track_length := 1;
     start_frame_idx := 0; end_frame_idx := SF_COUNT_MAX;
     track_num_start := 0; track_num_end := INT_MAX;
     dc_offset := replicate (Z.to_nat MAX_CHANNELS) dzero;
     high_pass_filter_enabled := false |}.

(** The default options with a noise floor of [d] dBFS: [-n d]. *)
Definition noise_floor_options (d : Z) : options_t :=
  {| task := TCT_CUTTING; cut_point_action := CPA_LOG_POINT;
     min_silence_period := DFL_MIN_SILENCE_PERIOD;
     min_signal_period := DFL_MIN_SIGNAL_PERIOD;
     noise_floor_dbfs := d_of_Z d; min_track_length := DFL_MIN_TRACK_LENGTH;
     start_frame_idx := 0; end_frame_idx := SF_COUNT_MAX;
     track_num_start := 0; track_num_end := INT_MAX;
     dc_offset := replicate (Z.to_nat MAX_CHANNELS) dzero;
     high_pass_filter_enabled := false |}.

(** The state in which a run finishes. *)
Definition final_state (fuel : nat) (o : options_t) (f : sndfile) : state_t :=
  match run_cutter fuel o f with
  | Finished st => st
  | _ => zero_state
  end.

(** A mono recording at [rate] Hz. *)
Definition mono (rate : Z) (samples : list double) : sndfile :=
  {| sf_samplerate := rate; sf_channels := 1;
     sf_frames := (fun x => [x]) <$> samples |}.

End Samples.

Module Samples64.
#[local] Existing Instance Binary64.ops.

(** 1.2 s of tone and 0.3 s of silence at 100 Hz. *)
Definition song : sndfile :=
  mono 100 (replicate 120 0.5%float ++ replicate 30 0%float).

(** Two songs with 0.3 s of silence after each, and half a second of
    digital silence. *)
Definition album : sndfile :=
  mono 100 (replicate 120 0.5%float ++ replicate 30 0%float ++
            replicate 120 0.5%float ++ replicate 30 0%float).

Definition hush : sndfile := mono 100 (replicate 50 0%float).

(** A song, a pause, and a song that the end of the recording cuts off. *)
Definition encore : sndfile :=
  mono 100 (replicate 120 0.5%float ++ replicate 30 0%float ++
            replicate 120 0.5%float).

(** One sample at full scale, then a tone thirty binary orders of
    magnitude below it. *)
Definition loud_then_quiet : sndfile :=
  mono 100 (1%float :: replicate 9 0x1p-30%float).

(** One sample whose square is just above one part in two thousand, then
    silence. *)
Definition faint : sndfile :=
  mono 100 (0x1.6e5b7d16657e2p-6%float :: replicate 9 0%float).


(** 25 ms of stereo at 48 kHz and at 44.1 kHz: as many frames as
    [init_state] reads ahead. *)
Definition dat48 : sndfile :=
  {| sf_samplerate := 48000; sf_channels := 2;
     sf_frames := replicate 1200 [0.25%float; 0.25%float] |}.

Definition cd44 : sndfile :=
  {| sf_samplerate := 44100; sf_channels := 2;
     sf_frames := replicate 1103 [0.25%float; 0.25%float] |}.

(** Three frames of tone: as many as [init_state] reads ahead at 100 Hz. *)
Definition blip : sndfile := mono 100 (replicate 3 0.5%float).

Definition song_final : state_t :=
  match run_cutter 200 init_options song with
  | Finished st => st
  | _ => zero_state
  end.

End Samples64.

Module SamplesQ.
#[local] Existing Instance Rational.ops.

Definition half : Qc := Q2Qc (1 # 2).

Definition song : sndfile :=
  mono 100 (replicate 6 half ++ replicate 4 (Rational.of_Z 0)).

End SamplesQ.

Module SamplesR.
#[local] Existing Instance Real.ops.

Definition song : sndfile := mono 100 (replicate 6 (/ 2)%R ++ replicate 4 0%R).

End SamplesR.

(** ** Proof automation *)

(** Field reads through field updates are evaluated call by value, so that
    a chain of updates is never copied out. *)
Ltac state_eval :=
  cbv beta iota zeta delta [
    in_file out_file track_dir cuts_file stderr_warnings in_eof
    frames_remaining cut_context time_to_live frames_read_ttl
    frames_proc_ttl cur_frame_pos cur_track_num cur_track_start numchannels
    samplerate rms_window_len min_signal_len min_silence_len min_track_len
    leadin_buf_len frame_sz ra_frame_cnt alpha n_x_nf_sq x_sq_ttl hpf_rej
    hpf_rej_ttl hpf_out hpf_prev_out hpf_prev_rej sq_buf main_buf
    sq_buf_head sq_buf_tail sq_buf_cen sq_buf_edge main_buf_head
    main_buf_tail main_buf_cen main_buf_edge leadin_buf leadin_buf_end
    leadin_buf_edge set_in_file set_out_file set_track_dir set_cuts_file
    set_stderr_warnings set_in_eof set_frames_remaining set_cut_context
    set_time_to_live set_frames_read_ttl set_frames_proc_ttl
    set_cur_frame_pos set_cur_track_num set_cur_track_start set_numchannels
    set_samplerate set_rms_window_len set_min_signal_len
    set_min_silence_len set_min_track_len set_leadin_buf_len set_frame_sz
    set_ra_frame_cnt set_alpha set_n_x_nf_sq set_x_sq_ttl set_hpf_rej
    set_hpf_rej_ttl set_hpf_out set_hpf_prev_out set_hpf_prev_rej
    set_sq_buf set_main_buf set_sq_buf_head set_sq_buf_tail set_sq_buf_cen
    set_sq_buf_edge set_main_buf_head set_main_buf_tail set_main_buf_cen
    set_main_buf_edge set_leadin_buf set_leadin_buf_end set_leadin_buf_edge
    task cut_point_action min_silence_period min_signal_period
    noise_floor_dbfs min_track_length start_frame_idx end_frame_idx
    track_num_start track_num_end dc_offset high_pass_filter_enabled
    fst snd].

Ltac state_eval_in H :=
  cbv beta iota zeta delta [
    in_file out_file track_dir cuts_file stderr_warnings in_eof
    frames_remaining cut_context time_to_live frames_read_ttl
    frames_proc_ttl cur_frame_pos cur_track_num cur_track_start numchannels
    samplerate rms_window_len min_signal_len min_silence_len min_track_len
    leadin_buf_len frame_sz ra_frame_cnt alpha n_x_nf_sq x_sq_ttl hpf_rej
    hpf_rej_ttl hpf_out hpf_prev_out hpf_prev_rej sq_buf main_buf
    sq_buf_head sq_buf_tail sq_buf_cen sq_buf_edge main_buf_head
    main_buf_tail main_buf_cen main_buf_edge leadin_buf leadin_buf_end
    leadin_buf_edge set_in_file set_out_file set_track_dir set_cuts_file
    set_stderr_warnings set_in_eof set_frames_remaining set_cut_context
    set_time_to_live set_frames_read_ttl set_frames_proc_ttl
    set_cur_frame_pos set_cur_track_num set_cur_track_start set_numchannels
    set_samplerate set_rms_window_len set_min_signal_len
    set_min_silence_len set_min_track_len set_leadin_buf_len set_frame_sz
    set_ra_frame_cnt set_alpha set_n_x_nf_sq set_x_sq_ttl set_hpf_rej
    set_hpf_rej_ttl set_hpf_out set_hpf_prev_out set_hpf_prev_rej
    set_sq_buf set_main_buf set_sq_buf_head set_sq_buf_tail set_sq_buf_cen
    set_sq_buf_edge set_main_buf_head set_main_buf_tail set_main_buf_cen
    set_main_buf_edge set_leadin_buf set_leadin_buf_end set_leadin_buf_edge
    task cut_point_action min_silence_period min_signal_period
    noise_floor_dbfs min_track_length start_frame_idx end_frame_idx
    track_num_start track_num_end dc_offset high_pass_filter_enabled
    fst snd] in H.

(** The same, through the state machine and the sinks. *)
Ltac machine_eval_in H :=
  cbv beta iota zeta delta [
    in_file out_file track_dir cuts_file stderr_warnings in_eof
    frames_remaining cut_context time_to_live frames_read_ttl
    frames_proc_ttl cur_frame_pos cur_track_num cur_track_start numchannels
    samplerate rms_window_len min_signal_len min_silence_len min_track_len
    leadin_buf_len frame_sz ra_frame_cnt alpha n_x_nf_sq x_sq_ttl hpf_rej
    hpf_rej_ttl hpf_out hpf_prev_out hpf_prev_rej sq_buf main_buf
    sq_buf_head sq_buf_tail sq_buf_cen sq_buf_edge main_buf_head
    main_buf_tail main_buf_cen main_buf_edge leadin_buf leadin_buf_end
    leadin_buf_edge set_in_file set_out_file set_track_dir set_cuts_file
    set_stderr_warnings set_in_eof set_frames_remaining set_cut_context
    set_time_to_live set_frames_read_ttl set_frames_proc_ttl
    set_cur_frame_pos set_cur_track_num set_cur_track_start set_numchannels
    set_samplerate set_rms_window_len set_min_signal_len
    set_min_silence_len set_min_track_len set_leadin_buf_len set_frame_sz
    set_ra_frame_cnt set_alpha set_n_x_nf_sq set_x_sq_ttl set_hpf_rej
    set_hpf_rej_ttl set_hpf_out set_hpf_prev_out set_hpf_prev_rej
    set_sq_buf set_main_buf set_sq_buf_head set_sq_buf_tail set_sq_buf_cen
    set_sq_buf_edge set_main_buf_head set_main_buf_tail set_main_buf_cen
    set_main_buf_edge set_leadin_buf set_leadin_buf_end set_leadin_buf_edge
    update_context commit_current_frame create_new_out_file
    leadin_buf_commit leadin_buf_purge leadin_buf_add force_end_of_track
    close_out_file print_track_cut sf_writef_double mbind option_bind
    task cut_point_action min_silence_period min_signal_period
    noise_floor_dbfs min_track_length start_frame_idx end_frame_idx
    track_num_start track_num_end dc_offset high_pass_filter_enabled
    fst snd] in H.

Ltac machine_eval :=
  cbv beta iota zeta delta [
    in_file out_file track_dir cuts_file stderr_warnings in_eof
    frames_remaining cut_context time_to_live frames_read_ttl
    frames_proc_ttl cur_frame_pos cur_track_num cur_track_start numchannels
    samplerate rms_window_len min_signal_len min_silence_len min_track_len
    leadin_buf_len frame_sz ra_frame_cnt alpha n_x_nf_sq x_sq_ttl hpf_rej
    hpf_rej_ttl hpf_out hpf_prev_out hpf_prev_rej sq_buf main_buf
    sq_buf_head sq_buf_tail sq_buf_cen sq_buf_edge main_buf_head
    main_buf_tail main_buf_cen main_buf_edge leadin_buf leadin_buf_end
    leadin_buf_edge set_in_file set_out_file set_track_dir set_cuts_file
    set_stderr_warnings set_in_eof set_frames_remaining set_cut_context
    set_time_to_live set_frames_read_ttl set_frames_proc_ttl
    set_cur_frame_pos set_cur_track_num set_cur_track_start set_numchannels
    set_samplerate set_rms_window_len set_min_signal_len
    set_min_silence_len set_min_track_len set_leadin_buf_len set_frame_sz
    set_ra_frame_cnt set_alpha set_n_x_nf_sq set_x_sq_ttl set_hpf_rej
    set_hpf_rej_ttl set_hpf_out set_hpf_prev_out set_hpf_prev_rej
    set_sq_buf set_main_buf set_sq_buf_head set_sq_buf_tail set_sq_buf_cen
    set_sq_buf_edge set_main_buf_head set_main_buf_tail set_main_buf_cen
    set_main_buf_edge set_leadin_buf set_leadin_buf_end set_leadin_buf_edge
    update_context commit_current_frame create_new_out_file
    leadin_buf_commit leadin_buf_purge leadin_buf_add force_end_of_track
    close_out_file print_track_cut sf_writef_double mbind option_bind
    task cut_point_action min_silence_period min_signal_period
    noise_floor_dbfs min_track_length start_frame_idx end_frame_idx
    track_num_start track_num_end dc_offset high_pass_filter_enabled
    fst snd].

(** The same, through the blocks of [init_state]. *)
Ltac init_eval :=
  cbv beta iota zeta delta [
    in_file out_file track_dir cuts_file stderr_warnings in_eof
    frames_remaining cut_context time_to_live frames_read_ttl
    frames_proc_ttl cur_frame_pos cur_track_num cur_track_start numchannels
    samplerate rms_window_len min_signal_len min_silence_len min_track_len
    leadin_buf_len frame_sz ra_frame_cnt alpha n_x_nf_sq x_sq_ttl hpf_rej
    hpf_rej_ttl hpf_out hpf_prev_out hpf_prev_rej sq_buf main_buf
    sq_buf_head sq_buf_tail sq_buf_cen sq_buf_edge main_buf_head
    main_buf_tail main_buf_cen main_buf_edge leadin_buf leadin_buf_end
    leadin_buf_edge set_in_file set_out_file set_track_dir set_cuts_file
    set_stderr_warnings set_in_eof set_frames_remaining set_cut_context
    set_time_to_live set_frames_read_ttl set_frames_proc_ttl
    set_cur_frame_pos set_cur_track_num set_cur_track_start set_numchannels
    set_samplerate set_rms_window_len set_min_signal_len
    set_min_silence_len set_min_track_len set_leadin_buf_len set_frame_sz
    set_ra_frame_cnt set_alpha set_n_x_nf_sq set_x_sq_ttl set_hpf_rej
    set_hpf_rej_ttl set_hpf_out set_hpf_prev_out set_hpf_prev_rej
    set_sq_buf set_main_buf set_sq_buf_head set_sq_buf_tail set_sq_buf_cen
    set_sq_buf_edge set_main_buf_head set_main_buf_tail set_main_buf_cen
    set_main_buf_edge set_leadin_buf set_leadin_buf_end set_leadin_buf_edge
    init_buffers init_read init_cursors init_cutting zero_state
    task cut_point_action min_silence_period min_signal_period
    noise_floor_dbfs min_track_length start_frame_idx end_frame_idx
    track_num_start track_num_end dc_offset high_pass_filter_enabled
    fst snd].

Ltac init_eval_in H :=
  cbv beta iota zeta delta [
    in_file out_file track_dir cuts_file stderr_warnings in_eof
    frames_remaining cut_context time_to_live frames_read_ttl
    frames_proc_ttl cur_frame_pos cur_track_num cur_track_start numchannels
    samplerate rms_window_len min_signal_len min_silence_len min_track_len
    leadin_buf_len frame_sz ra_frame_cnt alpha n_x_nf_sq x_sq_ttl hpf_rej
    hpf_rej_ttl hpf_out hpf_prev_out hpf_prev_rej sq_buf main_buf
    sq_buf_head sq_buf_tail sq_buf_cen sq_buf_edge main_buf_head
    main_buf_tail main_buf_cen main_buf_edge leadin_buf leadin_buf_end
    leadin_buf_edge set_in_file set_out_file set_track_dir set_cuts_file
    set_stderr_warnings set_in_eof set_frames_remaining set_cut_context
    set_time_to_live set_frames_read_ttl set_frames_proc_ttl
    set_cur_frame_pos set_cur_track_num set_cur_track_start set_numchannels
    set_samplerate set_rms_window_len set_min_signal_len
    set_min_silence_len set_min_track_len set_leadin_buf_len set_frame_sz
    set_ra_frame_cnt set_alpha set_n_x_nf_sq set_x_sq_ttl set_hpf_rej
    set_hpf_rej_ttl set_hpf_out set_hpf_prev_out set_hpf_prev_rej
    set_sq_buf set_main_buf set_sq_buf_head set_sq_buf_tail set_sq_buf_cen
    set_sq_buf_edge set_main_buf_head set_main_buf_tail set_main_buf_cen
    set_main_buf_edge set_leadin_buf set_leadin_buf_end set_leadin_buf_edge
    init_buffers init_read init_cursors init_cutting zero_state
    task cut_point_action min_silence_period min_signal_period
    noise_floor_dbfs min_track_length start_frame_idx end_frame_idx
    track_num_start track_num_end dc_offset high_pass_filter_enabled
    fst snd] in H.

(** A record is taken apart with its fields under their own names. *)
Ltac split_options o :=
  destruct o as
    [otask ocpa min_silence_period min_signal_period noise_floor_dbfs
     min_track_length start_frame_idx end_frame_idx track_num_start
     track_num_end dc_offset ohp].

Ltac split_facts H :=
  destruct H as
    [if_numchannels if_samplerate if_window if_frame_sz if_ra
     if_main_edge if_sq_edge if_min_signal if_min_silence if_min_track
     if_threshold if_leadin_edge if_context if_track_num if_leadin_end
     if_leadin_buf if_warnings if_out_file if_track_dir if_cuts_file
     if_in_eof if_remaining if_pos if_read if_in_file if_main_tail
     if_sq_tail if_main_cen if_sq_cen if_main_head if_sq_head
     if_main_len if_sq_len if_x_len].

Ltac split_state st :=
  destruct st as
    [in_file out_file track_dir cuts_file stderr_warnings in_eof
     frames_remaining cut_context time_to_live frames_read_ttl
     frames_proc_ttl cur_frame_pos cur_track_num cur_track_start
     numchannels samplerate rms_window_len min_signal_len
     min_silence_len min_track_len leadin_buf_len frame_sz ra_frame_cnt
     alpha n_x_nf_sq x_sq_ttl hpf_rej hpf_rej_ttl hpf_out hpf_prev_out
     hpf_prev_rej sq_buf main_buf sq_buf_head sq_buf_tail sq_buf_cen
     sq_buf_edge main_buf_head main_buf_tail main_buf_cen main_buf_edge
     leadin_buf leadin_buf_end leadin_buf_edge].

Ltac case_matches :=
  repeat match goal with
         | H : Some _ = Some _ |- _ => injection H as <-
         | H : None = Some _ |- _ => discriminate H
         | H : context [match ?x with _ => _ end] |- _ =>
             lazymatch x with
             | context [match _ with _ => _ end] => fail
             | _ => destruct x eqn:?; try discriminate H
             end
         | |- context [match ?x with _ => _ end] =>
             lazymatch x with
             | context [match _ with _ => _ end] => fail
             | _ => destruct x eqn:?
             end
         end.

Ltac unfold_machine H :=
  unfold update_context, commit_current_frame, create_new_out_file,
    leadin_buf_commit, leadin_buf_purge, leadin_buf_add, force_end_of_track,
    close_out_file, print_track_cut, sf_writef_double in H.

Ltac source_eval :=
  cbv beta iota zeta delta [fetch_input advance_buf_ptrs]; state_eval.

Ltac case_ltb :=
  repeat match goal with
         | |- context [?a <? ?b] => destruct (Z.ltb_spec a b)
         | |- context [?a <=? ?b] => destruct (Z.leb_spec a b)
         end.

Ltac ltb_props :=
  repeat match goal with
         | H : (_ <? _) = true |- _ => apply Z.ltb_lt in H
         | H : (_ <? _) = false |- _ => apply Z.ltb_ge in H
         | H : (_ <=? _) = true |- _ => apply Z.leb_le in H
         | H : (_ <=? _) = false |- _ => apply Z.leb_gt in H
         | H : (_ && _) = true |- _ => apply andb_true_iff in H as [? ?]
         end.

Ltac filter_eval :=
  cbv beta iota zeta delta [
    filter_channel
    in_file out_file track_dir cuts_file stderr_warnings in_eof
    frames_remaining cut_context time_to_live frames_read_ttl
    frames_proc_ttl cur_frame_pos cur_track_num cur_track_start numchannels
    samplerate rms_window_len min_signal_len min_silence_len min_track_len
    leadin_buf_len frame_sz ra_frame_cnt alpha n_x_nf_sq x_sq_ttl hpf_rej
    hpf_rej_ttl hpf_out hpf_prev_out hpf_prev_rej sq_buf main_buf
    sq_buf_head sq_buf_tail sq_buf_cen sq_buf_edge main_buf_head
    main_buf_tail main_buf_cen main_buf_edge leadin_buf leadin_buf_end
    leadin_buf_edge set_in_file set_out_file set_track_dir set_cuts_file
    set_stderr_warnings set_in_eof set_frames_remaining set_cut_context
    set_time_to_live set_frames_read_ttl set_frames_proc_ttl
    set_cur_frame_pos set_cur_track_num set_cur_track_start set_numchannels
    set_samplerate set_rms_window_len set_min_signal_len
    set_min_silence_len set_min_track_len set_leadin_buf_len set_frame_sz
    set_ra_frame_cnt set_alpha set_n_x_nf_sq set_x_sq_ttl set_hpf_rej
    set_hpf_rej_ttl set_hpf_out set_hpf_prev_out set_hpf_prev_rej
    set_sq_buf set_main_buf set_sq_buf_head set_sq_buf_tail set_sq_buf_cen
    set_sq_buf_edge set_main_buf_head set_main_buf_tail set_main_buf_cen
    set_main_buf_edge set_leadin_buf set_leadin_buf_end set_leadin_buf_edge
    task cut_point_action min_silence_period min_signal_period
    noise_floor_dbfs min_track_length start_frame_idx end_frame_idx
    track_num_start track_num_end dc_offset high_pass_filter_enabled
    fst snd].

Ltac split_state' st :=
  destruct st as
    [in_file' out_file' track_dir' cuts_file' stderr_warnings' in_eof'
     frames_remaining' cut_context' time_to_live' frames_read_ttl'
     frames_proc_ttl' cur_frame_pos' cur_track_num' cur_track_start'
     numchannels' samplerate' rms_window_len' min_signal_len'
     min_silence_len' min_track_len' leadin_buf_len' frame_sz' ra_frame_cnt'
     alpha' n_x_nf_sq' x_sq_ttl' hpf_rej' hpf_rej_ttl' hpf_out' hpf_prev_out'
     hpf_prev_rej' sq_buf' main_buf' sq_buf_head' sq_buf_tail' sq_buf_cen'
     sq_buf_edge' main_buf_head' main_buf_tail' main_buf_cen' main_buf_edge'
     leadin_buf' leadin_buf_end' leadin_buf_edge'].

(** ** Facts *)

Section MemoryFacts.
Context {D : DoubleOps}.

Lemma length_store (buf : list double) p v : length (store buf p v) = length buf.
Proof. unfold store. destruct (p <? 0); [reflexivity | apply length_insert]. Qed.

Lemma load_store_eq (buf : list double) p v :
  0 <= p < Z.of_nat (length buf) -> load (store buf p v) p = v.
Proof.
  intros Hp. unfold load, store.
  destruct (Z.ltb_spec p 0); [lia |].
  rewrite nth_lookup, list_lookup_insert_eq by lia. reflexivity.
Qed.

Lemma load_store_ne (buf : list double) p q v :
  p <> q -> load (store buf p v) q = load buf q.
Proof.
  intros Hne. unfold load, store.
  destruct (Z.ltb_spec q 0); [reflexivity |].
  destruct (Z.ltb_spec p 0); [reflexivity |].
  rewrite !nth_lookup, list_lookup_insert_ne by lia. reflexivity.
Qed.

Lemma store_load_id (buf : list double) p : store buf p (load buf p) = buf.
Proof.
  unfold load, store. destruct (p <? 0); [reflexivity |].
  destruct (decide (Z.to_nat p < length buf)%nat) as [Hlt | Hge].
  - apply list_insert_id. rewrite nth_lookup.
    destruct (lookup_lt_is_Some_2 buf _ Hlt) as [x Hx]. rewrite Hx. reflexivity.
  - apply list_insert_ge. lia.
Qed.

End MemoryFacts.

Section FrameFacts.
Context {D : DoubleOps}.

Lemma length_store_frame (fr buf : list double) p :
  length (store_frame buf p fr) = length buf.
Proof.
  revert buf p. induction fr as [| x fr IH]; intros buf p; simpl; [reflexivity |].
  rewrite IH. apply length_store.
Qed.

Lemma load_store_frame_out (fr buf : list double) p q :
  q < p \/ p + Z.of_nat (length fr) <= q ->
  load (store_frame buf p fr) q = load buf q.
Proof.
  revert buf p. induction fr as [| x fr IH]; intros buf p Hq; simpl; [reflexivity |].
  rewrite IH by (simpl in Hq; lia). apply load_store_ne. simpl in Hq. lia.
Qed.

Lemma load_store_frame_in (fr buf : list double) p i :
  0 <= p -> p + Z.of_nat (length fr) <= Z.of_nat (length buf) ->
  (i < length fr)%nat ->
  load (store_frame buf p fr) (p + Z.of_nat i) = nth i fr dzero.
Proof.
  revert buf p i. induction fr as [| x fr IH]; intros buf p i Hp Hlen Hi; simpl in *; [lia |].
  destruct i as [| i].
  - rewrite load_store_frame_out by lia. rewrite Z.add_0_r.
    apply load_store_eq. lia.
  - replace (p + Z.of_nat (S i)) with (p + 1 + Z.of_nat i) by lia.
    apply IH; rewrite ?length_store; lia.
Qed.

Lemma length_load_frame (buf : list double) p n :
  length (load_frame buf p n) = Z.to_nat n.
Proof. unfold load_frame. rewrite length_fmap, length_seqZ. reflexivity. Qed.

Lemma load_frame_lookup (buf : list double) p n (i : nat) :
  (i < Z.to_nat n)%nat ->
  load_frame buf p n !! i = Some (load buf (p + Z.of_nat i)).
Proof.
  intros Hi. unfold load_frame. rewrite list_lookup_fmap.
  rewrite lookup_seqZ_lt by lia. simpl. f_equal.
Qed.

Lemma load_frame_ext (b1 b2 : list double) p n :
  (forall i, 0 <= i < n -> load b1 (p + i) = load b2 (p + i)) ->
  load_frame b1 p n = load_frame b2 p n.
Proof.
  intros H. unfold load_frame. apply list_fmap_ext.
  intros i x Hx. apply lookup_seqZ in Hx as [-> Hi]. apply H. lia.
Qed.

Lemma load_store_frame (fr buf : list double) p :
  0 <= p -> p + Z.of_nat (length fr) <= Z.of_nat (length buf) ->
  load_frame (store_frame buf p fr) p (Z.of_nat (length fr)) = fr.
Proof.
  intros Hp Hlen. apply list_eq. intros i.
  destruct (decide (i < length fr)%nat) as [Hi | Hi].
  - rewrite load_frame_lookup by lia.
    rewrite load_store_frame_in by assumption.
    destruct (lookup_lt_is_Some_2 fr i Hi) as [x Hx].
    rewrite Hx. f_equal. rewrite nth_lookup, Hx. reflexivity.
  - rewrite !lookup_ge_None_2; [reflexivity | lia |].
    rewrite length_load_frame. lia.
Qed.

Lemma load_frame_store_frame_out (fr buf : list double) p q n :
  q + n <= p \/ p + Z.of_nat (length fr) <= q ->
  load_frame (store_frame buf p fr) q n = load_frame buf q n.
Proof.
  intros H. apply load_frame_ext. intros i Hi.
  apply load_store_frame_out. lia.
Qed.

Lemma length_memset0 (buf : list double) p n :
  length (memset0 buf p n) = length buf.
Proof. apply length_store_frame. Qed.

End FrameFacts.

Section Frames.
Context {D : DoubleOps}.

Lemma fold_left_inv {A B} (P : A -> Prop) (f : A -> B -> A) l a :
  P a -> (forall a b, P a -> P (f a b)) -> P (fold_left f l a).
Proof. revert a. induction l; simpl; auto. Qed.

Lemma filter_channel_params o st c : params (filter_channel o st c) = params st.
Proof. destruct o as [? ? ? ? ? ? ? ? ? ? ? hp]; destruct hp; reflexivity. Qed.

Lemma filter_channel_machine o st c : machine (filter_channel o st c) = machine st.
Proof. destruct o as [? ? ? ? ? ? ? ? ? ? ? hp]; destruct hp; reflexivity. Qed.

Lemma filter_new_frame_params o st : params (filter_new_frame o st) = params st.
Proof.
  unfold filter_new_frame.
  change (params (set_frames_proc_ttl ?v ?s)) with (params s).
  apply (fold_left_inv (fun s => params s = params st)); [reflexivity |].
  intros a b Ha. rewrite filter_channel_params. exact Ha.
Qed.

Lemma filter_new_frame_machine o st : machine (filter_new_frame o st) = machine st.
Proof.
  unfold filter_new_frame.
  change (machine (set_frames_proc_ttl ?v ?s)) with (machine s).
  apply (fold_left_inv (fun s => machine s = machine st)); [reflexivity |].
  intros a b Ha. rewrite filter_channel_machine. exact Ha.
Qed.

Lemma advance_buf_ptrs_params st : params (advance_buf_ptrs st) = params st.
Proof.
  unfold advance_buf_ptrs.
  repeat match goal with |- context [if ?b then _ else _] => destruct b end;
    reflexivity.
Qed.

Lemma advance_buf_ptrs_machine st : machine (advance_buf_ptrs st) = machine st.
Proof.
  unfold advance_buf_ptrs.
  repeat match goal with |- context [if ?b then _ else _] => destruct b end;
    reflexivity.
Qed.

Lemma fetch_input_params st : params (snd (fetch_input st)) = params st.
Proof.
  unfold fetch_input.
  repeat match goal with
         | |- context [if ?b then _ else _] => destruct b
         | |- context [match in_file ?s with _ => _ end] => destruct (in_file s)
         end; reflexivity.
Qed.

Lemma fetch_input_machine st : machine (snd (fetch_input st)) = machine st.
Proof.
  unfold fetch_input.
  repeat match goal with
         | |- context [if ?b then _ else _] => destruct b
         | |- context [match in_file ?s with _ => _ end] => destruct (in_file s)
         end; reflexivity.
Qed.

Lemma fetch_next_frame_params o st : params (snd (fetch_next_frame o st)) = params st.
Proof.
  unfold fetch_next_frame. pose proof (fetch_input_params st) as H.
  destruct (fetch_input st) as [eof st1]. simpl in *.
  rewrite filter_new_frame_params, advance_buf_ptrs_params. exact H.
Qed.

Lemma fetch_next_frame_machine o st : machine (snd (fetch_next_frame o st)) = machine st.
Proof.
  unfold fetch_next_frame. pose proof (fetch_input_machine st) as H.
  destruct (fetch_input st) as [eof st1]. simpl in *.
  rewrite filter_new_frame_machine, advance_buf_ptrs_machine. exact H.
Qed.

Lemma update_context_keeps o st st' :
  update_context o st = Some st' ->
  source st' = source st /\ params st' = params st.
Proof.
  intros H. split_options o.
  destruct ocpa; split_state st; unfold_machine H; cbn in H;
    case_matches; cbn in *; case_matches; split; reflexivity.
Qed.

End Frames.

Section Loop.
Context {D : DoubleOps}.

Lemma filter_channel_cursors o st c : cursors (filter_channel o st c) = cursors st.
Proof. split_options o; destruct ohp; reflexivity. Qed.

Lemma filter_channel_lengths o st c :
  buf_lengths (filter_channel o st c) = buf_lengths st.
Proof.
  split_options o. unfold buf_lengths.
  destruct ohp; split_state st; cbn; rewrite !length_store; reflexivity.
Qed.

Lemma filter_new_frame_cursors o st : cursors (filter_new_frame o st) = cursors st.
Proof.
  unfold filter_new_frame.
  change (cursors (set_frames_proc_ttl ?v ?s)) with (cursors s).
  apply (fold_left_inv (fun s => cursors s = cursors st)); [reflexivity |].
  intros a b Ha. rewrite filter_channel_cursors. exact Ha.
Qed.

Lemma filter_new_frame_lengths o st :
  buf_lengths (filter_new_frame o st) = buf_lengths st.
Proof.
  unfold filter_new_frame.
  change (buf_lengths (set_frames_proc_ttl ?v ?s)) with (buf_lengths s).
  apply (fold_left_inv (fun s => buf_lengths s = buf_lengths st)); [reflexivity |].
  intros a b Ha. rewrite filter_channel_lengths. exact Ha.
Qed.

(** One turn of the loop, taken apart. *)
Lemma loop_body_inv o st more st' :
  loop_body o st = Some (more, st') ->
  exists s1 b,
    update_context o st = Some s1 /\ fetch_next_frame o s1 = (b, st') /\
    more = b && (cur_track_num st' <=? track_num_end o).
Proof.
  unfold loop_body. destruct (update_context o st) as [s1 |]; [| discriminate].
  simpl. destruct (fetch_next_frame o s1) as [b s2] eqn:E.
  intros [= <- <-]. exists s1, b. repeat split; [exact E].
Qed.

Lemma loop_reach_params o st0 st : loop_reach o st0 st -> params st = params st0.
Proof.
  induction 1 as [| st st' _ IH Hb]; [reflexivity |].
  apply loop_body_inv in Hb as (s1 & b & Hu & Hf & _).
  apply update_context_keeps in Hu as [_ Hu].
  pose proof (fetch_next_frame_params o s1) as Hp. rewrite Hf in Hp.
  simpl in Hp. congruence.
Qed.

Lemma ticks_reach n : forall o st0 st, ticks n o st0 = Some st -> loop_reach o st0 st.
Proof.
  induction n as [| n IH]; intros o st0 st; simpl.
  - intros [= <-]. constructor.
  - destruct (loop_body o st0) as [[[] s1] |] eqn:E; try discriminate.
    intros H. apply IH in H. clear IH.
    induction H as [| a b _ IHr Hb].
    + eapply reach_step; [constructor | exact E].
    + eapply reach_step; [exact IHr | exact Hb].
Qed.

Lemma cutter_iterate_reach fuel : forall o st0 st',
  cutter_iterate fuel o st0 = Finished st' ->
  exists st, loop_reach o st0 st /\ loop_body o st = Some (false, st').
Proof.
  induction fuel as [| fuel IH]; intros o st0 st'; simpl; [discriminate |].
  destruct (loop_body o st0) as [[[] s1] |] eqn:E; try discriminate.
  - intros H. apply IH in H as (st & Hr & Hb). exists st. split; [| exact Hb].
    clear IH Hb. induction Hr as [| a b _ IHr Hb'].
    + eapply reach_step; [constructor | exact E].
    + eapply reach_step; [exact IHr | exact Hb'].
  - intros [= <-]. exists st0. split; [constructor | exact E].
Qed.

End Loop.

Section Init.
Context {D : DoubleOps}.

Lemma cursors_prime_kept a b : cursors a = cursors b -> prime_kept a = prime_kept b.
Proof.
  destruct a, b. unfold cursors, prime_kept. cbn. intros [= ]. subst. reflexivity.
Qed.

Lemma prime_step_keeps o st :
  params (prime_step o st) = params st /\
  machine (prime_step o st) = machine st /\
  prime_kept (prime_step o st) = prime_kept st /\
  buf_lengths (prime_step o st) = buf_lengths st.
Proof.
  unfold prime_step.
  change (params (set_sq_buf_head ?a (set_main_buf_head ?b ?s))) with (params s).
  change (machine (set_sq_buf_head ?a (set_main_buf_head ?b ?s))) with (machine s).
  change (buf_lengths (set_sq_buf_head ?a (set_main_buf_head ?b ?s)))
    with (buf_lengths s).
  change (prime_kept (set_sq_buf_head ?a (set_main_buf_head ?b ?s)))
    with (prime_kept s).
  rewrite filter_new_frame_params, filter_new_frame_machine,
    filter_new_frame_lengths.
  repeat split.
  apply cursors_prime_kept, filter_new_frame_cursors.
Qed.

Lemma prime_filter_keeps fuel o : forall st,
  params (prime_filter fuel o st) = params st /\
  machine (prime_filter fuel o st) = machine st /\
  prime_kept (prime_filter fuel o st) = prime_kept st /\
  buf_lengths (prime_filter fuel o st) = buf_lengths st.
Proof.
  induction fuel as [| fuel IH]; intros st; simpl; [repeat split |].
  destruct (main_buf_head st <? main_buf_edge st); [| repeat split].
  destruct (IH (prime_step o st)) as (H1 & H2 & H3 & H4).
  destruct (prime_step_keeps o st) as (G1 & G2 & G3 & G4).
  rewrite H1, H2, H3, H4. auto.
Qed.

Lemma open_input_file_spec o f s1 :
  open_input_file o f (set_cur_track_num 1 zero_state) = Some s1 ->
  s1 = opened o f.
Proof.
  split_options o.
  cbv beta iota zeta delta [open_input_file mbind option_bind opened zero_state].
  state_eval.
  destruct (Z.ltb_spec 0 start_frame_idx) as [Hs | Hs].
  - destruct (_ <? _); [discriminate |]. intros [= <-]. reflexivity.
  - intros [= <-]. replace (Z.to_nat start_frame_idx) with O by lia.
    reflexivity.
Qed.

Lemma finish_view o a b :
  params a = params b -> machine a = machine b ->
  prime_kept a = prime_kept b ->
  init_view (init_cutting o (init_cursors a))
  = init_view (init_cutting o (init_cursors b)).
Proof.
  split_options o. destruct ocpa, a, b;
    unfold init_view, params, machine, prime_kept; init_eval;
    intros [= ] [= ] [= ]; subst; reflexivity.
Qed.

Lemma finish_lengths o a :
  buf_lengths (init_cutting o (init_cursors a)) = buf_lengths a.
Proof. split_options o. destruct ocpa; reflexivity. Qed.

Lemma init_view_closed o f :
  init_view (init_cutting o (init_cursors (init_read (init_buffers (opened o f)))))
  = ((sf_channels f, sf_samplerate f, window_of f,
      sf_samplerate f * min_signal_period o ÷ 1000,
      sf_samplerate f * min_silence_period o ÷ 1000,
      sf_samplerate f * min_track_length o,
      match cut_point_action o with
      | CPA_EXTRACT_TRACK => sf_samplerate f * min_signal_period o ÷ 1000
      | CPA_LOG_POINT => 0
      end,
      sizeof_double * sf_channels f,
      read_ahead_of f,
      ddiv HIGH_PASS_TAU
        (dadd HIGH_PASS_TAU (ddiv (d_of_Z 1) (d_of_Z (sf_samplerate f)))),
      noise_threshold (noise_floor_dbfs o) (window_of f),
      window_of f * sf_channels f, window_of f * sf_channels f,
      match cut_point_action o with
      | CPA_EXTRACT_TRACK =>
          sf_channels f * (sf_samplerate f * min_signal_period o ÷ 1000)
      | CPA_LOG_POINT => 0
      end),
     (CCTX_SILENCE, 0, 0, 1,
      match cut_point_action o with
      | CPA_EXTRACT_TRACK =>
          calloc (sf_channels f * (sf_samplerate f * min_signal_period o ÷ 1000))
            sizeof_double
      | CPA_LOG_POINT => []
      end, 0, O, None, [], []),
     (drop (Z.to_nat (read_ahead_of f))
        (drop (Z.to_nat (start_frame_idx o)) (sf_frames f)),
      false, end_frame_idx o - start_frame_idx o, read_ahead_of f,
      start_frame_idx o, 0, window_of f ÷ 2 * sf_channels f, 0,
      window_of f ÷ 2 * sf_channels f),
     (window_of f * sf_channels f - sf_channels f,
      window_of f * sf_channels f - sf_channels f)).
Proof. split_options o. destruct ocpa; reflexivity. Qed.

Lemma length_store_frames frs : forall (buf : list double) p n,
  length (store_frames buf p n frs) = length buf.
Proof.
  induction frs as [| fr frs IH]; intros buf p n; simpl; [reflexivity |].
  rewrite IH. apply length_store_frame.
Qed.

Lemma init_read_lengths o f :
  buf_lengths (init_read (init_buffers (opened o f)))
  = (Z.to_nat (window_of f * (sizeof_double * sf_channels f) ÷ sizeof_double),
     Z.to_nat (window_of f * (sizeof_double * sf_channels f) ÷ sizeof_double),
     8%nat).
Proof.
  unfold buf_lengths.
  change (main_buf (init_read (init_buffers (opened o f))))
    with (store_frames (calloc (window_of f) (sizeof_double * sf_channels f))
            (window_of f ÷ 2 * sf_channels f) (sf_channels f)
            (take (Z.to_nat (read_ahead_of f))
               (drop (Z.to_nat (start_frame_idx o)) (sf_frames f)))).
  change (sq_buf (init_read (init_buffers (opened o f))))
    with (calloc (window_of f) (sizeof_double * sf_channels f)).
  rewrite length_store_frames. unfold calloc. rewrite !length_replicate.
  reflexivity.
Qed.

Lemma init_state_reads o f st0 :
  init_state o f = Some st0 ->
  st0 = init_cutting o
          (init_cursors (init_prime o (init_read (init_buffers (opened o f))))).
Proof.
  unfold init_state. intros H.
  destruct (open_input_file o f _) as [s1 |] eqn:E; [| discriminate].
  apply open_input_file_spec in E. subst s1. injection H as <-. reflexivity.
Qed.

Lemma init_prime_keeps o st :
  params (init_prime o st) = params st /\
  machine (init_prime o st) = machine st /\
  prime_kept (init_prime o st) = prime_kept st /\
  buf_lengths (init_prime o st) = buf_lengths st.
Proof. apply prime_filter_keeps. Qed.

Lemma init_state_facts o f st0 : init_state o f = Some st0 -> init_facts o f st0.
Proof.
  intros H. apply init_state_reads in H.
  destruct (init_prime_keeps o (init_read (init_buffers (opened o f))))
    as (P1 & P2 & P3 & P4).
  pose proof (finish_view o _ _ P1 P2 P3) as Hv.
  rewrite init_view_closed, <- H in Hv.
  pose proof (finish_lengths o (init_prime o (init_read (init_buffers (opened o f)))))
    as Hl.
  rewrite P4, init_read_lengths, <- H in Hl. clear H P1 P2 P3 P4.
  unfold init_view, params, machine, prime_kept in Hv. unfold buf_lengths in Hl.
  injection Hv; intros. injection Hl; intros.
  split; assumption.
Qed.

End Init.

Section Source.
Context {D : DoubleOps}.

(** The four ways through [fetch_input]. *)
Lemma fetch_input_read st fr rest :
  in_eof st = false -> 0 < frames_remaining st -> in_file st = fr :: rest ->
  fetch_input st =
  (false,
   set_frames_read_ttl (frames_read_ttl st + 1)
     (set_main_buf
        (store_frame (main_buf st) (main_buf_tail st)
           (take (Z.to_nat (numchannels st)) fr))
        (set_in_file rest
           (set_frames_remaining (frames_remaining st - 1) st)))).
Proof.
  split_state st. state_eval. intros -> Hr ->. source_eval.
  destruct (Z.ltb_spec 0 frames_remaining); [reflexivity | lia].
Qed.

Lemma fetch_input_eof st :
  in_eof st = false -> 0 < frames_remaining st -> in_file st = [] ->
  fetch_input st =
  (false,
   set_main_buf (memset0 (main_buf st) (main_buf_tail st) (frame_sz st))
     (set_frames_remaining
        (Z.min (ra_frame_cnt st) (frames_remaining st - 1))
        (set_in_eof true st))).
Proof.
  split_state st. state_eval. intros -> Hr ->. source_eval.
  destruct (Z.ltb_spec 0 frames_remaining); [| lia]. simpl.
  destruct (Z.ltb_spec ra_frame_cnt (frames_remaining - 1)).
  - rewrite Z.min_l by lia. reflexivity.
  - rewrite Z.min_r by lia. reflexivity.
Qed.

Lemma fetch_input_pad st :
  in_eof st = true -> 0 < frames_remaining st ->
  fetch_input st =
  (false,
   set_frames_remaining (frames_remaining st - 1)
     (set_main_buf (memset0 (main_buf st) (main_buf_tail st) (frame_sz st))
        st)).
Proof.
  split_state st. state_eval. intros -> Hr. source_eval.
  destruct (Z.ltb_spec 0 frames_remaining); [reflexivity | lia].
Qed.

Lemma fetch_input_end st :
  frames_remaining st <= 0 ->
  fetch_input st =
  (true,
   set_main_buf (memset0 (main_buf st) (main_buf_tail st) (frame_sz st)) st).
Proof.
  split_state st. state_eval. intros Hr. source_eval.
  destruct (Z.ltb_spec 0 frames_remaining); [lia |].
  rewrite andb_false_r. reflexivity.
Qed.

Lemma advance_buf_ptrs_ptrs st :
  ptrs (advance_buf_ptrs st) =
  ((main_buf_tail st,
    advance_ptr (main_buf_edge st) (numchannels st) (main_buf_tail st),
    advance_ptr (main_buf_edge st) (numchannels st) (main_buf_cen st)),
   (sq_buf_tail st,
    advance_ptr (sq_buf_edge st) (numchannels st) (sq_buf_tail st),
    advance_ptr (sq_buf_edge st) (numchannels st) (sq_buf_cen st))).
Proof.
  reflexivity.
Qed.

Lemma advance_buf_ptrs_keeps st :
  untouched_by_advance (advance_buf_ptrs st) = untouched_by_advance st.
Proof.
  reflexivity.
Qed.

End Source.

Section Ring.
Context {D : DoubleOps}.

Lemma advance_ptr_slot W C x :
  1 <= C -> 0 <= x < W -> advance_ptr (W * C) C (x * C) = wrap W (x + 1) * C.
Proof.
  intros HC Hx. unfold advance_ptr, wrap.
  destruct (Z.leb_spec (W * C) (x * C + C)); destruct (Z.ltb_spec (x + 1) W);
    nia.
Qed.

Lemma wrap_range W x : 0 <= x < 2 * W -> 0 <= wrap W x < W.
Proof. unfold wrap. destruct (Z.ltb_spec x W); lia. Qed.

Lemma ring_advance t C W fsz me se ra mh mt mc sh st sc lm ls :
  ring_at t C W fsz me se ra (mh, mt, mc) (sh, st, sc) lm ls ->
  ring_at (wrap W (t + 1)) C W fsz me se ra
    (mt, advance_ptr me C mt, advance_ptr me C mc)
    (st, advance_ptr se C st, advance_ptr se C sc) lm ls.
Proof.
  intros (HC & HW & Hf & -> & -> & Hlm & Hls & Hra & Ht & [= -> -> ->] & [= -> -> ->]).
  assert (Hq : 0 <= W ÷ 2 < W) by (split; [apply Z.quot_pos; lia | apply Z.quot_lt; lia]).
  assert (Hc : 0 <= wrap W (t + W ÷ 2) < W) by (apply wrap_range; lia).
  rewrite !advance_ptr_slot by assumption.
  assert (E1 : wrap W (wrap W (t + 1) + W - 1) = t)
    by (unfold wrap; case_ltb; lia).
  assert (E2 : wrap W (wrap W (t + 1) + W ÷ 2) = wrap W (wrap W (t + W ÷ 2) + 1))
    by (unfold wrap; case_ltb; lia).
  unfold ring_at. rewrite E1, E2.
  repeat split; try assumption; try lia; apply wrap_range; lia.
Qed.

Lemma fetch_next_frame_unfold o st :
  fetch_next_frame o st =
  (negb (fst (fetch_input st)),
   filter_new_frame o
     (advance_buf_ptrs
        (set_cur_frame_pos (cur_frame_pos (snd (fetch_input st)) + 1)
           (snd (fetch_input st))))).
Proof. unfold fetch_next_frame. destruct (fetch_input st). reflexivity. Qed.

Lemma fetch_input_ptrs st : ptrs (snd (fetch_input st)) = ptrs st.
Proof.
  unfold fetch_input.
  repeat match goal with
         | |- context [if ?b then _ else _] => destruct b
         | |- context [match in_file ?s with _ => _ end] => destruct (in_file s)
         end; reflexivity.
Qed.

Lemma fetch_input_lengths st :
  buf_lengths (snd (fetch_input st)) = buf_lengths st.
Proof.
  unfold fetch_input, buf_lengths.
  repeat match goal with
         | |- context [if ?b then _ else _] => destruct b
         | |- context [match in_file ?s with _ => _ end] => destruct (in_file s)
         end; state_eval; rewrite ?length_memset0, ?length_store_frame; reflexivity.
Qed.

Lemma filter_new_frame_ptrs o st : ptrs (filter_new_frame o st) = ptrs st.
Proof.
  unfold filter_new_frame.
  change (ptrs (set_frames_proc_ttl ?v ?s)) with (ptrs s).
  apply (fold_left_inv (fun s => ptrs s = ptrs st)); [reflexivity |].
  intros a b Ha. rewrite <- Ha. split_options o. destruct ohp; reflexivity.
Qed.

Lemma fetch_next_frame_ptrs o st :
  ptrs (snd (fetch_next_frame o st)) =
  ((main_buf_tail st,
    advance_ptr (main_buf_edge st) (numchannels st) (main_buf_tail st),
    advance_ptr (main_buf_edge st) (numchannels st) (main_buf_cen st)),
   (sq_buf_tail st,
    advance_ptr (sq_buf_edge st) (numchannels st) (sq_buf_tail st),
    advance_ptr (sq_buf_edge st) (numchannels st) (sq_buf_cen st))).
Proof.
  rewrite fetch_next_frame_unfold. simpl snd.
  rewrite filter_new_frame_ptrs, advance_buf_ptrs_ptrs.
  pose proof (fetch_input_ptrs st) as Hp.
  pose proof (fetch_input_params st) as Ha.
  destruct (snd (fetch_input st)), st. unfold ptrs, params in *.
  state_eval. state_eval_in Hp. state_eval_in Ha.
  injection Hp as -> -> -> -> -> ->.
  injection Ha as -> _ _ _ _ _ _ _ _ _ _ -> -> _. reflexivity.
Qed.

Lemma fetch_next_frame_lengths o st :
  buf_lengths (snd (fetch_next_frame o st)) = buf_lengths st.
Proof.
  rewrite fetch_next_frame_unfold. simpl snd.
  rewrite filter_new_frame_lengths.
  transitivity (buf_lengths (snd (fetch_input st)));
    [reflexivity | apply fetch_input_lengths].
Qed.

Lemma ring_ok_fetch o st : ring_ok st -> ring_ok (snd (fetch_next_frame o st)).
Proof.
  unfold ring_ok.
  rewrite fetch_next_frame_params, fetch_next_frame_ptrs,
    fetch_next_frame_lengths.
  unfold ring_pred, params, ptrs, buf_lengths. intros H.
  pose proof H as (HC & HW & _ & _ & _ & _ & _ & _ & Ht & [= _ E _] & _).
  apply ring_advance in H. rewrite E in H at 1.
  rewrite Z.quot_mul in H by lia.
  replace (advance_ptr (main_buf_edge st) (numchannels st) (main_buf_tail st)
           ÷ numchannels st)
    with (wrap (rms_window_len st) ((main_buf_tail st ÷ numchannels st) + 1)); [exact H |].
  destruct H as (_ & _ & _ & _ & _ & _ & _ & _ & Ht' & [= _ -> _] & _).
  rewrite Z.quot_mul by lia. reflexivity.
Qed.

End Ring.

Section RingReach.
Context {D : DoubleOps}.

Lemma source_ptrs_lengths (a b : state_t) :
  source a = source b -> ptrs a = ptrs b /\ buf_lengths a = buf_lengths b.
Proof.
  destruct a, b. unfold source, ptrs, buf_lengths. state_eval.
  intros [= ]. subst. split; reflexivity.
Qed.

Lemma ring_ok_update o st st' :
  update_context o st = Some st' -> ring_ok st -> ring_ok st'.
Proof.
  intros H. apply update_context_keeps in H as [Hs Hp].
  apply source_ptrs_lengths in Hs as [Hs Hl].
  unfold ring_ok. rewrite Hp, Hs, Hl. auto.
Qed.

Lemma window_half W : 1 <= W -> 0 <= W ÷ 2 < W.
Proof. intros H. split; [apply Z.quot_pos; lia | apply Z.quot_lt; lia]. Qed.

Lemma ring_ok_init o f st0 :
  init_state o f = Some st0 -> 1 <= sf_channels f -> 1 <= window_of f ->
  ring_ok st0.
Proof.
  intros H HC HW. apply init_state_facts in H. split_facts H.
  pose proof (window_half _ HW) as Hh.
  unfold ring_ok, ring_pred, params, ptrs, buf_lengths.
  rewrite if_numchannels, if_window, if_frame_sz, if_ra, if_main_edge,
    if_sq_edge, if_main_head, if_main_tail, if_main_cen, if_sq_head,
    if_sq_tail, if_sq_cen, if_main_len, if_sq_len.
  assert (E : window_of f * (sizeof_double * sf_channels f) ÷ sizeof_double
              = window_of f * sf_channels f).
  { replace (window_of f * (sizeof_double * sf_channels f))
      with (window_of f * sf_channels f * sizeof_double) by ring.
    apply Z.quot_mul. discriminate. }
  rewrite E. unfold read_ahead_of.
  replace (window_of f * sf_channels f - window_of f ÷ 2 * sf_channels f)
    with ((window_of f - window_of f ÷ 2) * sf_channels f) by ring.
  rewrite Z.quot_mul by lia. rewrite Z.quot_0_l by lia.
  unfold ring_at, wrap. case_ltb; repeat split; try lia; f_equal; f_equal; nia.
Qed.

Lemma ring_ok_reach o f st0 st :
  init_state o f = Some st0 -> 1 <= sf_channels f -> 1 <= window_of f ->
  loop_reach o st0 st -> ring_ok st.
Proof.
  intros H HC HW Hr. induction Hr as [| st st' _ IH Hb].
  - eapply ring_ok_init; eassumption.
  - apply loop_body_inv in Hb as (s1 & b & Hu & Hf & _).
    pose proof (ring_ok_fetch o s1 (ring_ok_update _ _ _ Hu IH)) as Hk.
    rewrite Hf in Hk. exact Hk.
Qed.

Lemma filter_new_frame_counters o st :
  counters (filter_new_frame o st) = counters st.
Proof.
  unfold filter_new_frame.
  change (counters (set_frames_proc_ttl ?v ?s)) with (counters s).
  apply (fold_left_inv (fun s => counters s = counters st)); [reflexivity |].
  intros a b Ha. rewrite <- Ha. split_options o. destruct ohp; reflexivity.
Qed.

Lemma fetch_next_frame_counters o st :
  (fst (fetch_next_frame o st), counters (snd (fetch_next_frame o st)))
  = source_step (ra_frame_cnt st) (counters st).
Proof.
  rewrite fetch_next_frame_unfold. simpl fst. simpl snd.
  rewrite filter_new_frame_counters.
  change (counters (advance_buf_ptrs ?s)) with (counters s).
  split_state st. unfold counters, source_step. source_eval.
  destruct in_eof; simpl; case_ltb; try destruct in_file; reflexivity.
Qed.

End RingReach.

Section Lag.
Context {D : DoubleOps}.

Lemma source_counters (a b : state_t) :
  source a = source b -> counters a = counters b.
Proof.
  destruct a, b. unfold source, counters. state_eval.
  intros [= ]. subst. reflexivity.
Qed.

Lemma params_fields (a b : state_t) :
  params a = params b ->
  numchannels a = numchannels b /\ samplerate a = samplerate b /\
  rms_window_len a = rms_window_len b /\
  min_signal_len a = min_signal_len b /\
  min_silence_len a = min_silence_len b /\
  min_track_len a = min_track_len b /\
  leadin_buf_len a = leadin_buf_len b /\ frame_sz a = frame_sz b /\
  ra_frame_cnt a = ra_frame_cnt b /\ alpha a = alpha b /\
  n_x_nf_sq a = n_x_nf_sq b /\ sq_buf_edge a = sq_buf_edge b /\
  main_buf_edge a = main_buf_edge b /\
  leadin_buf_edge a = leadin_buf_edge b.
Proof. unfold params. intros [= ]. repeat split; assumption. Qed.

Lemma params_ra (a b : state_t) :
  params a = params b -> ra_frame_cnt a = ra_frame_cnt b.
Proof. destruct a, b. unfold params. state_eval. intros [= ]. assumption. Qed.

Lemma lag_ok_step o st more st' :
  loop_body o st = Some (more, st') -> more = true -> lag_ok o st -> lag_ok o st'.
Proof.
  intros Hb -> Hl. apply loop_body_inv in Hb as (s1 & b & Hu & Hf & Hm).
  apply update_context_keeps in Hu as [Hs Hp].
  apply source_counters in Hs. apply params_ra in Hp.
  pose proof (fetch_next_frame_counters o s1) as Hc.
  pose proof (fetch_next_frame_params o s1) as Hq. apply params_ra in Hq.
  rewrite Hf in Hc, Hq. cbn [fst snd] in Hc, Hq.
  symmetry in Hm. apply andb_true_iff in Hm as [-> _].
  unfold lag_ok in *. rewrite Hq, Hp. rewrite Hs in Hc. clear Hs Hf Hq Hp.
  split_state st; destruct st'. unfold counters, source_step in Hc. state_eval_in Hc.
  state_eval. state_eval_in Hl.
  destruct in_eof; simpl in Hc.
  - destruct (0 <? frames_remaining); injection Hc; intros; subst; discriminate.
  - destruct (0 <? frames_remaining); [| discriminate].
    destruct in_file; injection Hc; intros; subst; [discriminate |].
    specialize (Hl eq_refl). lia.
Qed.

Lemma lag_ok_reach o f st0 st :
  init_state o f = Some st0 -> loop_reach o st0 st -> lag_ok o st.
Proof.
  intros H Hr. induction Hr as [| st st' _ IH Hb].
  - apply init_state_facts in H. split_facts H. unfold lag_ok.
    rewrite if_read, if_pos, if_ra. lia.
  - eapply lag_ok_step; [exact Hb | reflexivity | exact IH].
Qed.

Lemma window_of_pos f : 20 <= sf_samplerate f -> 1 <= window_of f.
Proof.
  intros H. unfold window_of, RMS_WINDOW_PERIOD.
  rewrite Z.quot_div_nonneg by lia.
  apply Z.div_le_lower_bound; lia.
Qed.

Lemma ring_ok_fields st :
  ring_ok st ->
  let C := numchannels st in
  let W := rms_window_len st in
  let t := tail_slot st in
  1 <= C /\ 1 <= W /\ 0 <= t < W /\
  ra_frame_cnt st = W - W ÷ 2 /\
  frame_sz st = sizeof_double * C /\
  Z.of_nat (length (main_buf st)) = W * C /\
  Z.of_nat (length (sq_buf st)) = W * C /\
  main_buf_tail st = t * C /\ sq_buf_tail st = t * C /\
  main_buf_head st = wrap W (t + W - 1) * C /\
  sq_buf_head st = wrap W (t + W - 1) * C /\
  main_buf_cen st = wrap W (t + W ÷ 2) * C /\
  sq_buf_cen st = wrap W (t + W ÷ 2) * C.
Proof.
  unfold ring_ok, ring_pred, params, ptrs, buf_lengths, tail_slot, ring_at.
  intros (HC & HW & Hf & _ & _ & Hlm & Hls & Hra & Ht & [= E1 E2 E3] & [= E4 E5 E6]).
  cbv zeta. repeat split; try assumption; lia.
Qed.

(** C2, as amended: after priming and before the codec reports EOF, the
    centre lags the read position by the read-ahead count W - W/2 (integer
    division), so it lags the newest admitted frame by W - W/2 - 1, and the
    head cursor is that many slots ahead of the centre cursor in the ring.
    The lag behind the read position is W/2 when W is even; the lag behind
    the newest admitted frame is W/2 when W is odd. *)
Theorem centre_lag o f st0 st :
  init_state o f = Some st0 ->
  1 <= sf_channels f -> 20 <= sf_samplerate f ->
  loop_reach o st0 st -> in_eof st = false ->
  let W := window_of f in
  cur_frame_pos st = read_position o st - (W - W ÷ 2) /\
  cur_frame_pos st = head_frame_index o st - (W - W ÷ 2 - 1) /\
  (main_buf_head st ÷ numchannels st - main_buf_cen st ÷ numchannels st)
    `mod` W = W - W ÷ 2 - 1 /\
  (Z.even W = true -> cur_frame_pos st = read_position o st - W ÷ 2) /\
  (Z.odd W = true -> cur_frame_pos st = head_frame_index o st - W ÷ 2).
Proof.
  intros Hi HC HR Hr He W. subst W.
  pose proof (window_of_pos f HR) as HW.
  pose proof (ring_ok_reach o f st0 st Hi HC HW Hr) as Hk.
  apply ring_ok_fields in Hk.
  pose proof (lag_ok_reach o f st0 st Hi Hr He) as Hl.
  pose proof (loop_reach_params o st0 st Hr) as Hp.
  pose proof (init_state_facts o f st0 Hi) as Hf.
  apply params_fields in Hp as (EC & _ & EW & _).
  split_facts Hf. rewrite if_numchannels in EC. rewrite if_window in EW.
  cbv zeta in Hk. rewrite EW, EC in Hk.
  clear - Hk HW HC Hl EC He. generalize dependent (window_of f). intros W HW Hk.
  generalize dependent (tail_slot st). intros t Hk.
  destruct Hk as (_ & _ & Ht & Hra & _ & _ & _ & _ & _ & Hh & _ & Hc & _).
  pose proof (window_half W HW) as Hh2.
  unfold head_frame_index, read_position. rewrite EC, Hh, Hc.
  rewrite !Z.quot_mul by lia.
  split; [lia |]. split; [lia |]. split.
  - unfold wrap. case_ltb.
    + rewrite Z.mod_small; lia.
    + replace (t + W - 1 - (t + W ÷ 2 - W)) with (W - 1 - W ÷ 2 + 1 * W) by lia.
      rewrite Z.mod_add by lia. rewrite Z.mod_small; lia.
    + replace (t + W - 1 - W - (t + W ÷ 2)) with (W - 1 - W ÷ 2 + (-1) * W) by lia.
      rewrite Z.mod_add by lia. rewrite Z.mod_small; lia.
    + rewrite Z.mod_small; lia.
  - assert (Hq : W ÷ 2 = W / 2) by (apply Z.quot_div_nonneg; lia).
    rewrite Hq in *. split; intros Hpar.
    + apply Z.even_spec in Hpar as [k Hk]. Z.div_mod_to_equations. lia.
    + apply Z.odd_spec in Hpar as [k Hk]. Z.div_mod_to_equations. lia.
Qed.

End Lag.

Section Drain.
Context {D : DoubleOps}.

Lemma counters_fields (st : state_t) f e r rd p :
  counters st = (f, e, r, rd, p) ->
  in_file st = f /\ in_eof st = e /\ frames_remaining st = r /\
  frames_read_ttl st = rd /\ cur_frame_pos st = p.
Proof. unfold counters. intros [= ]. repeat split; assumption. Qed.

(** Once the codec has reported EOF, the calls return [TRUE] as long as
    frames remain to be padded. *)
Lemma fetch_n_after_eof o (j : nat) : forall st,
  in_eof st = true ->
  fst (fetch_next_frame o (fetch_n j o st))
  = (Z.of_nat j <? frames_remaining st)
  /\ in_eof (fetch_n j o st) = true
  /\ in_file (fetch_n j o st) = in_file st.
Proof.
  induction j as [| j IH]; intros st He.
  - pose proof (fetch_next_frame_counters o st) as Hc.
    unfold counters, source_step in Hc. rewrite He in Hc. simpl in Hc.
    simpl fetch_n. split; [| split; [assumption | reflexivity]].
    change (Z.of_nat 0) with 0.
    destruct (0 <? frames_remaining st); injection Hc; intros; assumption.
  - simpl fetch_n.
    pose proof (fetch_next_frame_counters o st) as Hc.
    unfold source_step in Hc.
    destruct (counters st) as [[[[fl e] r] rd] p] eqn:E.
    apply counters_fields in E as (E1 & E2 & E3 & E4 & E5).
    rewrite He in E2. subst e. simpl in Hc.
    destruct (Z.ltb_spec 0 r) as [Hr | Hr]; apply (f_equal snd) in Hc;
      cbn [fst snd] in Hc;
      apply counters_fields in Hc as (C1 & C2 & C3 & _ & _);
      destruct (IH _ C2) as (I1 & I2 & I3);
      rewrite I1, I2, I3, C1, C3, E1, E3;
      (split; [| split; reflexivity]); case_ltb; lia.
Qed.

Lemma ring_ok_fetch_n o (j : nat) : forall st,
  ring_ok st -> ring_ok (fetch_n j o st).
Proof.
  induction j as [| j IH]; intros st Hk; simpl; [exact Hk |].
  apply IH, ring_ok_fetch, Hk.
Qed.

Lemma load_frame_memset0 (buf : list double) p C :
  0 <= p -> 0 <= C -> p + C <= Z.of_nat (length buf) ->
  load_frame (memset0 buf p (sizeof_double * C)) p C
  = replicate (Z.to_nat C) dzero.
Proof.
  intros Hp HC Hlen. unfold memset0.
  replace (sizeof_double * C) with (C * sizeof_double) by ring.
  rewrite Z.quot_mul by discriminate.
  pose proof (load_store_frame (replicate (Z.to_nat C) dzero) buf p Hp) as H.
  rewrite length_replicate, Z2Nat.id in H by lia. apply H. lia.
Qed.

Lemma fetch_n_params o (j : nat) : forall st,
  params (fetch_n j o st) = params st.
Proof.
  induction j as [| j IH]; intros st; simpl; [reflexivity |].
  rewrite IH. apply fetch_next_frame_params.
Qed.

(** Without data from the codec the admitted frame is the zero pad. *)
Lemma admitted_frame_pad st :
  ring_ok st -> in_file st = [] \/ in_eof st = true ->
  admitted_frame st = replicate (Z.to_nat (numchannels st)) dzero.
Proof.
  intros Hk Hx. apply ring_ok_fields in Hk. cbv zeta in Hk.
  destruct Hk as (HC & HW & Ht & _ & Hf & Hl & _ & Htl & _).
  assert (Hr : 0 <= main_buf_tail st /\
               main_buf_tail st + numchannels st
               <= Z.of_nat (length (main_buf st))) by nia.
  unfold admitted_frame.
  assert (E : main_buf (snd (fetch_input st))
              = memset0 (main_buf st) (main_buf_tail st) (frame_sz st)).
  { destruct (in_eof st) eqn:He.
    - destruct (Z.ltb_spec 0 (frames_remaining st)).
      + rewrite fetch_input_pad by assumption. reflexivity.
      + rewrite fetch_input_end by assumption. reflexivity.
    - destruct Hx as [Hx | Hx]; [| discriminate].
      destruct (Z.ltb_spec 0 (frames_remaining st)).
      + rewrite fetch_input_eof by assumption. reflexivity.
      + rewrite fetch_input_end by assumption. reflexivity. }
  rewrite E, Hf. apply load_frame_memset0; lia.
Qed.

(** C5, as amended.  When the codec first reports end-of-file, that call
    admits a zero pad and returns [TRUE]; of the calls after it exactly
    min (W - W/2, frames left in the range) return [TRUE], each admitting
    a zero pad, and every later call returns [FALSE].  W - W/2 is W/2 only
    when W is even. *)
Theorem eof_drain o f st0 st s1 :
  init_state o f = Some st0 ->
  1 <= sf_channels f -> 20 <= sf_samplerate f ->
  loop_reach o st0 st -> update_context o st = Some s1 ->
  in_eof s1 = false -> 0 < frames_remaining s1 -> in_file s1 = [] ->
  let W := window_of f in
  let s2 := snd (fetch_next_frame o s1) in
  fst (fetch_next_frame o s1) = true /\
  in_eof s2 = true /\
  frames_remaining s2 = Z.min (W - W ÷ 2) (frames_remaining s1 - 1) /\
  (forall j : nat,
     fst (fetch_next_frame o (fetch_n j o s2))
     = (Z.of_nat j <? frames_remaining s2)) /\
  (forall j : nat,
     admitted_frame (fetch_n j o s1)
     = replicate (Z.to_nat (sf_channels f)) dzero).
Proof.
  intros Hi HC HR Hr Hu He Hrem Hfile W s2.
  pose proof (window_of_pos f HR) as HW.
  pose proof (ring_ok_reach o f st0 st Hi HC HW Hr) as Hk.
  apply (ring_ok_update _ _ _ Hu) in Hk.
  pose proof (ring_ok_fields _ Hk) as Hkf. cbv zeta in Hkf.
  destruct Hkf as (_ & _ & _ & Hra & _).
  pose proof (update_context_keeps _ _ _ Hu) as [_ Hp].
  pose proof (loop_reach_params o st0 st Hr) as Hp0.
  pose proof (init_state_facts o f st0 Hi) as Hf.
  rewrite Hp0 in Hp. apply params_fields in Hp as (EC & _ & EW & _).
  split_facts Hf. rewrite if_numchannels in EC. rewrite if_window in EW.
  rewrite EW in Hra.
  pose proof (fetch_next_frame_counters o s1) as Hc.
  unfold counters at 2 in Hc. unfold source_step in Hc.
  rewrite He, Hfile in Hc. simpl in Hc.
  destruct (Z.ltb_spec 0 (frames_remaining s1)) as [_ | ?]; [| lia].
  pose proof (f_equal fst Hc) as Hb. apply (f_equal snd) in Hc.
  cbn [fst snd] in Hb, Hc.
  apply counters_fields in Hc as (C1 & C2 & C3 & _ & _).
  fold s2 in C1, C2, C3.
  split; [exact Hb |]. split; [exact C2 |]. split.
  { rewrite C3, Hra. fold W. case_ltb; lia. }
  split.
  - intros j. apply fetch_n_after_eof, C2.
  - intros j. rewrite <- EC.
    destruct j as [| j].
    + simpl. apply admitted_frame_pad; [exact Hk | left; exact Hfile].
    + simpl fetch_n. fold s2.
      destruct (fetch_n_after_eof o j s2 C2) as (_ & I2 & _).
      pose proof (ring_ok_fetch_n o j s2 (ring_ok_fetch o s1 Hk)) as Hkj.
      rewrite admitted_frame_pad; [| exact Hkj | right; exact I2].
      f_equal. f_equal.
      pose proof (fetch_n_params o j s2) as Hq. unfold s2 in Hq.
      rewrite fetch_next_frame_params in Hq.
      apply params_fields in Hq. tauto.
Qed.

End Drain.

Section Machine.
Context {D : DoubleOps}.

Lemma counter_ok_ext o (a b : state_t) :
  machine a = machine b -> counter_ok o a -> counter_ok o b.
Proof.
  destruct a, b. unfold machine, counter_ok, ends, in_track. state_eval.
  intros [= ]. subst. auto.
Qed.

Lemma counter_ok_update o st st' :
  update_context o st = Some st' -> counter_ok o st -> counter_ok o st'.
Proof.
  intros H. split_options o.
  destruct ocpa; split_state st; unfold counter_ok, ends, in_track; state_eval;
    machine_eval_in H; intros [Hn Ho];
    case_matches; state_eval;
    (split; [| intros Hx; try discriminate Hx; try specialize (Ho eq_refl)]);
    rewrite ?length_app in *; simpl in *; try congruence; try lia.
Qed.

Lemma length_load_frames (buf : list double) n k : forall p,
  length (load_frames buf p n k) = k.
Proof. induction k as [| k IH]; intros p; simpl; [| rewrite IH]; reflexivity. Qed.

Lemma writef_count_ok (buf : list double) p n k :
  (Z.of_nat (length (load_frames buf p n (Z.to_nat k))) <? k) = false.
Proof. rewrite length_load_frames. apply Z.ltb_ge. lia. Qed.

Lemma counter_ok_progress o st :
  counter_ok o st -> exists st', update_context o st = Some st'.
Proof.
  split_options o.
  destruct ocpa; split_state st; unfold counter_ok, in_track; state_eval; machine_eval;
    intros [Hn Ho];
    repeat (cbv beta iota;
            rewrite ?writef_count_ok;
            try change (Z.of_nat (length [?x]) <? 1) with false;
            match goal with
            | |- context [match ?x with _ => _ end] =>
                lazymatch x with
                | context [match _ with _ => _ end] => fail
                | _ => destruct x eqn:?
                end
            end);
    try (eexists; reflexivity);
    specialize (Ho eq_refl); cbn in Ho; congruence.
Qed.

Lemma counter_ok_init o f st0 : init_state o f = Some st0 -> counter_ok o st0.
Proof.
  intros H. apply init_state_facts in H. split_facts H.
  unfold counter_ok, ends, in_track.
  rewrite if_track_num, if_cuts_file, if_track_dir, if_context, if_out_file.
  split; [reflexivity | reflexivity].
Qed.

Lemma counter_ok_body o st more st' :
  loop_body o st = Some (more, st') -> counter_ok o st -> counter_ok o st'.
Proof.
  intros Hb Hk. apply loop_body_inv in Hb as (s1 & b & Hu & Hf & _).
  apply (counter_ok_update _ _ _ Hu) in Hk.
  pose proof (fetch_next_frame_machine o s1) as Hm. rewrite Hf in Hm.
  eapply counter_ok_ext; [symmetry; exact Hm | exact Hk].
Qed.

Lemma counter_ok_reach o f st0 st :
  init_state o f = Some st0 -> loop_reach o st0 st -> counter_ok o st.
Proof.
  intros H Hr. induction Hr as [| st st' _ IH Hb].
  - eapply counter_ok_init; eassumption.
  - eapply counter_ok_body; eassumption.
Qed.

Lemma cutter_exit_counts o st :
  counter_ok o st ->
  cur_track_num (cutter_exit o st) = cur_track_num st /\
  ends (cutter_exit o st)
  = ends st + (if (frames_remaining st =? 0) && in_track st then 1 else 0).
Proof.
  split_options o.
  destruct ocpa; split_state st; unfold counter_ok, ends, in_track; state_eval;
    cbv beta iota zeta delta [cutter_exit force_end_of_track close_out_file
                                print_track_cut];
    state_eval; intros [Hn Ho];
    destruct (frames_remaining =? 0); state_eval;
    destruct cut_context; state_eval; cbn [andb];
    try specialize (Ho eq_refl); cbn beta iota in Ho;
    try (destruct out_file; [| congruence]); try subst out_file; state_eval;
    split; try reflexivity; try congruence;
    rewrite ?length_app; cbn [length]; lia.
Qed.

Lemma machine_counts (a b : state_t) :
  machine a = machine b ->
  ends a = ends b /\ cur_track_num a = cur_track_num b.
Proof.
  destruct a, b. unfold machine, ends. state_eval.
  intros [= ]. subst. split; reflexivity.
Qed.

(** One call of [update_context] ends no track and leaves the counter, or
    ends one track and adds one to the counter. *)
Lemma update_context_counts o st st' :
  update_context o st = Some st' -> counter_ok o st ->
  ends st' = ends st /\ cur_track_num st' = cur_track_num st \/
  ends st' = ends st + 1 /\ cur_track_num st' = cur_track_num st + 1.
Proof.
  intros H. split_options o.
  destruct ocpa; split_state st; unfold counter_ok, ends, in_track; state_eval;
    machine_eval_in H; intros [Hn Ho];
    case_matches; state_eval;
    try specialize (Ho eq_refl);
    rewrite ?length_app in *; simpl in *;
    first [ left; split; [congruence || lia | congruence || lia]
          | right; split; [congruence || lia | congruence || lia]
          | congruence ].
Qed.

(** C1, as amended.  In a run that finishes: each call of [update_context]
    in the loop either ends no track and leaves [cur_track_num] as it is, or
    ends one track (the silence dwell expiring in [CCTX_TRACK_ENDING]) and
    adds one to [cur_track_num]; [fetch_next_frame] changes neither.  So
    when the loop is left, [cur_track_num] has grown by the number of tracks
    ended since [init_state].  The end that [cutter_loop] forces on leaving
    the loop with a track still open adds a track end and leaves
    [cur_track_num] as it is. *)
Theorem track_counter o f fuel stf :
  run_cutter fuel o f = Finished stf ->
  exists st0 st',
    init_state o f = Some st0 /\ stf = cutter_exit o st' /\
    (forall st s1,
       loop_reach o st0 st -> update_context o st = Some s1 ->
       (ends s1 = ends st /\ cur_track_num s1 = cur_track_num st \/
        ends s1 = ends st + 1 /\ cur_track_num s1 = cur_track_num st + 1) /\
       ends (snd (fetch_next_frame o s1)) = ends s1 /\
       cur_track_num (snd (fetch_next_frame o s1)) = cur_track_num s1) /\
    ends st0 = 0 /\
    cur_track_num st' = cur_track_num st0 + ends st' /\
    cur_track_num stf = cur_track_num st' /\
    ends stf
    = ends st' + (if (frames_remaining st' =? 0) && in_track st' then 1 else 0).
Proof.
  unfold run_cutter, cutter_loop.
  destruct (init_state o f) as [st0 |] eqn:Hi; [| discriminate].
  destruct (cutter_iterate fuel o st0) as [st' | |] eqn:Hc; try discriminate.
  intros [= <-]. exists st0, st'.
  apply cutter_iterate_reach in Hc as (st & Hr & Hb).
  pose proof (counter_ok_body _ _ _ _ Hb (counter_ok_reach _ _ _ _ Hi Hr)) as Hk.
  destruct (cutter_exit_counts o st' Hk) as [E1 E2].
  pose proof (counter_ok_init _ _ _ Hi) as [K0 _].
  pose proof (init_state_facts _ _ _ Hi) as Hf. split_facts Hf.
  assert (E0 : ends st0 = 0)
    by (unfold ends; rewrite if_cuts_file, if_track_dir; reflexivity).
  split; [reflexivity |]. split; [reflexivity |]. split.
  { intros a s1 Ha Hu.
    split; [exact (update_context_counts _ _ _ Hu
                     (counter_ok_reach _ _ _ _ Hi Ha)) |].
    apply machine_counts, fetch_next_frame_machine. }
  split; [exact E0 |].
  split; [destruct Hk as [Hn _]; lia |].
  split; [exact E1 | exact E2].
Qed.

End Machine.

Section Lockout.
Context {D : DoubleOps}.

Lemma machine_fields (a b : state_t) :
  machine a = machine b ->
  cut_context a = cut_context b /\ time_to_live a = time_to_live b /\
  cur_track_start a = cur_track_start b /\
  cur_track_num a = cur_track_num b /\ leadin_buf a = leadin_buf b /\
  leadin_buf_end a = leadin_buf_end b /\
  stderr_warnings a = stderr_warnings b /\ out_file a = out_file b /\
  track_dir a = track_dir b /\ cuts_file a = cuts_file b.
Proof. unfold machine. intros [= ]. repeat split; assumption. Qed.

Lemma fetch_next_frame_pos o st :
  cur_frame_pos (snd (fetch_next_frame o st)) = cur_frame_pos st + 1.
Proof.
  pose proof (fetch_next_frame_counters o st) as Hc.
  apply (f_equal snd) in Hc. cbn [snd] in Hc.
  destruct (counters st) as [[[[fl e] r] rd] p] eqn:E.
  apply counters_fields in E as (_ & _ & _ & _ & E5).
  unfold source_step in Hc. rewrite E5.
  destruct (negb e && (0 <? r)); [destruct fl |]; [| | destruct (0 <? r)];
    cbn [snd] in Hc;
    apply counters_fields in Hc as (_ & _ & _ & _ & C5); exact C5.
Qed.

Lemma lock_ok_update o st st' :
  update_context o st = Some st' -> lock_ok st -> lock_ok st'.
Proof.
  intros H. split_options o.
  destruct ocpa; split_state st; unfold lock_ok, row_ok; state_eval;
    machine_eval_in H; intros [Hl Hr];
    case_matches; state_eval; ltb_props;
    (split; [intros Hx; try discriminate Hx; try lia; try (apply Hl; reflexivity) |]);
    try assumption;
    apply Forall_app; (split; [assumption |]);
    constructor; [cbn; apply Hl; reflexivity | constructor].
Qed.

Lemma lock_ok_fetch o st : lock_ok st -> lock_ok (snd (fetch_next_frame o st)).
Proof.
  intros [H1 H2].
  pose proof (fetch_next_frame_machine o st) as Hm.
  apply machine_fields in Hm as (M1 & _ & M3 & _ & _ & _ & _ & _ & _ & M10).
  pose proof (fetch_next_frame_params o st) as Hp.
  apply params_fields in Hp as (_ & _ & _ & _ & _ & P6 & _).
  unfold lock_ok. rewrite fetch_next_frame_pos, M1, M3, M10, P6.
  split; [intros Hx; specialize (H1 Hx); lia | exact H2].
Qed.

Lemma lock_ok_reach o f st0 st :
  init_state o f = Some st0 -> loop_reach o st0 st -> lock_ok st.
Proof.
  intros H Hr. induction Hr as [| st st' _ IH Hb].
  - apply init_state_facts in H. split_facts H. unfold lock_ok.
    rewrite if_context, if_cuts_file. split; [discriminate | constructor].
  - apply loop_body_inv in Hb as (s1 & b & Hu & Hf & _).
    apply (lock_ok_update _ _ _ Hu) in IH.
    apply (lock_ok_fetch o) in IH. rewrite Hf in IH. exact IH.
Qed.

Lemma update_context_ends o st st' :
  update_context o st = Some st' -> ends st' <> ends st ->
  cut_context st = CCTX_TRACK_ENDING.
Proof.
  intros H. split_options o.
  destruct ocpa; split_state st; unfold ends; state_eval; machine_eval_in H;
    case_matches; state_eval; intros Hx; try reflexivity;
    exfalso; apply Hx; reflexivity.
Qed.

(** C8, as amended.  A track that the state machine ends, by a row in the
    cuts file or by closing the output file, has run for at least
    [min_track_len] frames: the tick that ends it is a tick in
    [CCTX_TRACK_ENDING] at a position no earlier than
    [cur_track_start + min_track_len], and every row written up to and
    including that tick spans at least [min_track_len] frames.  Nothing is
    said of the end that [cutter_loop] forces when the input runs out. *)
Theorem lockout o f st0 st st' :
  init_state o f = Some st0 -> loop_reach o st0 st ->
  update_context o st = Some st' ->
  (ends st' <> ends st ->
   cut_context st = CCTX_TRACK_ENDING /\
   cur_track_start st + min_track_len st <= cur_frame_pos st) /\
  Forall (row_ok (min_track_len st)) (cuts_file st').
Proof.
  intros Hi Hr Hu. pose proof (lock_ok_reach _ _ _ _ Hi Hr) as Hk.
  split.
  - intros Hx. pose proof (update_context_ends _ _ _ Hu Hx) as Hc.
    split; [exact Hc | apply Hk, Hc].
  - pose proof (lock_ok_update _ _ _ Hu Hk) as [_ Hf].
    apply update_context_keeps in Hu as [_ Hp].
    apply params_fields in Hp as (_ & _ & _ & _ & _ & P6 & _).
    rewrite <- P6. exact Hf.
Qed.

End Lockout.

Section Leadin.
Context {D : DoubleOps}.

Lemma leadin_ok_ext o (a b : state_t) :
  machine a = machine b -> params a = params b ->
  leadin_ok o a -> leadin_ok o b.
Proof.
  destruct a, b. unfold machine, params, leadin_ok, leadin_fill. state_eval.
  intros [= ] [= ]. subst. auto.
Qed.

Lemma leadin_ok_update o st st' :
  update_context o st = Some st' -> 1 <= numchannels st ->
  leadin_ok o st -> leadin_ok o st'.
Proof.
  intros H. split_options o.
  destruct ocpa; split_state st; unfold leadin_ok, leadin_fill; state_eval;
    machine_eval_in H; intros HC [Hw Hl];
    first [specialize (Hl eq_refl); destruct Hl as (Hl1 & Hl2 & Hl3) | clear Hl];
    case_matches; state_eval; ltb_props;
    (split; [first [exact Hw | intros Hx; try discriminate Hx] |
             intros Hx; try discriminate Hx]);
    rewrite ?length_store_frame;
    repeat match goal with
           | |- _ /\ _ => split
           | |- _ -> _ => intro
           end;
    try assumption; try reflexivity; try lia; try nia;
    try (destruct Hl3 as [Hl3 Hl4]; first [specialize (Hl3 ltac:(lia)) | specialize (Hl4 ltac:(lia))]; nia).
Qed.

Lemma leadin_ok_init o f st0 :
  init_state o f = Some st0 -> 1 <= sf_channels f -> leadin_ok o st0.
Proof.
  intros H HC. apply init_state_facts in H. split_facts H.
  unfold leadin_ok, leadin_fill.
  rewrite if_warnings, if_leadin_edge, if_leadin_buf, if_numchannels,
    if_min_signal, if_context, if_leadin_end.
  split; [reflexivity |]. intros ->. split; [reflexivity |].
  split; [| reflexivity]. intros Hm.
  unfold calloc, sizeof_double. rewrite length_replicate, Z.quot_mul by lia.
  lia.
Qed.

Lemma leadin_ok_reach o f st0 st :
  init_state o f = Some st0 -> 1 <= sf_channels f ->
  loop_reach o st0 st -> leadin_ok o st.
Proof.
  intros H HC Hr. induction Hr as [| st st' Hr IH Hb].
  - eapply leadin_ok_init; eassumption.
  - apply loop_body_inv in Hb as (s1 & b & Hu & Hf & _).
    assert (Hn : 1 <= numchannels st).
    { apply loop_reach_params, params_fields in Hr as (-> & _).
      apply init_state_facts in H. split_facts H. rewrite if_numchannels.
      exact HC. }
    apply (leadin_ok_update _ _ _ Hu Hn) in IH.
    pose proof (fetch_next_frame_machine o s1) as Hm.
    pose proof (fetch_next_frame_params o s1) as Hp.
    rewrite Hf in Hm, Hp.
    eapply leadin_ok_ext; [symmetry; exact Hm | symmetry; exact Hp | exact IH].
Qed.

(** What the first append does when the buffer has no room: the frame is
    dropped and the warning is printed. *)
Lemma leadin_buf_add_full o st :
  cut_point_action o = CPA_EXTRACT_TRACK ->
  leadin_buf_edge st <= leadin_buf_end st ->
  leadin_buf_add o st = set_stderr_warnings (S (stderr_warnings st)) st.
Proof.
  intros Ho Hf. unfold leadin_buf_add. rewrite Ho.
  apply Z.ltb_ge in Hf. rewrite Hf. reflexivity.
Qed.

(** C10.  With one channel or more, in every tick of a run: if
    [min_signal_len] is at least 1 no overflow warning has been printed, and
    in extraction mode the lead-in buffer holds at most [min_signal_len]
    frames, inside the block allocated for it; and if [min_signal_len] is 0,
    in extraction mode the tick that enters [CCTX_TRACK_STARTING] prints the
    warning and leaves the lead-in buffer as it was, empty. *)
Theorem leadin_capacity o f st0 st st' :
  init_state o f = Some st0 -> 1 <= sf_channels f ->
  loop_reach o st0 st -> update_context o st = Some st' ->
  (1 <= min_signal_len st ->
   stderr_warnings st' = O /\
   (cut_point_action o = CPA_EXTRACT_TRACK ->
    (0 <= leadin_buf_end st' <= numchannels st * min_signal_len st) /\
    leadin_buf_edge st' = numchannels st * min_signal_len st /\
    Z.of_nat (length (leadin_buf st'))
    = numchannels st * min_signal_len st)) /\
  (min_signal_len st = 0 -> cut_point_action o = CPA_EXTRACT_TRACK ->
   cut_context st = CCTX_SILENCE -> we_have_signal st = true ->
   cut_context st' = CCTX_TRACK_STARTING /\
   stderr_warnings st' = S (stderr_warnings st) /\
   leadin_buf st' = leadin_buf st /\
   leadin_buf_end st' = 0).
Proof.
  intros Hi HC Hr Hu.
  pose proof (leadin_ok_reach _ _ _ _ Hi HC Hr) as Hk.
  assert (Hn : 1 <= numchannels st).
  { apply loop_reach_params, params_fields in Hr as (-> & _).
    apply init_state_facts in Hi. split_facts Hi. rewrite if_numchannels.
    exact HC. }
  pose proof (leadin_ok_update _ _ _ Hu Hn Hk) as [Hw Hl].
  pose proof (update_context_keeps _ _ _ Hu) as [_ Hp].
  apply params_fields in Hp as (P1 & _ & _ & P4 & _).
  split.
  - intros Hm. rewrite P4 in Hw. split; [apply Hw, Hm |].
    intros Ho. destruct (Hl Ho) as (L1 & L2 & L3).
    unfold leadin_fill in L3. rewrite P1, P4 in *.
    split; [| split; [exact L1 | rewrite L2 by lia; exact L1]].
    destruct (cut_context st'); try lia.
    destruct L3 as [L3 _]. specialize (L3 Hm). nia.
  - intros Hm Ho Hc Hs. destruct Hk as [_ Hk].
    destruct (Hk Ho) as (K1 & _ & K3).
    unfold leadin_fill in K3. rewrite Hc in K3.
    unfold update_context in Hu. rewrite Hc, Hs in Hu.
    rewrite leadin_buf_add_full in Hu; [| exact Ho |].
    + injection Hu as <-. repeat split; try reflexivity. exact K3.
    + change (leadin_buf_edge st <= leadin_buf_end st).
      rewrite K1, K3, Hm. lia.
Qed.

End Leadin.

Section Ending.
Context {D : DoubleOps}.

Lemma ending_local o st :
  counter_ok o st -> cut_context st = CCTX_TRACK_ENDING ->
  exists st',
    update_context o st = Some st' /\ ending_machine st st' /\
    match cut_point_action o with
    | CPA_EXTRACT_TRACK =>
        exists nm fs, out_file st = Some (nm, fs) /\ ending_files st st' nm fs
    | CPA_LOG_POINT => ending_rows st st'
    end.
Proof.
  split_options o.
  destruct ocpa; split_state st;
    unfold counter_ok, in_track, ending_machine, ending_files, ending_rows,
      centre_frame;
    state_eval; machine_eval; intros [Hn Ho] Hc; subst cut_context;
    cbv beta iota.
  - destruct (we_have_signal _); [| destruct (0 <? time_to_live)];
      (eexists; split; [reflexivity |]); state_eval; cbn [orb];
      repeat split; reflexivity.
  - specialize (Ho eq_refl). cbv beta iota in Ho.
    destruct out_file as [[nm fs] |]; [| congruence]. cbv beta iota zeta.
    change (Z.of_nat (length [?x]) <? 1) with false. cbv beta iota.
    state_eval.
    destruct (we_have_signal _); [| destruct (0 <? time_to_live)];
      (eexists; split; [reflexivity |]); state_eval; cbn [orb];
      (split; [repeat split; reflexivity |]); exists nm, fs;
      repeat split; reflexivity.
Qed.

(** C3, as amended.  A tick in [CCTX_TRACK_ENDING] commits the centre frame
    first, whatever the verdict: with signal the machine returns to
    [CCTX_TRACK]; without signal and with dwell left it stays and the dwell
    goes down by one; without signal and with no dwell left it goes to
    [CCTX_SILENCE], ends the track and increments [cur_track_num].  In
    extraction mode the centre frame of that last tick is the last frame of
    the file that is closed; in log mode nothing is committed and the last
    tick writes the row of the track. *)
Theorem track_ending_tick o f st0 st :
  init_state o f = Some st0 -> loop_reach o st0 st ->
  cut_context st = CCTX_TRACK_ENDING ->
  exists st',
    update_context o st = Some st' /\ ending_machine st st' /\
    match cut_point_action o with
    | CPA_EXTRACT_TRACK =>
        exists nm fs, out_file st = Some (nm, fs) /\ ending_files st st' nm fs
    | CPA_LOG_POINT => ending_rows st st'
    end.
Proof.
  intros Hi Hr Hc. apply ending_local; [| exact Hc].
  eapply counter_ok_reach; eassumption.
Qed.

End Ending.

Section Detector.
Context {D : DoubleOps}.

(** The loop of [we_have_signal] returns [TRUE] exactly when one of the
    channels it looks at is above the threshold. *)
Lemma we_have_signal_from_spec thr x n : forall c,
  we_have_signal_from thr x n c = true <->
  exists i, c <= i < c + Z.of_nat n /\ dltb thr (load x i) = true.
Proof.
  induction n as [| n IH]; intros c; simpl we_have_signal_from.
  - split; [discriminate | intros (i & Hi & _); lia].
  - destruct (dltb thr (load x c)) eqn:E.
    + split; [intros _; exists c; split; [lia | exact E] | reflexivity].
    + rewrite IH. split; intros (i & Hi & Ht).
      * exists i. split; [lia | exact Ht].
      * exists i. split; [| exact Ht].
        destruct (Z.eq_dec i c) as [-> | Hne]; [congruence | lia].
Qed.

Lemma we_have_signal_spec st :
  we_have_signal st = true <->
  exists c, 0 <= c < numchannels st /\
            dltb (n_x_nf_sq st) (load (x_sq_ttl st) c) = true.
Proof.
  unfold we_have_signal. rewrite we_have_signal_from_spec.
  split; intros (c & Hc & Ht); exists c; (split; [lia | exact Ht]).
Qed.

(** The threshold of a run is the product that [init_state] computes, and
    the detector compares each running sum with it. *)
Lemma we_have_signal_threshold (o : options_t) (f : sndfile) (st0 st : state_t) :
  init_state o f = Some st0 -> loop_reach o st0 st ->
  rms_window_len st = sf_samplerate f * RMS_WINDOW_PERIOD ÷ 1000 /\
  n_x_nf_sq st = noise_threshold (noise_floor_dbfs o) (rms_window_len st) /\
  (we_have_signal st = true <->
   exists c, 0 <= c < numchannels st /\
     dltb (noise_threshold (noise_floor_dbfs o) (rms_window_len st))
       (load (x_sq_ttl st) c) = true).
Proof.
  intros Hi Hr.
  apply loop_reach_params, params_fields in Hr
    as (_ & _ & P3 & _ & _ & _ & _ & _ & _ & _ & P11 & _).
  apply init_state_facts in Hi. split_facts Hi.
  rewrite if_window in P3. rewrite if_threshold in P11.
  split; [exact P3 |]. split; [rewrite P11, P3; reflexivity |].
  rewrite we_have_signal_spec, P11, P3. reflexivity.
Qed.

(** C6, as amended.  In every tick of a run, in whatever arithmetic
    [double] stands for: [we_have_signal] is true if and only if for some
    channel [c] the running sum of squares [x_sq_ttl[c]] is strictly
    greater, as [double]s compare, than the threshold [n_x_nf_sq], which is
    the product [x_nf * x_nf * (double) W] of [double]s, where [x_nf] is
    [exp2 (noise_floor_dbfs / (20 * log10 (2)))] as [double] arithmetic and
    libm give it and [W] is the RMS window length in frames. *)
Theorem signal_predicate (o : options_t) (f : sndfile) (st0 st : state_t) :
  init_state o f = Some st0 -> loop_reach o st0 st ->
  let x_nf :=
    exp2 (ddiv (noise_floor_dbfs o) (dmul (d_of_Z 20) (log10 (d_of_Z 2)))) in
  rms_window_len st = sf_samplerate f * RMS_WINDOW_PERIOD ÷ 1000 /\
  n_x_nf_sq st = dmul (dmul x_nf x_nf) (d_of_Z (rms_window_len st)) /\
  (we_have_signal st = true <->
   exists c, 0 <= c < numchannels st /\
     dltb (dmul (dmul x_nf x_nf) (d_of_Z (rms_window_len st)))
       (load (x_sq_ttl st) c) = true).
Proof.
  intros Hi Hr x_nf.
  apply loop_reach_params, params_fields in Hr
    as (_ & _ & P3 & _ & _ & _ & _ & _ & _ & _ & P11 & _).
  apply init_state_facts in Hi. split_facts Hi.
  rewrite if_window in P3. rewrite if_threshold in P11.
  fold (noise_threshold (noise_floor_dbfs o) (rms_window_len st)).
  split; [exact P3 |]. split; [rewrite P11, P3; reflexivity |].
  rewrite we_have_signal_spec, P11, P3. reflexivity.
Qed.

End Detector.

Section RealDetector.
#[local] Existing Instance Real.ops.

Lemma ltb_lt (a b : R) : Real.ltb a b = true <-> (a < b)%R.
Proof.
  unfold Real.ltb. destruct (Rlt_dec a b); split; auto; discriminate.
Qed.

Lemma ln_pos (x : R) : (1 < x)%R -> (0 < ln x)%R.
Proof. intros H. rewrite <- ln_1. apply ln_increasing; lra. Qed.

(** [exp2 (d / (20 log10 2))] is [10 ^ (d / 20)]. *)
Lemma x_nf_power (d : R) :
  exp2 (ddiv d (dmul (d_of_Z 20) (log10 (d_of_Z 2)))) = Rpower 10 (d / 20).
Proof.
  cbn. unfold Rpower. f_equal.
  pose proof (ln_pos 2 ltac:(lra)). pose proof (ln_pos 10 ltac:(lra)).
  field. split; lra.
Qed.

Lemma noise_threshold_real (d : R) (W : Z) :
  noise_threshold d W
  = (Rpower 10 (d / 20) * Rpower 10 (d / 20) * IZR W)%R.
Proof. unfold noise_threshold. rewrite x_nf_power. reflexivity. Qed.

(** With [double] read as the real numbers the threshold is exact: in every
    tick of a run, [we_have_signal] is true if and only if for some channel
    [c] the running sum of squares [x_sq_ttl[c]] is strictly greater than
    [x_nf * x_nf * W], where [x_nf] is 10 to the power
    [noise_floor_dbfs / 20] and [W] is the RMS window length in frames. *)
Lemma signal_predicate_exact (o : options_t) (f : sndfile) (st0 st : state_t) :
  init_state o f = Some st0 -> loop_reach o st0 st ->
  let x_nf := Rpower 10 (noise_floor_dbfs o / 20) in
  rms_window_len st = sf_samplerate f * RMS_WINDOW_PERIOD ÷ 1000 /\
  (we_have_signal st = true <->
   exists c, 0 <= c < numchannels st /\
     (x_nf * x_nf * IZR (rms_window_len st) < load (x_sq_ttl st) c)%R).
Proof.
  intros Hi Hr x_nf.
  destruct (we_have_signal_threshold o f st0 st Hi Hr) as (P3 & _ & Hs).
  split; [exact P3 |].
  rewrite Hs, noise_threshold_real.
  split; intros (c & Hc & Ht); exists c; (split; [exact Hc |]);
    apply ltb_lt; exact Ht.
Qed.

(** The threshold of -40 dBFS over a window of five frames, exactly. *)
Lemma threshold_40_5 :
  (Rpower 10 (-40 / 20) * Rpower 10 (-40 / 20) * 5 = / 2000)%R.
Proof.
  replace (-40 / 20)%R with (- INR 2)%R by (simpl; lra).
  rewrite Rpower_Ropp, Rpower_pow by lra. simpl. field.
Qed.

End RealDetector.

Section Sums.
Context {D : DoubleOps}.

Lemma fold_left_inv_in {A B} (P : A -> Prop) (f : A -> B -> A) l a :
  P a -> (forall a b, b ∈ l -> P a -> P (f a b)) -> P (fold_left f l a).
Proof.
  revert a. induction l as [| b l IH]; intros a Ha Hf; simpl; [exact Ha |].
  apply IH.
  - apply Hf; [left | exact Ha].
  - intros a' b' Hb. apply Hf. right. exact Hb.
Qed.

Lemma filter_channel_sq o st c :
  sq_view (filter_channel o st c)
  = sq_step (sq_buf_head st) c
      (dmul (filtered_sample o st c) (filtered_sample o st c))
      (x_sq_ttl st) (sq_buf st).
Proof.
  split_options o.
  destruct ohp; split_state st; unfold sq_view, filtered_sample, sq_step; filter_eval;
    reflexivity.
Qed.

Lemma channel_squares_lookup sq C W c (i : nat) :
  Z.of_nat i < W ->
  channel_squares sq C W c !! i = Some (load sq (Z.of_nat i * C + c)).
Proof.
  intros Hi. unfold channel_squares.
  rewrite list_lookup_fmap, lookup_seqZ_lt by lia. reflexivity.
Qed.

Lemma length_channel_squares sq C W c :
  length (channel_squares sq C W c) = Z.to_nat W.
Proof. unfold channel_squares. rewrite length_fmap, length_seqZ. reflexivity. Qed.

Lemma channel_squares_store_same sq C W h c v :
  0 <= h < W -> 0 <= c < C -> Z.of_nat (length sq) = W * C ->
  channel_squares (store sq (h * C + c) v) C W c
  = <[Z.to_nat h := v]> (channel_squares sq C W c).
Proof.
  intros Hh Hc Hl. apply list_eq. intros i.
  destruct (decide (Z.of_nat i < W)) as [Hi | Hi].
  - rewrite channel_squares_lookup by exact Hi.
    destruct (decide (i = Z.to_nat h)) as [-> | Hne].
    + rewrite list_lookup_insert_eq
        by (rewrite length_channel_squares; lia).
      rewrite Z2Nat.id by lia. rewrite load_store_eq by nia. reflexivity.
    + rewrite list_lookup_insert_ne by lia.
      rewrite channel_squares_lookup by exact Hi.
      rewrite load_store_ne by nia. reflexivity.
  - rewrite !lookup_ge_None_2; [reflexivity | |];
      rewrite ?length_insert, length_channel_squares; lia.
Qed.

Lemma channel_squares_store_other sq C W h c c' v :
  0 <= c < C -> 0 <= c' < C -> c <> c' ->
  channel_squares (store sq (h * C + c) v) C W c' = channel_squares sq C W c'.
Proof.
  intros Hc Hc' Hne. unfold channel_squares. apply list_fmap_ext.
  intros i x Hx. apply lookup_seqZ in Hx as [-> Hi].
  apply load_store_ne. intros Heq.
  assert (Hd : (h - (0 + Z.of_nat i)) * C = c' - c) by lia.
  destruct (Z.lt_trichotomy h (0 + Z.of_nat i)) as [Hlt | [He | Hgt]]; nia.
Qed.

Lemma load_replicate n p : load (replicate n dzero) p = dzero.
Proof.
  unfold load. destruct (p <? 0); [reflexivity |].
  rewrite nth_lookup. destruct (replicate n dzero !! Z.to_nat p) eqn:E;
    [| reflexivity].
  apply lookup_replicate in E as [-> _]. reflexivity.
Qed.

Section Exact.
Hypothesis E : ExactArith D.

Lemma dsum_insert l (h : nat) old v :
  l !! h = Some old -> dsum (<[h := v]> l) = dadd (dsub (dsum l) old) v.
Proof.
  assert (G : forall (h : nat), l !! h = Some old ->
    exists r, dsum l = dadd r old /\ dsum (<[h := v]> l) = dadd r v).
  { induction l as [| a t IH]; intros k Hl; [discriminate |].
    destruct k as [| k]; simpl in *.
    - injection Hl as ->. exists (dsum t). split; apply (dadd_comm _ E).
    - destruct (IH k Hl) as (r & H1 & H2). exists (dadd a r).
      fold (dsum t). fold (dsum (<[k := v]> t)). rewrite H1, H2.
      split; apply (dadd_assoc _ E). }
  intros Hl. destruct (G h Hl) as (r & -> & ->).
  rewrite (dadd_sub _ E). reflexivity.
Qed.

Lemma dsum_zeros l : Forall (fun x => x = dzero) l -> dsum l = dzero.
Proof.
  induction 1 as [| x l -> _ IH]; simpl; [reflexivity |].
  fold (dsum l). rewrite IH. apply (dadd_0_l _ E).
Qed.

Lemma sums_ok_zeros C W n m :
  sums_ok C W (replicate n dzero) (replicate m dzero).
Proof.
  intros c _. rewrite load_replicate. symmetry. apply dsum_zeros.
  unfold channel_squares. apply Forall_fmap, Forall_forall.
  intros i _. apply load_replicate.
Qed.

Lemma sq_step_ok C W h c v x sq :
  1 <= C <= MAX_CHANNELS -> 0 <= h < W -> 0 <= c < C ->
  length x = 8%nat -> Z.of_nat (length sq) = W * C ->
  sums_ok C W x sq ->
  sums_ok C W (sq_step (h * C) c v x sq).1 (sq_step (h * C) c v x sq).2.
Proof.
  unfold MAX_CHANNELS. intros HC Hh Hc Hx Hs Hk c' Hc'.
  unfold sq_step. cbn [fst snd].
  rewrite (load_store_eq x) by lia.
  rewrite (load_store_eq sq) by nia.
  destruct (Z.eq_dec c c') as [<- | Hne].
  - rewrite load_store_eq by (rewrite length_store; lia).
    rewrite channel_squares_store_same by assumption.
    rewrite (dsum_insert _ _ (load sq (h * C + c)))
      by (rewrite channel_squares_lookup, Z2Nat.id by lia; reflexivity).
    rewrite <- Hk by exact Hc. reflexivity.
  - rewrite !load_store_ne by exact Hne.
    rewrite channel_squares_store_other by assumption.
    apply Hk, Hc'.
Qed.

End Exact.

End Sums.

Section RunningSum.
Context {D : DoubleOps}.

Lemma ptrs_fields (a b : state_t) :
  ptrs a = ptrs b ->
  main_buf_head a = main_buf_head b /\ main_buf_tail a = main_buf_tail b /\
  main_buf_cen a = main_buf_cen b /\ sq_buf_head a = sq_buf_head b /\
  sq_buf_tail a = sq_buf_tail b /\ sq_buf_cen a = sq_buf_cen b.
Proof. unfold ptrs. intros [= ]. repeat split; assumption. Qed.

Lemma lengths_fields (a b : state_t) :
  buf_lengths a = buf_lengths b ->
  length (main_buf a) = length (main_buf b) /\
  length (sq_buf a) = length (sq_buf b) /\
  length (x_sq_ttl a) = length (x_sq_ttl b).
Proof. unfold buf_lengths. intros [= ]. repeat split; assumption. Qed.

Lemma filter_channel_ptrs o st c : ptrs (filter_channel o st c) = ptrs st.
Proof. split_options o. destruct ohp; reflexivity. Qed.

Lemma fetch_next_frame_admitted o st :
  snd (fetch_next_frame o st) = filter_new_frame o (admitted st).
Proof. rewrite fetch_next_frame_unfold. reflexivity. Qed.

Lemma admitted_sq st :
  params (admitted st) = params st /\
  sq_buf_head (admitted st) = sq_buf_tail st /\
  main_buf_head (admitted st) = main_buf_tail st /\
  x_sq_ttl (admitted st) = x_sq_ttl st /\
  sq_buf (admitted st) = sq_buf st.
Proof.
  unfold admitted, fetch_input.
  repeat match goal with
         | |- context [if ?b then _ else _] => destruct b
         | |- context [match in_file ?s with _ => _ end] => destruct (in_file s)
         end; repeat split.
Qed.

Lemma fold_left_snoc {A B} (g : A -> B -> A) l x a :
  fold_left g (l ++ [x]) a = g (fold_left g l a) x.
Proof. rewrite fold_left_app. reflexivity. Qed.

Lemma load_outside (buf : list double) q :
  q < 0 \/ Z.of_nat (length buf) <= q -> load buf q = dzero.
Proof.
  intros Hq. unfold load. destruct (Z.ltb_spec q 0); [reflexivity |].
  apply nth_overflow. lia.
Qed.

Lemma filter_channel_main_other o st c q :
  q <> main_buf_head st + c ->
  load (main_buf (filter_channel o st c)) q = load (main_buf st) q.
Proof.
  split_options o.
  destruct ohp; split_state st; filter_eval; intros Hq;
    rewrite ?load_store_ne by lia; reflexivity.
Qed.

Lemma filter_channel_main o st c :
  high_pass_filter_enabled o = false ->
  main_buf (filter_channel o st c)
  = store (main_buf st) (main_buf_head st + c)
      (dadd (load (main_buf st) (main_buf_head st + c))
         (load (dc_offset o) c)).
Proof.
  split_options o. cbn [high_pass_filter_enabled]. intros ->.
  split_state st. filter_eval. reflexivity.
Qed.

Lemma frame_effect_step o st n a :
  0 <= n ->
  0 <= sq_buf_head st ->
  sq_buf_head st + n < Z.of_nat (length (sq_buf st)) ->
  0 <= main_buf_head st ->
  main_buf_head st + n < Z.of_nat (length (main_buf st)) ->
  n < Z.of_nat (length (x_sq_ttl st)) ->
  frame_effect o st n a -> frame_effect o st (n + 1) (filter_channel o a n).
Proof.
  intros Hn Hs0 Hs1 Hm0 Hm1 Hx (Hp & Hq & Hl & Mo & So & Xo & In).
  pose proof (ptrs_fields _ _ Hq) as (QH & _ & _ & QS & _).
  pose proof (lengths_fields _ _ Hl) as (LM & LS & LX).
  pose proof (filter_channel_sq o a n) as Hv. unfold sq_view, sq_step in Hv.
  pose proof (f_equal fst Hv) as Hv1. pose proof (f_equal snd Hv) as Hv2.
  cbn [fst snd] in Hv1, Hv2. clear Hv.
  unfold filtered_sample in Hv1, Hv2.
  unfold frame_effect.
  rewrite filter_channel_params, filter_channel_ptrs, filter_channel_lengths.
  split; [exact Hp |]. split; [exact Hq |]. split; [exact Hl |].
  split.
  { intros q Hq'. rewrite filter_channel_main_other by lia. apply Mo. lia. }
  split.
  { intros q Hq'. rewrite Hv2, load_store_ne by lia. apply So. lia. }
  split.
  { intros c Hc. rewrite Hv1, !load_store_ne by lia. apply Xo. lia. }
  intros c Hc. destruct (Z.eq_dec c n) as [-> | Hne].
  - split; [| split].
    + rewrite Hv2, QS, QH. rewrite load_store_eq by lia. reflexivity.
    + rewrite Hv1, Hv2, QS.
      rewrite load_store_eq by (rewrite length_store; lia).
      rewrite (load_store_eq (x_sq_ttl a)) by lia.
      rewrite (Xo n) by lia. rewrite (So (sq_buf_head st + n)) by lia.
      reflexivity.
    + intros Hhp. rewrite filter_channel_main by exact Hhp. rewrite QH.
      rewrite load_store_eq by lia. rewrite (Mo _) by lia. reflexivity.
  - destruct (In c ltac:(lia)) as (I1 & I2 & I3). split; [| split].
    + rewrite Hv2, load_store_ne by lia.
      rewrite filter_channel_main_other by lia. exact I1.
    + rewrite Hv1, Hv2, !load_store_ne by lia. exact I2.
    + intros Hhp. rewrite filter_channel_main_other by lia. apply I3, Hhp.
Qed.

Lemma frame_effect_fold o st (n : nat) :
  0 <= sq_buf_head st ->
  sq_buf_head st + Z.of_nat n <= Z.of_nat (length (sq_buf st)) ->
  0 <= main_buf_head st ->
  main_buf_head st + Z.of_nat n <= Z.of_nat (length (main_buf st)) ->
  Z.of_nat n <= Z.of_nat (length (x_sq_ttl st)) ->
  frame_effect o st (Z.of_nat n)
    (fold_left (filter_channel o) (seqZ 0 (Z.of_nat n)) st).
Proof.
  intros Hs0 Hs1 Hm0 Hm1 Hx. induction n as [| n IH].
  - unfold frame_effect. cbn [Z.of_nat seqZ fold_left].
    change (seqZ 0 0) with (@nil Z). cbn [fold_left].
    repeat split; try reflexivity; intros; lia.
  - rewrite seqZ_S, fold_left_snoc, Z.add_0_l, Nat2Z.inj_succ.
    unfold Z.succ. apply frame_effect_step; try lia. apply IH; lia.
Qed.

Lemma frame_effect_ttl o st n v s :
  frame_effect o st n s -> frame_effect o st n (set_frames_proc_ttl v s).
Proof. intros H. destruct s. exact H. Qed.

Lemma filter_new_frame_effect o st :
  0 <= numchannels st ->
  0 <= sq_buf_head st ->
  sq_buf_head st + numchannels st <= Z.of_nat (length (sq_buf st)) ->
  0 <= main_buf_head st ->
  main_buf_head st + numchannels st <= Z.of_nat (length (main_buf st)) ->
  numchannels st <= Z.of_nat (length (x_sq_ttl st)) ->
  frame_effect o st (numchannels st) (filter_new_frame o st).
Proof.
  intros HC Hs0 Hs1 Hm0 Hm1 Hx.
  pose proof (frame_effect_fold o st (Z.to_nat (numchannels st))) as H.
  rewrite Z2Nat.id in H by exact HC.
  unfold filter_new_frame. apply frame_effect_ttl. apply H; assumption.
Qed.

Section Exact.
Hypothesis E : ExactArith D.

Lemma filter_new_frame_sum o st h :
  1 <= numchannels st <= MAX_CHANNELS -> 0 <= h < rms_window_len st ->
  sq_buf_head st = h * numchannels st ->
  length (x_sq_ttl st) = 8%nat ->
  Z.of_nat (length (sq_buf st)) = rms_window_len st * numchannels st ->
  sum_ok st -> sum_ok (filter_new_frame o st).
Proof.
  intros HC Hh Hhead Hx Hs Hk. unfold filter_new_frame.
  change (sum_ok (set_frames_proc_ttl ?v ?s)) with (sum_ok s).
  cut (params (fold_left (filter_channel o) (seqZ 0 (numchannels st)) st)
       = params st /\
       ptrs (fold_left (filter_channel o) (seqZ 0 (numchannels st)) st)
       = ptrs st /\
       buf_lengths (fold_left (filter_channel o) (seqZ 0 (numchannels st)) st)
       = buf_lengths st /\
       sum_ok (fold_left (filter_channel o) (seqZ 0 (numchannels st)) st)).
  { intros (_ & _ & _ & H). exact H. }
  apply (fold_left_inv_in
           (fun s => params s = params st /\ ptrs s = ptrs st /\
                     buf_lengths s = buf_lengths st /\ sum_ok s)).
  - repeat split. exact Hk.
  - intros a c Hc (Hp & Hq & Hl & Ha). apply elem_of_seqZ in Hc.
    rewrite filter_channel_params, filter_channel_ptrs,
      filter_channel_lengths.
    repeat split; try assumption.
    pose proof (filter_channel_params o a c) as Hp'.
    apply params_fields in Hp' as (PC & _ & PW & _).
    apply params_fields in Hp as (AC & _ & AW & _).
    apply ptrs_fields in Hq as (_ & _ & _ & AH & _).
    apply lengths_fields in Hl as (_ & AS & AX).
    pose proof (filter_channel_sq o a c) as Hv. unfold sq_view in Hv.
    pose proof (f_equal fst Hv) as Hv1. pose proof (f_equal snd Hv) as Hv2.
    cbn [fst snd] in Hv1, Hv2.
    unfold sum_ok in *. rewrite PC, PW, Hv1, Hv2, AH, Hhead, AC, AW in *.
    apply (sq_step_ok E); try assumption; lia.
Qed.

Lemma prime_step_heads o st :
  (main_buf_head (prime_step o st), sq_buf_head (prime_step o st))
  = (main_buf_head st + numchannels st, sq_buf_head st + numchannels st).
Proof.
  unfold prime_step.
  change (main_buf_head (set_sq_buf_head ?a (set_main_buf_head ?b ?s)))
    with b.
  change (sq_buf_head (set_sq_buf_head ?a (set_main_buf_head ?b ?s))) with a.
  change (sq_buf_head (set_main_buf_head ?b ?s)) with (sq_buf_head s).
  change (numchannels (set_main_buf_head ?b ?s)) with (numchannels s).
  pose proof (filter_new_frame_ptrs o st) as Hq.
  apply ptrs_fields in Hq as (-> & _ & _ & -> & _).
  pose proof (filter_new_frame_params o st) as Hp.
  apply params_fields in Hp as (-> & _). reflexivity.
Qed.

Lemma prime_step_sum o st :
  prime_inv st -> main_buf_head st < main_buf_edge st ->
  prime_inv (prime_step o st).
Proof.
  intros (HC & He & (h & Hh & Hm & Hs) & Hx & Hl & Hk) Hlt.
  destruct (prime_step_keeps o st) as (Hp & _ & _ & Hb).
  apply params_fields in Hp
    as (PC & _ & PW & _ & _ & _ & _ & _ & _ & _ & _ & _ & PE & _).
  apply lengths_fields in Hb as (_ & BS & BX).
  pose proof (prime_step_heads o st) as Hh2.
  pose proof (f_equal fst Hh2) as H1. pose proof (f_equal snd Hh2) as H2.
  cbn [fst snd] in H1, H2.
  unfold prime_inv. rewrite PC, PW, PE, BS, BX, H1, H2.
  repeat split; try assumption; try lia.
  - exists (h + 1). split; [lia |]. split; lia.
  - assert (Hk' : sum_ok (filter_new_frame o st)).
    { apply (filter_new_frame_sum o st h); try assumption; nia. }
    pose proof (filter_new_frame_params o st) as Hq.
    apply params_fields in Hq as (FC & _ & FW & _).
    unfold sum_ok in Hk'. rewrite FC, FW in Hk'.
    unfold sum_ok. rewrite PC, PW. exact Hk'.
Qed.

Lemma prime_filter_sum fuel o : forall st,
  prime_inv st -> prime_inv (prime_filter fuel o st).
Proof.
  induction fuel as [| fuel IH]; intros st Hi; simpl; [exact Hi |].
  destruct (Z.ltb_spec (main_buf_head st) (main_buf_edge st)); [| exact Hi].
  apply IH, prime_step_sum; assumption.
Qed.

Lemma init_read_view o f :
  let s1 := init_read (init_buffers (opened o f)) in
  numchannels s1 = sf_channels f /\
  rms_window_len s1 = window_of f /\
  main_buf_edge s1 = window_of f * sf_channels f /\
  main_buf_head s1 = window_of f ÷ 2 * sf_channels f /\
  sq_buf_head s1 = window_of f ÷ 2 * sf_channels f /\
  x_sq_ttl s1 = replicate (Z.to_nat MAX_CHANNELS) dzero /\
  sq_buf s1 = calloc (window_of f) (sizeof_double * sf_channels f).
Proof. cbv zeta. repeat split. Qed.

Lemma finish_sq o a :
  numchannels (init_cutting o (init_cursors a)) = numchannels a /\
  rms_window_len (init_cutting o (init_cursors a)) = rms_window_len a /\
  x_sq_ttl (init_cutting o (init_cursors a)) = x_sq_ttl a /\
  sq_buf (init_cutting o (init_cursors a)) = sq_buf a.
Proof. split_options o. destruct ocpa; repeat split. Qed.

Lemma sum_ok_init o f st0 :
  init_state o f = Some st0 -> 1 <= sf_channels f <= MAX_CHANNELS ->
  1 <= window_of f -> sum_ok st0.
Proof.
  intros H HC HW. apply init_state_reads in H. subst st0.
  pose proof (init_read_view o f) as Hv. cbv zeta in Hv.
  destruct Hv as (V1 & V2 & V3 & V4 & V5 & V6 & V7).
  assert (Hi : prime_inv (init_read (init_buffers (opened o f)))).
  { unfold prime_inv, sum_ok. rewrite V1, V2, V3, V4, V5, V6, V7.
    pose proof (window_half _ HW) as Hh.
    repeat split; try lia.
    - exists (window_of f ÷ 2). repeat split; lia.
    - unfold calloc, sizeof_double. rewrite length_replicate.
      replace (window_of f * (8 * sf_channels f))
        with (window_of f * sf_channels f * 8) by ring.
      rewrite Z.quot_mul by lia. nia.
    - apply (sums_ok_zeros E). }
  apply (prime_filter_sum
           (Z.to_nat (main_buf_edge (init_read (init_buffers (opened o f)))
                      - main_buf_head (init_read (init_buffers (opened o f)))))
           o) in Hi.
  destruct Hi as (_ & _ & _ & _ & _ & Hk).
  pose proof (finish_sq o (init_prime o (init_read (init_buffers (opened o f)))))
    as Hf.
  destruct Hf as (F1 & F2 & F3 & F4).
  unfold sum_ok. rewrite F1, F2, F3, F4. exact Hk.
Qed.

Lemma source_sq (a b : state_t) :
  source a = source b -> x_sq_ttl a = x_sq_ttl b /\ sq_buf a = sq_buf b.
Proof. unfold source. intros [= ]. split; assumption. Qed.

Lemma sum_ok_fetch o st :
  ring_ok st -> numchannels st <= MAX_CHANNELS ->
  length (x_sq_ttl st) = 8%nat ->
  sum_ok st -> sum_ok (snd (fetch_next_frame o st)).
Proof.
  intros Hr HC Hx Hk. apply ring_ok_fields in Hr. cbv zeta in Hr.
  destruct Hr as (H1 & HW & Ht & _ & _ & _ & Hl & _ & Hst & _).
  rewrite fetch_next_frame_admitted.
  destruct (admitted_sq st) as (V1 & V2 & V3 & V4 & V5).
  apply params_fields in V1 as (PC & _ & PW & _).
  apply (filter_new_frame_sum o _ (tail_slot st));
    unfold sum_ok; rewrite ?PC, ?PW, ?V2, ?V4, ?V5; try assumption; lia.
Qed.

Lemma sum_ok_reach o f st0 st :
  init_state o f = Some st0 -> 1 <= sf_channels f <= MAX_CHANNELS ->
  1 <= window_of f -> loop_reach o st0 st ->
  sum_ok st /\ length (x_sq_ttl st) = 8%nat.
Proof.
  intros H HC HW Hr. induction Hr as [| st st' Hr IH Hb].
  - split; [eapply sum_ok_init; eassumption |].
    apply init_state_facts in H. split_facts H. exact if_x_len.
  - destruct IH as [Hk Hx].
    pose proof (ring_ok_reach _ _ _ _ H ltac:(lia) HW Hr) as Hring.
    pose proof (loop_reach_params _ _ _ Hr) as Hp.
    apply params_fields in Hp as (PC & _).
    pose proof (init_state_facts _ _ _ H) as Hf. split_facts Hf.
    rewrite if_numchannels in PC.
    apply loop_body_inv in Hb as (s1 & b & Hu & Hf & _).
    pose proof (ring_ok_update _ _ _ Hu Hring) as Hring1.
    apply update_context_keeps in Hu as [Hs Hp1].
    apply params_fields in Hp1 as (QC & _ & QW & _).
    apply source_sq in Hs as [S1 S2].
    assert (Hk1 : sum_ok s1)
      by (unfold sum_ok in *; rewrite QC, QW, S1, S2; exact Hk).
    assert (Hx1 : length (x_sq_ttl s1) = 8%nat) by (rewrite S1; exact Hx).
    pose proof (sum_ok_fetch o s1 Hring1 ltac:(lia) Hx1 Hk1) as Hk2.
    pose proof (fetch_next_frame_lengths o s1) as Hl.
    apply lengths_fields in Hl as (_ & _ & Hl).
    rewrite Hf in Hk2, Hl. cbn [snd] in Hk2, Hl.
    split; [exact Hk2 | congruence].
Qed.

End Exact.

Lemma fetch_input_main st :
  main_buf (snd (fetch_input st))
  = store_frame (main_buf st) (main_buf_tail st) (new_frame st).
Proof.
  split_state st. unfold new_frame. source_eval.
  destruct in_eof, (0 <? frames_remaining), in_file; reflexivity.
Qed.

Lemma admitted_main st :
  ptrs (admitted st)
  = ((main_buf_tail st,
      advance_ptr (main_buf_edge st) (numchannels st) (main_buf_tail st),
      advance_ptr (main_buf_edge st) (numchannels st) (main_buf_cen st)),
     (sq_buf_tail st,
      advance_ptr (sq_buf_edge st) (numchannels st) (sq_buf_tail st),
      advance_ptr (sq_buf_edge st) (numchannels st) (sq_buf_cen st))) /\
  main_buf (admitted st) = main_buf (snd (fetch_input st)).
Proof.
  unfold admitted, fetch_input.
  repeat match goal with
         | |- context [if ?b then _ else _] => destruct b
         | |- context [match in_file ?s with _ => _ end] => destruct (in_file s)
         end; split; reflexivity.
Qed.

Lemma init_read_main o f :
  main_buf (init_read (init_buffers (opened o f)))
  = store_frames (calloc (window_of f) (sizeof_double * sf_channels f))
      (window_of f ÷ 2 * sf_channels f) (sf_channels f)
      (take (Z.to_nat (read_ahead_of f))
         (drop (Z.to_nat (start_frame_idx o)) (sf_frames f))) /\
  numchannels (init_read (init_buffers (opened o f))) = sf_channels f.
Proof. split; reflexivity. Qed.

Lemma finish_main o a :
  main_buf (init_cutting o (init_cursors a)) = main_buf a.
Proof. split_options o. destruct ocpa; reflexivity. Qed.

Lemma length_new_frame st :
  frame_sz st = sizeof_double * numchannels st -> 0 <= numchannels st ->
  Z.of_nat (length (new_frame st)) <= numchannels st.
Proof.
  intros Hf HC. unfold new_frame. rewrite Hf. unfold sizeof_double.
  replace (8 * numchannels st) with (numchannels st * 8) by ring.
  rewrite Z.quot_mul by lia.
  destruct (negb (in_eof st) && (0 <? frames_remaining st));
    [destruct (in_file st) |];
    rewrite ?length_take, ?length_replicate; lia.
Qed.

Lemma load_store_frames_before frs : forall (buf : list double) p n q,
  0 <= n -> q < p -> load (store_frames buf p n frs) q = load buf q.
Proof.
  induction frs as [| fr frs IH]; intros buf p n q Hn Hq; simpl;
    [reflexivity |].
  rewrite IH by lia. apply load_store_frame_out. lia.
Qed.

(** *** The priming loop of [init_state] *)

Lemma prime_step_bufs o s :
  main_buf (prime_step o s) = main_buf (filter_new_frame o s) /\
  sq_buf (prime_step o s) = sq_buf (filter_new_frame o s).
Proof.
  unfold prime_step.
  change (main_buf (set_sq_buf_head ?a (set_main_buf_head ?b ?x)))
    with (main_buf x).
  change (sq_buf (set_sq_buf_head ?a (set_main_buf_head ?b ?x)))
    with (sq_buf x).
  split; reflexivity.
Qed.

Lemma primed_step o st s :
  prime_shape st -> primed o st s -> main_buf_head s < main_buf_edge s ->
  primed o st (prime_step o s).
Proof.
  intros (HC & HS & H0 & LM & LS & LX & (m & Hm))
         (Hp & Hl & (k & Hk & Hh & Hq) & Hle & Out & In) Hlt.
  pose proof (params_fields _ _ Hp)
    as (PC & _ & _ & _ & _ & _ & _ & _ & _ & _ & _ & _ & PE & _).
  pose proof (lengths_fields _ _ Hl) as (BM & BS & BX).
  rewrite PE in Hlt.
  assert (Hkm : k < m) by nia.
  assert (Hfit : main_buf_head s + numchannels st <= main_buf_edge st) by nia.
  pose proof (filter_new_frame_effect o s) as Hfx.
  rewrite PC, BM, BS, BX, Hq, HS, <- Hh in Hfx.
  specialize (Hfx ltac:(lia) ltac:(lia) ltac:(lia) ltac:(lia) ltac:(lia)
                ltac:(lia)).
  destruct Hfx as (_ & _ & _ & Mo & So & _ & Fi).
  rewrite Hq, HS, <- Hh in So, Fi.
  destruct (prime_step_keeps o s) as (Kp & _ & _ & Kl).
  destruct (prime_step_bufs o s) as [Em Es].
  pose proof (prime_step_heads o s) as Hh2.
  pose proof (f_equal fst Hh2) as H1. pose proof (f_equal snd Hh2) as H2.
  cbn [fst snd] in H1, H2. rewrite PC in H1, H2.
  unfold primed. rewrite Kp, Kl, H1, Em, Es.
  split; [exact Hp |]. split; [exact Hl |]. split.
  { exists (k + 1). split; [lia |]. split; lia. }
  split; [lia |]. split.
  - intros q Hq'. rewrite Mo, So by lia. apply Out. lia.
  - intros q Hq'.
    destruct (Z.lt_ge_cases q (main_buf_head s)) as [Hb | Hb].
    + rewrite Mo, So by lia. apply In. lia.
    + destruct (Fi (q - main_buf_head s) ltac:(lia)) as (F1 & _ & F3).
      replace (main_buf_head s + (q - main_buf_head s)) with q in F1, F3
        by lia.
      split; [exact F1 |]. intros Hhp. rewrite (F3 Hhp).
      destruct (Out q ltac:(lia)) as [-> _]. do 2 f_equal.
      replace (q - main_buf_head st)
        with (q - main_buf_head s + k * numchannels st) by lia.
      rewrite Z_mod_plus_full. symmetry. apply Z.mod_small. lia.
Qed.

Lemma primed_filter fuel o st : forall s,
  prime_shape st -> primed o st s ->
  main_buf_edge st - main_buf_head s <= Z.of_nat fuel ->
  primed o st (prime_filter fuel o s) /\
  main_buf_head (prime_filter fuel o s) = main_buf_edge st.
Proof.
  induction fuel as [| fuel IH]; intros s Hs Hi Hf.
  - simpl. split; [exact Hi |].
    destruct Hi as (_ & _ & _ & Hle & _). lia.
  - pose proof Hi as (Hp & _ & _ & Hle & _).
    apply params_fields in Hp
      as (PC & _ & _ & _ & _ & _ & _ & _ & _ & _ & _ & _ & PE & _).
    simpl. destruct (Z.ltb_spec (main_buf_head s) (main_buf_edge s)) as [Hlt | Hge].
    + apply IH; [exact Hs | apply primed_step; assumption |].
      pose proof (prime_step_heads o s) as Hh2.
      apply (f_equal fst) in Hh2. cbn [fst] in Hh2. rewrite Hh2, PC.
      destruct Hs as (HC & _). lia.
    + split; [exact Hi | lia].
Qed.

Lemma primed_start o st :
  main_buf_head st <= main_buf_edge st -> primed o st st.
Proof.
  intros Hle. unfold primed. split; [reflexivity |]. split; [reflexivity |].
  split; [exists 0; repeat split; lia |]. split; [exact Hle |].
  split; [intros q _; split; reflexivity | intros q Hq; lia].
Qed.

Lemma prime_shape_init o f :
  1 <= sf_channels f <= MAX_CHANNELS -> 1 <= window_of f ->
  prime_shape (init_read (init_buffers (opened o f))) /\
  main_buf_head (init_read (init_buffers (opened o f)))
  <= main_buf_edge (init_read (init_buffers (opened o f))).
Proof.
  intros HC HW. unfold MAX_CHANNELS in HC.
  pose proof (init_read_view o f) as Hv. cbv zeta in Hv.
  destruct Hv as (V1 & V2 & V3 & V4 & V5 & V6 & V7).
  destruct (init_read_main o f) as [Hm _].
  pose proof (window_half _ HW) as Hh.
  assert (Hc : Z.of_nat (length (calloc (window_of f)
                                   (sizeof_double * sf_channels f)))
               = window_of f * sf_channels f).
  { unfold calloc, sizeof_double. rewrite length_replicate.
    replace (window_of f * (8 * sf_channels f))
      with (window_of f * sf_channels f * 8) by ring.
    rewrite Z.quot_mul by lia. nia. }
  unfold prime_shape. rewrite V1, V3, V4, V5, V6, V7, Hm.
  rewrite length_store_frames, Hc.
  split; [| nia].
  split; [lia |]. split; [reflexivity |]. split; [nia |].
  split; [reflexivity |]. split; [reflexivity |].
  split; [rewrite length_replicate; unfold MAX_CHANNELS; lia |].
  exists (window_of f - window_of f ÷ 2). ring.
Qed.

Lemma init_prime_primed o s :
  prime_shape s -> main_buf_head s <= main_buf_edge s ->
  primed o s (init_prime o s) /\
  main_buf_head (init_prime o s) = main_buf_edge s.
Proof.
  intros Hs Hle. unfold init_prime.
  apply primed_filter; [exact Hs | apply primed_start, Hle | lia].
Qed.

Lemma length_read_ahead_buf o f :
  1 <= sf_channels f -> 1 <= window_of f ->
  Z.of_nat (length (read_ahead_buf o f)) = window_of f * sf_channels f.
Proof.
  intros HC HW. unfold read_ahead_buf. rewrite length_store_frames.
  unfold calloc, sizeof_double. rewrite length_replicate.
  replace (window_of f * (8 * sf_channels f))
    with (window_of f * sf_channels f * 8) by ring.
  rewrite Z.quot_mul by lia. nia.
Qed.

(** The rings that [init_state] hands over, in terms of the main ring when
    the priming loop starts. *)
Lemma init_state_primed o f st0 :
  init_state o f = Some st0 -> 1 <= sf_channels f <= MAX_CHANNELS ->
  1 <= window_of f ->
  (forall q, ~ (window_of f ÷ 2 * sf_channels f <= q
                < window_of f * sf_channels f) ->
     load (main_buf st0) q = load (read_ahead_buf o f) q /\
     load (sq_buf st0) q = dzero) /\
  (forall q, window_of f ÷ 2 * sf_channels f <= q
             < window_of f * sf_channels f ->
     load (sq_buf st0) q
     = dmul (load (main_buf st0) q) (load (main_buf st0) q) /\
     (high_pass_filter_enabled o = false ->
      load (main_buf st0) q
      = dadd (load (read_ahead_buf o f) q)
          (load (dc_offset o)
             ((q - window_of f ÷ 2 * sf_channels f) mod sf_channels f)))).
Proof.
  intros H HC HW. apply init_state_reads in H. subst st0.
  destruct (prime_shape_init o f HC HW) as [Hs Hle].
  pose proof (init_read_view o f) as Hv. cbv zeta in Hv.
  destruct Hv as (V1 & _ & V3 & V4 & _ & _ & V7).
  destruct (init_read_main o f) as [Hm _]. fold (read_ahead_buf o f) in Hm.
  remember (init_read (init_buffers (opened o f))) as s eqn:Es. clear Es.
  destruct (init_prime_primed o s Hs Hle) as [Hi He].
  destruct (finish_sq o (init_prime o s)) as (_ & _ & _ & F4).
  rewrite F4, finish_main.
  destruct Hi as (_ & _ & _ & _ & Out & In).
  rewrite He, V3, V4, V1, Hm in *. split.
  - intros q Hq. destruct (Out q Hq) as [O1 O2]. split; [exact O1 |].
    rewrite O2, V7. apply load_replicate.
  - intros q Hq. apply In, Hq.
Qed.

(** *** Squares of the resident samples *)

Lemma load_read_ahead_buf_outside o f q :
  1 <= sf_channels f -> 1 <= window_of f ->
  ~ (window_of f ÷ 2 * sf_channels f <= q < window_of f * sf_channels f) ->
  load (read_ahead_buf o f) q = dzero.
Proof.
  intros HC HW Hq.
  destruct (Z.lt_ge_cases q (window_of f ÷ 2 * sf_channels f)) as [Hb | Hb].
  - unfold read_ahead_buf. rewrite load_store_frames_before by lia.
    apply load_replicate.
  - apply load_outside. right. rewrite length_read_ahead_buf by assumption.
    lia.
Qed.

Lemma squares_ok_init o f st0 :
  init_state o f = Some st0 -> 1 <= sf_channels f <= MAX_CHANNELS ->
  1 <= window_of f -> dmul dzero dzero = dzero -> squares_ok st0.
Proof.
  intros H HC HW Hz q.
  destruct (init_state_primed o f st0 H HC HW) as [Out In].
  destruct (decide (window_of f ÷ 2 * sf_channels f <= q
                    < window_of f * sf_channels f)) as [Hq | Hq].
  - apply In, Hq.
  - destruct (Out q Hq) as [-> ->].
    rewrite load_read_ahead_buf_outside by (assumption || lia).
    symmetry. exact Hz.
Qed.

(** What one call of [fetch_next_frame] does to the running sums and to the
    ring of squares: in each channel the square in the tail frame, which is
    the oldest, is taken off the sum and the square of the new sample is
    added; the rest of the ring is as it was. *)
Lemma fetch_next_frame_squares o st :
  ring_ok st -> numchannels st <= Z.of_nat (length (x_sq_ttl st)) ->
  (forall q, ~ (main_buf_tail st <= q < main_buf_tail st + numchannels st) ->
     load (main_buf (snd (fetch_next_frame o st))) q = load (main_buf st) q /\
     load (sq_buf (snd (fetch_next_frame o st))) q = load (sq_buf st) q) /\
  (forall c, 0 <= c < numchannels st ->
     load (sq_buf (snd (fetch_next_frame o st))) (sq_buf_tail st + c)
     = dmul (load (main_buf (snd (fetch_next_frame o st)))
               (main_buf_tail st + c))
         (load (main_buf (snd (fetch_next_frame o st)))
            (main_buf_tail st + c)) /\
     load (x_sq_ttl (snd (fetch_next_frame o st))) c
     = dadd (dsub (load (x_sq_ttl st) c) (load (sq_buf st) (sq_buf_tail st + c)))
         (load (sq_buf (snd (fetch_next_frame o st))) (sq_buf_tail st + c)) /\
     (high_pass_filter_enabled o = false ->
      load (main_buf (snd (fetch_next_frame o st))) (main_buf_tail st + c)
      = dadd (load (store_frame (main_buf st) (main_buf_tail st)
                      (new_frame st)) (main_buf_tail st + c))
          (load (dc_offset o) c))).
Proof.
  intros Hr Hx. apply ring_ok_fields in Hr. cbv zeta in Hr.
  destruct Hr as (H1 & HW & Ht & _ & Hfs & Hlm & Hls & Hmt & Hst & _).
  rewrite fetch_next_frame_admitted.
  destruct (admitted_sq st) as (V1 & V2 & V3 & V4 & V5).
  apply params_fields in V1 as (PC & _).
  destruct (admitted_main st) as [_ Vm]. rewrite fetch_input_main in Vm.
  pose proof (length_new_frame st Hfs ltac:(lia)) as Hn.
  pose proof (filter_new_frame_effect o (admitted st)) as Hfx.
  rewrite PC, V2, V3, V4, V5, Vm, length_store_frame in Hfx.
  specialize (Hfx ltac:(lia) ltac:(nia) ltac:(nia) ltac:(nia) ltac:(nia) Hx).
  destruct Hfx as (_ & _ & _ & Mo & So & _ & Fi).
  rewrite V3, Vm in Mo. rewrite V2, V5 in So.
  rewrite V2, V3, V4, V5, Vm in Fi.
  assert (Hst' : sq_buf_tail st = main_buf_tail st) by lia.
  split.
  - intros q Hq. rewrite Mo, So by lia. split; [| reflexivity].
    apply load_store_frame_out. lia.
  - intros c Hc. destruct (Fi c Hc) as (F1 & F2 & F3).
    split; [exact F1 |]. split; [exact F2 |].
    exact F3.
Qed.

Lemma squares_ok_fetch o st :
  ring_ok st -> numchannels st <= Z.of_nat (length (x_sq_ttl st)) ->
  squares_ok st -> squares_ok (snd (fetch_next_frame o st)).
Proof.
  intros Hr Hx Hk q.
  destruct (fetch_next_frame_squares o st Hr Hx) as [Out In].
  apply ring_ok_fields in Hr. cbv zeta in Hr.
  destruct Hr as (_ & _ & _ & _ & _ & _ & _ & Hmt & Hst & _).
  destruct (decide (main_buf_tail st <= q
                    < main_buf_tail st + numchannels st)) as [Hq | Hq].
  - destruct (In (q - main_buf_tail st) ltac:(lia)) as (F1 & _).
    replace (sq_buf_tail st + (q - main_buf_tail st)) with q in F1 by lia.
    replace (main_buf_tail st + (q - main_buf_tail st)) with q in F1 by lia.
    exact F1.
  - destruct (Out q Hq) as [-> ->]. apply Hk.
Qed.

Lemma source_bufs (a b : state_t) :
  source a = source b ->
  x_sq_ttl a = x_sq_ttl b /\ sq_buf a = sq_buf b /\ main_buf a = main_buf b /\
  sq_buf_tail a = sq_buf_tail b /\ main_buf_tail a = main_buf_tail b.
Proof. unfold source. intros [= ]. repeat split; assumption. Qed.

Lemma x_sq_ttl_length o f st0 st :
  init_state o f = Some st0 -> loop_reach o st0 st ->
  length (x_sq_ttl st) = 8%nat.
Proof.
  intros H Hr. induction Hr as [| st st' Hr IH Hb].
  - apply init_state_facts in H. split_facts H. exact if_x_len.
  - apply loop_body_inv in Hb as (s1 & b & Hu & Hf & _).
    apply update_context_keeps in Hu as [Hs _].
    apply source_bufs in Hs as (S1 & _).
    pose proof (fetch_next_frame_lengths o s1) as Hl.
    apply lengths_fields in Hl as (_ & _ & Hl).
    rewrite Hf in Hl. cbn [snd] in Hl. congruence.
Qed.

Lemma squares_ok_reach o f st0 st :
  init_state o f = Some st0 -> 1 <= sf_channels f <= MAX_CHANNELS ->
  1 <= window_of f -> dmul dzero dzero = dzero ->
  loop_reach o st0 st -> squares_ok st /\ length (x_sq_ttl st) = 8%nat.
Proof.
  intros H HC HW Hz Hr. induction Hr as [| st st' Hr IH Hb].
  - split; [eapply squares_ok_init; eassumption |].
    apply init_state_facts in H. split_facts H. exact if_x_len.
  - destruct IH as [Hk Hx].
    pose proof (ring_ok_reach _ _ _ _ H ltac:(lia) HW Hr) as Hring.
    pose proof (loop_reach_params _ _ _ Hr) as Hp.
    apply params_fields in Hp as (PC & _).
    pose proof (init_state_facts _ _ _ H) as Hf. split_facts Hf.
    rewrite if_numchannels in PC. unfold MAX_CHANNELS in HC.
    apply loop_body_inv in Hb as (s1 & b & Hu & Hf & _).
    pose proof (ring_ok_update _ _ _ Hu Hring) as Hring1.
    apply update_context_keeps in Hu as [Hs Hp1].
    apply params_fields in Hp1 as (QC & _).
    apply source_bufs in Hs as (S1 & S2 & S3 & _).
    assert (Hk1 : squares_ok s1)
      by (intros q; rewrite S2, S3; apply Hk).
    assert (Hx1 : numchannels s1 <= Z.of_nat (length (x_sq_ttl s1)))
      by (rewrite S1, Hx; lia).
    pose proof (squares_ok_fetch o s1 Hring1 Hx1 Hk1) as Hk2.
    pose proof (fetch_next_frame_lengths o s1) as Hl.
    apply lengths_fields in Hl as (_ & _ & Hl).
    rewrite Hf in Hk2, Hl. cbn [snd] in Hk2, Hl.
    split; [exact Hk2 | congruence].
Qed.

(** *** The running sum in an arithmetic that rounds *)

Lemma Rsum_insert (l : list R) (h : nat) old v :
  l !! h = Some old ->
  foldr Rplus 0%R (<[h := v]> l) = (foldr Rplus 0%R l - old + v)%R.
Proof.
  revert h. induction l as [| a t IH]; intros h Hl; [discriminate |].
  destruct h as [| h]; simpl in *.
  - injection Hl as ->. lra.
  - rewrite (IH h Hl). lra.
Qed.

Lemma channel_squares_replace (sq sq' : list double) C W t c :
  0 <= t < W -> 0 <= c < C ->
  (forall q, ~ (t * C <= q < t * C + C) -> load sq' q = load sq q) ->
  channel_squares sq' C W c
  = <[Z.to_nat t := load sq' (t * C + c)]> (channel_squares sq C W c).
Proof.
  intros Ht Hc Ho. apply list_eq. intros i.
  destruct (decide (Z.of_nat i < W)) as [Hi | Hi].
  - rewrite channel_squares_lookup by exact Hi.
    destruct (decide (i = Z.to_nat t)) as [-> | Hne].
    + rewrite list_lookup_insert_eq
        by (rewrite length_channel_squares; lia).
      rewrite Z2Nat.id by lia. reflexivity.
    + rewrite list_lookup_insert_ne by lia.
      rewrite channel_squares_lookup by exact Hi.
      rewrite Ho by nia. reflexivity.
  - rewrite !lookup_ge_None_2; [reflexivity | |];
      rewrite ?length_insert, length_channel_squares; lia.
Qed.

Lemma fetch_next_frame_gap o st c (val : double -> R) (eps : R) :
  ring_ok st -> numchannels st <= Z.of_nat (length (x_sq_ttl st)) ->
  0 <= c < numchannels st ->
  let x := load (x_sq_ttl st) c in
  let old := load (sq_buf st) (sq_buf_tail st + c) in
  let new := load (sq_buf (snd (fetch_next_frame o st)))
               (sq_buf_tail st + c) in
  (Rabs (val (dsub x old) - (val x - val old))
   <= eps * Rabs (val x - val old))%R ->
  (Rabs (val (dadd (dsub x old) new) - (val (dsub x old) + val new))
   <= eps * Rabs (val (dsub x old) + val new))%R ->
  (Rabs (sum_gap val (snd (fetch_next_frame o st)) c - sum_gap val st c)
   <= eps * (Rabs (val (load (x_sq_ttl st) c)
                   - val (load (sq_buf st) (sq_buf_tail st + c)))
             + Rabs (val (dsub (load (x_sq_ttl st) c)
                            (load (sq_buf st) (sq_buf_tail st + c)))
                     + val (load (sq_buf (snd (fetch_next_frame o st)))
                              (sq_buf_tail st + c)))))%R.
Proof.
  intros Hr Hx Hc x0 old0 new0 Hsub Hadd. subst x0 old0 new0.
  destruct (fetch_next_frame_squares o st Hr Hx) as [Out In].
  destruct (In c Hc) as (_ & F2 & _).
  apply ring_ok_fields in Hr. cbv zeta in Hr.
  destruct Hr as (H1 & HW & Ht & _ & _ & _ & _ & Hmt & Hst & _).
  pose proof (fetch_next_frame_params o st) as Hp.
  apply params_fields in Hp as (PC & _ & PW & _).
  unfold sum_gap, window_sum. rewrite PC, PW, F2.
  rewrite (channel_squares_replace (sq_buf st)
             (sq_buf (snd (fetch_next_frame o st)))
             (numchannels st) (rms_window_len st) (tail_slot st) c Ht Hc)
    by (intros q Hq; apply Out; lia).
  rewrite list_fmap_insert.
  rewrite (Rsum_insert _ _ (val (load (sq_buf st) (sq_buf_tail st + c))))
    by (rewrite list_lookup_fmap, channel_squares_lookup,
          Z2Nat.id, Hst by lia; reflexivity).
  rewrite <- Hst.
  set (x := load (x_sq_ttl st) c).
  set (old := load (sq_buf st) (sq_buf_tail st + c)).
  set (new := load (sq_buf (snd (fetch_next_frame o st)))
                (sq_buf_tail st + c)).
  set (S := foldr Rplus 0%R _).
  replace (val (dadd (dsub x old) new) - (S - val old + val new)
           - (val x - S))%R
    with ((val (dadd (dsub x old) new) - (val (dsub x old) + val new))
          + (val (dsub x old) - (val x - val old)))%R by lra.
  eapply Rle_trans; [apply Rabs_triang |].
  fold x old new in Hsub, Hadd. lra.
Qed.

(** C7.  In every tick of a run of 1 to 8 channels, for every channel [c]:
    in exact arithmetic the accumulator [x_sq_ttl[c]] is the sum of the [W]
    squares that the ring [sq_buf] holds for [c]; each slot of [sq_buf]
    holds the square of the sample in the same slot of the main ring; and
    the call of [fetch_next_frame] in this tick keeps the sum up to date by
    subtracting the square in the tail frame, which is the oldest, before it
    adds the square of the new sample that replaces it, the rest of the ring
    being left alone.  In an arithmetic that rounds: when the subtraction
    and the addition of this call are each within a relative error [eps] of
    the exact difference and sum, the call moves the accumulator away from
    the exact sum of the ring by at most one rounding error for each of the
    two operations. *)
Theorem running_sum o f st0 st c :
  init_state o f = Some st0 -> 1 <= sf_channels f <= MAX_CHANNELS ->
  20 <= sf_samplerate f -> loop_reach o st0 st -> 0 <= c < numchannels st ->
  (ExactArith D ->
   load (x_sq_ttl st) c
   = dsum (channel_squares (sq_buf st) (numchannels st) (rms_window_len st) c))
  /\
  (dmul dzero dzero = dzero ->
   forall q, load (sq_buf st) q
             = dmul (load (main_buf st) q) (load (main_buf st) q)) /\
  (forall s1, update_context o st = Some s1 ->
     let st' := snd (fetch_next_frame o s1) in
     let x := load (x_sq_ttl st) c in
     let old := load (sq_buf st) (sq_buf_tail st + c) in
     let new := load (sq_buf st') (sq_buf_tail st + c) in
     load (x_sq_ttl st') c = dadd (dsub x old) new /\
     new = dmul (load (main_buf st') (main_buf_tail st + c))
             (load (main_buf st') (main_buf_tail st + c)) /\
     (forall q, ~ (sq_buf_tail st <= q < sq_buf_tail st + numchannels st) ->
        load (sq_buf st') q = load (sq_buf st) q) /\
     (forall (val : double -> R) (eps : R),
        (Rabs (val (dsub x old) - (val x - val old))
         <= eps * Rabs (val x - val old))%R ->
        (Rabs (val (dadd (dsub x old) new) - (val (dsub x old) + val new))
         <= eps * Rabs (val (dsub x old) + val new))%R ->
        (Rabs (sum_gap val st' c - sum_gap val st c)
         <= eps * (Rabs (val x - val old)
                   + Rabs (val (dsub x old) + val new)))%R)).
Proof.
  intros Hi HC HR Hr Hc.
  pose proof (window_of_pos f HR) as HW.
  pose proof (ring_ok_reach _ _ _ _ Hi ltac:(lia) HW Hr) as Hring.
  split; [intros E; apply (sum_ok_reach E _ _ _ _ Hi HC HW Hr), Hc |].
  split; [intros Hz; apply (squares_ok_reach _ _ _ _ Hi HC HW Hz Hr) |].
  intros s1 Hu st' x old new.
  pose proof (x_sq_ttl_length _ _ _ _ Hi Hr) as Hx.
  pose proof (ring_ok_update _ _ _ Hu Hring) as Hring1.
  apply update_context_keeps in Hu as [Hs Hp1].
  apply params_fields in Hp1 as (QC & _ & QW & _).
  apply source_bufs in Hs as (S1 & S2 & S3 & S4 & S5).
  pose proof (loop_reach_params _ _ _ Hr) as Hp.
  apply params_fields in Hp as (PC & _).
  pose proof (init_state_facts _ _ _ Hi) as Hf. split_facts Hf.
  rewrite if_numchannels in PC. unfold MAX_CHANNELS in HC.
  assert (Hx1 : numchannels s1 <= Z.of_nat (length (x_sq_ttl s1)))
    by (rewrite S1, Hx; lia).
  destruct (fetch_next_frame_squares o s1 Hring1 Hx1) as [Out In].
  destruct (In c ltac:(lia)) as (F1 & F2 & _).
  subst st' x old new. rewrite <- S1, <- S2, <- S4, <- S5, <- QC.
  split; [exact F2 |]. split; [exact F1 |].
  split.
  { intros q Hq. pose proof (ring_ok_fields _ Hring1) as Hg.
    cbv zeta in Hg.
    destruct Hg as (_ & _ & _ & _ & _ & _ & _ & Hmt & Hst & _).
    apply Out. lia. }
  intros val eps Hsub Hadd.
  replace (sum_gap val st c) with (sum_gap val s1 c)
    by (unfold sum_gap; rewrite S1, S2, QC, QW; reflexivity).
  apply (fetch_next_frame_gap o s1 c val eps Hring1 Hx1 ltac:(lia) Hsub Hadd).
Qed.

End RunningSum.

Section PassThrough.
Context {D : DoubleOps}.

Lemma load_store_cases (buf : list double) p q v :
  load (store buf p v) q = v \/ load (store buf p v) q = load buf q.
Proof.
  destruct (Z.eq_dec p q) as [<- | Hne]; [| right; apply load_store_ne, Hne].
  destruct (decide (0 <= p < Z.of_nat (length buf))) as [Hin | Hout].
  - left. apply load_store_eq, Hin.
  - right. f_equal. unfold store. destruct (Z.ltb_spec p 0); [reflexivity |].
    apply list_insert_ge. lia.
Qed.

Lemma length_input_frame f p :
  framed f -> length (input_frame f p) = Z.to_nat (sf_channels f).
Proof.
  intros Hw. unfold input_frame.
  destruct (sf_frames f !! Z.to_nat p) as [fr |] eqn:E.
  - unfold framed in Hw. rewrite Forall_forall in Hw.
    apply Hw. eapply list_elem_of_lookup_2. exact E.
  - apply length_replicate.
Qed.

Lemma length_passed_frame f p :
  framed f -> length (passed_frame f p) = Z.to_nat (sf_channels f).
Proof.
  intros Hw. unfold passed_frame. rewrite length_fmap.
  apply length_input_frame, Hw.
Qed.

(** A frame of the main ring whose samples are those of another frame plus
    zero. *)
Lemma load_frame_plus_zero (buf : list double) p (fr : list double) :
  (forall i, (i < length fr)%nat ->
     load buf (p + Z.of_nat i) = plus_zero (nth i fr dzero)) ->
  load_frame buf p (Z.of_nat (length fr)) = plus_zero <$> fr.
Proof.
  intros H. apply list_eq. intros i.
  destruct (decide (i < length fr)%nat) as [Hi | Hi].
  - rewrite load_frame_lookup by lia. rewrite H by exact Hi.
    rewrite list_lookup_fmap.
    destruct (lookup_lt_is_Some_2 fr i Hi) as [x Hx].
    rewrite Hx. cbn. rewrite nth_lookup, Hx. reflexivity.
  - rewrite !lookup_ge_None_2; [reflexivity | |];
      rewrite ?length_fmap, ?length_load_frame; lia.
Qed.

End PassThrough.

Section PassThrough64.
#[local] Existing Instance Binary64.ops.

(** In binary64 a sample plus zero is the sample, but for negative zero,
    which becomes positive zero. *)
Lemma plus_zero_binary64 (x : float) : plus_zero x = drop_zero_sign x.
Proof.
  unfold plus_zero, drop_zero_sign. cbn [dadd dzero Binary64.ops].
  apply Prim2SF_inj. rewrite add_spec.
  change (Prim2SF 0) with (S754_zero false).
  destruct (Prim2SF x) as [[|] | [|] | | s m e] eqn:E;
    try (rewrite E; reflexivity); reflexivity.
Qed.

Lemma clean_binary64 (x : float) :
  Prim2SF x <> S754_zero true -> clean x.
Proof.
  intros H. unfold clean. rewrite plus_zero_binary64. unfold drop_zero_sign.
  destruct (Prim2SF x) as [[|] | | |]; congruence.
Qed.

End PassThrough64.

Section Content.
Context {D : DoubleOps}.

Lemma load_frame_replicate n p C :
  load_frame (replicate n dzero) p C = replicate (Z.to_nat C) dzero.
Proof.
  apply list_eq. intros i.
  destruct (decide (i < Z.to_nat C)%nat) as [Hi | Hi].
  - rewrite load_frame_lookup by exact Hi.
    rewrite load_replicate. symmetry. apply lookup_replicate_2. exact Hi.
  - rewrite !lookup_ge_None_2; [reflexivity | |];
      rewrite ?length_replicate, ?length_load_frame; lia.
Qed.

Lemma load_frame_store_frames_before frs : forall (buf : list double) p C q n,
  0 <= C -> q + n <= p ->
  load_frame (store_frames buf p C frs) q n = load_frame buf q n.
Proof.
  induction frs as [| fr frs IH]; intros buf p C q n HC Hq; simpl;
    [reflexivity |].
  rewrite IH by lia. apply load_frame_store_frame_out. lia.
Qed.

Lemma load_frame_store_frames_at frs : forall (buf : list double) p C (j : nat),
  0 <= p -> 0 <= C ->
  Forall (fun fr => length fr = Z.to_nat C) frs ->
  p + Z.of_nat (length frs) * C <= Z.of_nat (length buf) ->
  load_frame (store_frames buf p C frs) (p + Z.of_nat j * C) C
  = match frs !! j with
    | Some fr => fr
    | None => load_frame buf (p + Z.of_nat j * C) C
    end.
Proof.
  induction frs as [| fr frs IH]; intros buf p C j Hp HC Hf Hl;
    [reflexivity |].
  apply Forall_cons in Hf as [Hfr Hf]. simpl length in Hl.
  assert (Ht : take (Z.to_nat C) fr = fr) by (apply take_ge; lia).
  simpl store_frames. rewrite Ht. destruct j as [| j].
  - rewrite Z.mul_0_l, Z.add_0_r.
    rewrite load_frame_store_frames_before by lia.
    change ((fr :: frs) !! 0%nat) with (Some fr).
    transitivity (load_frame (store_frame buf p fr) p (Z.of_nat (length fr)));
      [f_equal; lia | apply load_store_frame; lia].
  - replace (p + Z.of_nat (S j) * C) with (p + C + Z.of_nat j * C) by lia.
    rewrite IH; [| lia | lia | exact Hf | rewrite length_store_frame; lia].
    simpl. destruct (frs !! j); [reflexivity |].
    apply load_frame_store_frame_out. nia.
Qed.

Lemma content_ok_ext f (a b : state_t) :
  source a = source b -> params a = params b ->
  content_ok f a -> content_ok f b.
Proof.
  destruct a, b. unfold source, params, content_ok, tail_slot. state_eval.
  intros [= ] [= ]. subst. auto.
Qed.

Lemma ring_ok_edges st :
  ring_ok st ->
  main_buf_edge st = rms_window_len st * numchannels st /\
  sq_buf_edge st = rms_window_len st * numchannels st.
Proof.
  unfold ring_ok, ring_pred, params, ptrs, buf_lengths, ring_at.
  intros (_ & _ & _ & H1 & H2 & _). split; assumption.
Qed.

(** The frame admitted by a call that returns [TRUE] is the frame of the
    recording at the read position. *)
Lemma new_frame_spec o f st :
  ring_ok st -> numchannels st = sf_channels f ->
  framed f -> content_ok f st ->
  fst (fetch_next_frame o st) = true ->
  new_frame st
  = input_frame f (cur_frame_pos st
                   + (rms_window_len st - rms_window_len st ÷ 2)).
Proof.
  intros Hr HC Hw (Hp & _ & Hb & Hc) Ht.
  apply ring_ok_fields in Hr. cbv zeta in Hr.
  destruct Hr as (H1 & HW & _ & _ & Hfs & _).
  pose proof (window_half _ HW) as Hh.
  pose proof (fetch_next_frame_counters o st) as Hs.
  apply (f_equal fst) in Hs. cbn [fst] in Hs. rewrite Ht in Hs.
  unfold counters, source_step in Hs. unfold new_frame, input_frame.
  rewrite Hfs. unfold sizeof_double.
  replace (8 * numchannels st) with (numchannels st * 8) by ring.
  rewrite Z.quot_mul by lia. rewrite <- HC.
  destruct (in_eof st).
  - specialize (Hc eq_refl). cbn [negb andb].
    rewrite lookup_ge_None_2 by lia. reflexivity.
  - specialize (Hb eq_refl). cbn [negb andb] in *.
    destruct (0 <? frames_remaining st); [| discriminate Hs].
    destruct (in_file st) as [| fr rest] eqn:Ef.
    + symmetry in Hb. apply drop_nil_inv in Hb.
      rewrite lookup_ge_None_2 by lia. reflexivity.
    + assert (El : sf_frames f
                   !! Z.to_nat (cur_frame_pos st
                        + (rms_window_len st - rms_window_len st ÷ 2))
                   = Some fr).
      { pose proof (lookup_drop (sf_frames f)
                      (Z.to_nat (cur_frame_pos st
                         + (rms_window_len st - rms_window_len st ÷ 2))) 0)
          as Hd.
        rewrite <- Hb in Hd. rewrite Nat.add_0_r in Hd. symmetry. exact Hd. }
      rewrite El. apply take_ge.
      unfold framed in Hw. rewrite Forall_forall in Hw.
      rewrite (Hw fr (list_elem_of_lookup_2 _ _ _ El)).
      rewrite HC. lia.
Qed.

(** With the filter off and no DC offset, [fetch_next_frame] puts the new
    frame, each sample plus zero, in the tail slot and leaves the other
    slots of the main ring as they were. *)
Lemma fetch_next_frame_main o st :
  ring_ok st -> numchannels st <= Z.of_nat (length (x_sq_ttl st)) ->
  high_pass_filter_enabled o = false ->
  (forall c, 0 <= c < numchannels st -> load (dc_offset o) c = dzero) ->
  length (new_frame st) = Z.to_nat (numchannels st) ->
  load_frame (main_buf (snd (fetch_next_frame o st)))
    (tail_slot st * numchannels st) (numchannels st)
  = plus_zero <$> new_frame st /\
  (forall s, 0 <= s < rms_window_len st -> s <> tail_slot st ->
     load_frame (main_buf (snd (fetch_next_frame o st)))
       (s * numchannels st) (numchannels st)
     = load_frame (main_buf st) (s * numchannels st) (numchannels st)).
Proof.
  intros Hr Hx Hhp Hdc Hlen.
  destruct (fetch_next_frame_squares o st Hr Hx) as [Out In].
  apply ring_ok_fields in Hr. cbv zeta in Hr.
  destruct Hr as (H1 & HW & Ht & _ & _ & Hlm & _ & Hmt & _).
  rewrite <- Hmt. split.
  - replace (numchannels st) with (Z.of_nat (length (new_frame st))) at 1
      by lia.
    apply load_frame_plus_zero. intros i Hi.
    destruct (In (Z.of_nat i) ltac:(lia)) as (_ & _ & F3).
    rewrite (F3 Hhp), Hdc by lia.
    rewrite load_store_frame_in by (lia || nia). reflexivity.
  - intros s Hs Hne. apply load_frame_ext. intros i Hi.
    apply Out. nia.
Qed.

Lemma content_ok_fetch o f st :
  ring_ok st -> numchannels st = sf_channels f ->
  numchannels st <= Z.of_nat (length (x_sq_ttl st)) ->
  high_pass_filter_enabled o = false ->
  (forall c, 0 <= c < sf_channels f -> load (dc_offset o) c = dzero) ->
  framed f -> content_ok f st ->
  fst (fetch_next_frame o st) = true ->
  content_ok f (snd (fetch_next_frame o st)).
Proof.
  intros Hr HC Hx Hhp Hdc Hw Hk Ht.
  pose proof (new_frame_spec o f st Hr HC Hw Hk Ht) as Hn.
  pose proof (ring_ok_edges st Hr) as [He _].
  pose proof (ring_ok_fields st Hr) as Hf. cbv zeta in Hf.
  destruct Hf as (H1 & HW & Htl & _ & _ & Hlm & _ & Hmt & _).
  pose proof (window_half _ HW) as Hh.
  assert (Hlen : length (new_frame st) = Z.to_nat (numchannels st))
    by (rewrite Hn, HC; apply length_input_frame, Hw).
  destruct (fetch_next_frame_main o st Hr Hx Hhp
              ltac:(intros c Hc; apply Hdc; lia) Hlen) as [Hnew Hold].
  destruct Hk as (Hp & Ha & Hb & Hc).
  (* the cursors and the counters after the call *)
  pose proof (fetch_next_frame_ptrs o st) as Hq.
  apply (f_equal fst) in Hq. cbn [fst] in Hq. unfold ptrs in Hq.
  cbn [fst] in Hq. injection Hq as _ Hq _.
  rewrite He, Hmt, advance_ptr_slot in Hq by lia.
  pose proof (fetch_next_frame_params o st) as Hpp.
  apply params_fields in Hpp as (PC & _ & PW & _).
  pose proof (fetch_next_frame_pos o st) as Hpos.
  pose proof (fetch_next_frame_counters o st) as Hs.
  rewrite Ht in Hs.
  assert (Hts : tail_slot (snd (fetch_next_frame o st))
                = wrap (rms_window_len st) (tail_slot st + 1)).
  { unfold tail_slot at 1. rewrite Hq, PC. apply Z.quot_mul. lia. }
  unfold content_ok. rewrite Hts, PC, PW, Hpos.
  split; [lia |].
  split; [| split].
  - intros i Hi.
    destruct (Z.eq_dec i (rms_window_len st - 1)) as [-> | Hne].
    + replace (wrap (rms_window_len st)
                 (wrap (rms_window_len st) (tail_slot st + 1)
                  + (rms_window_len st - 1)))
        with (tail_slot st) by (unfold wrap; case_ltb; lia).
      rewrite Hnew, Hn. unfold passed_frame. do 2 f_equal. lia.
    + replace (wrap (rms_window_len st)
                 (wrap (rms_window_len st) (tail_slot st + 1) + i))
        with (wrap (rms_window_len st) (tail_slot st + (i + 1)))
        by (unfold wrap; case_ltb; lia).
      assert (Hs' : wrap (rms_window_len st) (tail_slot st + (i + 1))
                    <> tail_slot st) by (unfold wrap; case_ltb; lia).
      assert (Hrg : 0 <= wrap (rms_window_len st) (tail_slot st + (i + 1))
                    < rms_window_len st) by (apply wrap_range; lia).
      rewrite Hold by assumption.
      rewrite Ha by lia. f_equal. lia.
  - intros He'. unfold counters at 2 in Hs. unfold source_step in Hs.
    destruct (in_eof st) eqn:Ee; cbn [negb andb] in Hs.
    + destruct (0 <? frames_remaining st); [| discriminate Hs].
      apply (f_equal snd) in Hs. cbn [snd] in Hs.
      apply counters_fields in Hs as (_ & Hs & _). congruence.
    + specialize (Hb eq_refl).
      destruct (0 <? frames_remaining st); [| discriminate Hs].
      destruct (in_file st) as [| fr rest] eqn:Ef;
        apply (f_equal snd) in Hs; cbn [snd] in Hs.
      * apply counters_fields in Hs as (_ & Hs & _). congruence.
      * apply counters_fields in Hs as (Hs & _). rewrite Hs.
        replace (Z.to_nat (cur_frame_pos st + 1
                   + (rms_window_len st - rms_window_len st ÷ 2)))
          with (Z.to_nat (cur_frame_pos st
                   + (rms_window_len st - rms_window_len st ÷ 2)) + 1)%nat
          by lia.
        rewrite <- drop_drop, <- Hb. reflexivity.
  - intros He'. unfold counters at 2 in Hs. unfold source_step in Hs.
    destruct (in_eof st) eqn:Ee; cbn [negb andb] in Hs.
    + specialize (Hc eq_refl). lia.
    + specialize (Hb eq_refl).
      destruct (0 <? frames_remaining st); [| discriminate Hs].
      destruct (in_file st) as [| fr rest] eqn:Ef;
        apply (f_equal snd) in Hs; cbn [snd] in Hs.
      * symmetry in Hb. apply drop_nil_inv in Hb. lia.
      * apply counters_fields in Hs as (_ & Hs & _). congruence.
Qed.

End Content.

Section ContentReach.
Context {D : DoubleOps}.

Lemma read_ahead_of_eq f :
  1 <= sf_channels f -> read_ahead_of f = window_of f - window_of f ÷ 2.
Proof.
  intros HC. unfold read_ahead_of.
  replace (window_of f * sf_channels f - window_of f ÷ 2 * sf_channels f)
    with ((window_of f - window_of f ÷ 2) * sf_channels f) by ring.
  apply Z.quot_mul. lia.
Qed.

Lemma load_frame_fmap (g : double -> double) (a b : list double) p n :
  (forall k, 0 <= k < n -> load a (p + k) = g (load b (p + k))) ->
  load_frame a p n = g <$> load_frame b p n.
Proof.
  intros H. unfold load_frame. rewrite <- list_fmap_compose.
  apply list_fmap_ext. intros i x Hx. apply lookup_seqZ in Hx as [-> Hi].
  cbn. apply H. lia.
Qed.

Lemma content_ok_init o f st0 :
  init_state o f = Some st0 -> 1 <= sf_channels f <= MAX_CHANNELS ->
  1 <= window_of f -> 0 <= start_frame_idx o ->
  high_pass_filter_enabled o = false ->
  (forall c, 0 <= c < sf_channels f -> load (dc_offset o) c = dzero) ->
  framed f -> content_ok f st0.
Proof.
  intros H HC HW Hs Hhp Hdc Hw.
  pose proof (init_state_facts _ _ _ H) as Hf.
  destruct (init_state_primed o f st0 H HC HW) as [_ In].
  pose proof (window_half _ HW) as Hh.
  pose proof (read_ahead_of_eq f ltac:(lia)) as Hra.
  assert (Hfr : Forall (fun fr => length fr = Z.to_nat (sf_channels f))
                  (take (Z.to_nat (read_ahead_of f))
                     (drop (Z.to_nat (start_frame_idx o)) (sf_frames f))))
    by (apply Forall_take, Forall_drop; exact Hw).
  split_facts Hf. unfold content_ok, tail_slot.
  rewrite if_pos, if_window, if_numchannels, if_main_tail, if_in_eof,
    if_in_file.
  rewrite Z.quot_0_l by lia.
  split; [exact Hs |]. split; [| split; [| discriminate]].
  - intros i Hi. rewrite Z.add_0_l.
    replace (wrap (window_of f) i) with i by (unfold wrap; case_ltb; lia).
    rewrite (load_frame_fmap plus_zero _ (read_ahead_buf o f)).
    2:{ intros k Hk. destruct (In (i * sf_channels f + k) ltac:(nia))
          as [_ F].
        rewrite (F Hhp), Hdc; [reflexivity |].
        apply Z.mod_pos_bound. lia. }
    unfold passed_frame. f_equal. unfold read_ahead_buf.
    replace (i * sf_channels f)
      with (window_of f ÷ 2 * sf_channels f
            + Z.of_nat (Z.to_nat (i - window_of f ÷ 2)) * sf_channels f)
      by (rewrite Z2Nat.id by lia; ring).
    rewrite load_frame_store_frames_at; [| nia | lia | exact Hfr |].
    + rewrite lookup_take_lt by lia. rewrite lookup_drop.
      unfold input_frame.
      replace (Z.to_nat (start_frame_idx o + i - window_of f ÷ 2))
        with (Z.to_nat (start_frame_idx o)
              + Z.to_nat (i - window_of f ÷ 2))%nat by lia.
      destruct (sf_frames f !! _); [reflexivity |].
      apply load_frame_replicate.
    + unfold calloc, sizeof_double. rewrite length_replicate.
      replace (window_of f * (8 * sf_channels f))
        with (window_of f * sf_channels f * 8) by ring.
      rewrite Z.quot_mul by lia.
      pose proof (firstn_le_length (Z.to_nat (read_ahead_of f))
                    (drop (Z.to_nat (start_frame_idx o)) (sf_frames f))).
      nia.
  - intros _. rewrite drop_drop. f_equal. lia.
Qed.

Lemma content_ok_reach o f st0 st :
  init_state o f = Some st0 -> 1 <= sf_channels f <= MAX_CHANNELS ->
  1 <= window_of f -> 0 <= start_frame_idx o ->
  high_pass_filter_enabled o = false ->
  (forall c, 0 <= c < sf_channels f -> load (dc_offset o) c = dzero) ->
  framed f ->
  loop_reach o st0 st -> content_ok f st.
Proof.
  intros H HC HW Hs Hhp Hdc Hw Hr.
  induction Hr as [| st st' Hr IH Hb].
  - eapply content_ok_init; eassumption.
  - pose proof (ring_ok_reach _ _ _ _ H ltac:(lia) HW Hr) as Hring.
    pose proof (x_sq_ttl_length _ _ _ _ H Hr) as Hx.
    pose proof (loop_reach_params _ _ _ Hr) as Hp.
    apply params_fields in Hp as (PC & _).
    pose proof (init_state_facts _ _ _ H) as Hf. split_facts Hf.
    rewrite if_numchannels in PC. unfold MAX_CHANNELS in HC.
    apply loop_body_inv in Hb as (s1 & b & Hu & Hf & Hm).
    symmetry in Hm. apply andb_true_iff in Hm as [-> _].
    pose proof (ring_ok_update _ _ _ Hu Hring) as Hring1.
    apply update_context_keeps in Hu as [Hsrc Hp1].
    pose proof (params_fields _ _ Hp1) as (QC & _).
    pose proof (source_bufs _ _ Hsrc) as (S1 & _).
    assert (Hk1 : content_ok f s1)
      by (eapply content_ok_ext; [symmetry; exact Hsrc | symmetry; exact Hp1 | exact IH]).
    pose proof (content_ok_fetch o f s1 Hring1 ltac:(congruence)
                  ltac:(rewrite S1, Hx; lia) Hhp Hdc Hw Hk1)
      as Hk2.
    rewrite Hf in Hk2. apply Hk2. reflexivity.
Qed.

(** The centre frame in a run with the filter off and zero DC offsets, in
    whatever arithmetic [double] stands for: the frame of the recording at
    the current position, each sample plus zero. *)
Lemma centre_frame_passed o f st0 st :
  init_state o f = Some st0 -> 1 <= sf_channels f <= MAX_CHANNELS ->
  20 <= sf_samplerate f -> 0 <= start_frame_idx o ->
  high_pass_filter_enabled o = false ->
  (forall c, 0 <= c < sf_channels f -> load (dc_offset o) c = dzero) ->
  framed f -> loop_reach o st0 st ->
  centre_frame st = passed_frame f (cur_frame_pos st).
Proof.
  intros H HC HR Hs Hhp Hdc Hw Hr.
  pose proof (window_of_pos f HR) as HW.
  pose proof (content_ok_reach _ _ _ _ H HC HW Hs Hhp Hdc Hw Hr)
    as (_ & Ha & _).
  pose proof (ring_ok_reach _ _ _ _ H ltac:(lia) HW Hr) as Hring.
  apply ring_ok_fields in Hring. cbv zeta in Hring.
  destruct Hring as (_ & HW' & _ & _ & _ & _ & _ & _ & _ & _ & _ & Hcen & _).
  pose proof (window_half _ HW') as Hh.
  unfold centre_frame. rewrite Hcen. rewrite Ha by lia. f_equal. lia.
Qed.


End ContentReach.

Section ContentReach64.
#[local] Existing Instance Binary64.ops.


End ContentReach64.

Section Totality.
Context {D : DoubleOps}.

Lemma init_state_start o f :
  start_frame_idx o <= Z.of_nat (length (sf_frames f)) ->
  init_state o f = Some (start_state o f).
Proof.
  intros Hs. unfold init_state, start_state.
  assert (E : open_input_file o f (set_cur_track_num 1 zero_state)
              = Some (opened o f)).
  { revert Hs. split_options o.
    cbv beta iota zeta delta [open_input_file mbind option_bind opened
                                zero_state].
    state_eval. intros Hs.
    destruct (Z.ltb_spec 0 start_frame_idx) as [Hp | Hp].
    - destruct (Z.ltb_spec (Z.of_nat (length (sf_frames f))) start_frame_idx);
        [lia | reflexivity].
    - replace (Z.to_nat start_frame_idx) with O by lia. reflexivity. }
  rewrite E. reflexivity.
Qed.

(** The call in which the codec reports end-of-file. *)
Lemma eof_report o st :
  in_eof st = false -> in_file st = [] -> 0 < frames_remaining st ->
  fst (fetch_next_frame o st) = true /\
  in_eof (snd (fetch_next_frame o st)) = true /\
  frames_remaining (snd (fetch_next_frame o st))
  = Z.min (ra_frame_cnt st) (frames_remaining st - 1).
Proof.
  intros He Hf Hr.
  pose proof (fetch_next_frame_counters o st) as Hc.
  unfold counters at 2 in Hc. unfold source_step in Hc.
  rewrite He, Hf in Hc. cbn [negb andb] in Hc.
  destruct (Z.ltb_spec 0 (frames_remaining st)); [| lia].
  pose proof (f_equal fst Hc) as Hb. apply (f_equal snd) in Hc.
  cbn [fst snd] in Hb, Hc.
  apply counters_fields in Hc as (_ & C2 & C3 & _).
  split; [exact Hb |]. split; [exact C2 |]. rewrite C3. case_ltb; lia.
Qed.

End Totality.

Section TrackRange.
Context {D : DoubleOps}.

(** C4.  [parse_track_range] compares the frame range, not the track range
    it has just parsed: an argument with one hyphen and two well-formed
    boundaries is accepted whenever the frame range held in the options is
    in order, whatever the order of the two track numbers. *)
Theorem track_range_unchecked (optarg a b : string) (s e : Z) (o : options_t) :
  split_range optarg = Some (a, b) ->
  parse_int_boundary a 1 = Some s ->
  parse_int_boundary b INT_MAX = Some e ->
  start_frame_idx o <= end_frame_idx o ->
  parse_track_range optarg o
  = Some (set_track_range (int_of_sf_count s) (int_of_sf_count e) o).
Proof.
  intros Hs Ha Hb Ho. unfold parse_track_range. rewrite Hs, Ha. simpl.
  rewrite Hb. simpl.
  destruct (Z.ltb_spec (end_frame_idx o) (start_frame_idx o)); [lia |].
  reflexivity.
Qed.

End TrackRange.

Section Examples64.
#[local] Existing Instance Binary64.ops.
Import Samples64.

Lemma track_range_unchecked_witness :
  parse_track_range "5-2" init_options = Some (set_track_range 5 2 init_options).
Proof.
  apply (track_range_unchecked "5-2" "5" "2" 5 2 init_options);
    vm_compute; first [reflexivity | discriminate].
Defined.

(** The sibling [parse_frame_range] rejects the same argument. *)
Lemma frame_range_reversed : parse_frame_range "5-2" init_options = None.
Proof. reflexivity. Qed.

Lemma track_counter_forced_end :
  match run_cutter 200 init_options song with
  | Finished stf => ends stf = 1 /\ cur_track_num stf <> 1 + ends stf
  | _ => False
  end.
Proof. vm_compute. split; [reflexivity | discriminate]. Qed.

Lemma track_counter_witness :
  let o := quick_options CPA_LOG_POINT in
  let stf := final_state 400 o encore in
  ends stf = 2 /\ cur_track_num stf = 2 /\
  exists st0 st',
    init_state o encore = Some st0 /\ stf = cutter_exit o st' /\
    (forall st s1,
       loop_reach o st0 st -> update_context o st = Some s1 ->
       (ends s1 = ends st /\ cur_track_num s1 = cur_track_num st \/
        ends s1 = ends st + 1 /\ cur_track_num s1 = cur_track_num st + 1) /\
       ends (snd (fetch_next_frame o s1)) = ends s1 /\
       cur_track_num (snd (fetch_next_frame o s1)) = cur_track_num s1) /\
    ends st0 = 0 /\
    cur_track_num st' = cur_track_num st0 + ends st' /\
    cur_track_num stf = cur_track_num st' /\
    ends stf
    = ends st' + (if (frames_remaining st' =? 0) && in_track st' then 1 else 0).
Proof.
  intros o stf.
  split; [vm_compute; reflexivity |]. split; [vm_compute; reflexivity |].
  apply (track_counter o encore 400). vm_compute. reflexivity.
Defined.

Lemma lockout_forced_end :
  match run_cutter 200 init_options song with
  | Finished stf =>
      exists r, cuts_file stf = [r] /\
                row_end r < row_start r + min_track_len stf
  | _ => False
  end.
Proof. vm_compute. eexists. split; reflexivity. Qed.

Lemma lockout_witness :
  let o := quick_options CPA_LOG_POINT in
  let st := tick_state 128 o song in
  (ends (updated o st) <> ends st ->
   cut_context st = CCTX_TRACK_ENDING /\
   cur_track_start st + min_track_len st <= cur_frame_pos st) /\
  Forall (row_ok (min_track_len st)) (cuts_file (updated o st)).
Proof.
  intros o st.
  apply (lockout o song (start_state o song) st (updated o st)).
  - vm_compute. reflexivity.
  - apply (ticks_reach 128). vm_compute. reflexivity.
  - vm_compute. reflexivity.
Defined.

Lemma centre_lag_parity :
  (exists st0,
     init_state init_options dat48 = Some st0 /\ in_eof st0 = false /\
     cur_frame_pos st0
     <> head_frame_index init_options st0 - window_of dat48 ÷ 2) /\
  (exists st0,
     init_state init_options cd44 = Some st0 /\ in_eof st0 = false /\
     cur_frame_pos st0
     <> read_position init_options st0 - window_of cd44 ÷ 2).
Proof.
  split.
  - exists (start_state init_options dat48).
    assert (H : init_state init_options dat48
                = Some (start_state init_options dat48))
      by (apply init_state_start; vm_compute; discriminate).
    pose proof (init_state_facts _ _ _ H) as F. split_facts F.
    split; [exact H |]. split; [exact if_in_eof |].
    unfold head_frame_index, read_position. rewrite if_pos, if_read.
    vm_compute. discriminate.
  - exists (start_state init_options cd44).
    assert (H : init_state init_options cd44
                = Some (start_state init_options cd44))
      by (apply init_state_start; vm_compute; discriminate).
    pose proof (init_state_facts _ _ _ H) as F. split_facts F.
    split; [exact H |]. split; [exact if_in_eof |].
    unfold read_position. rewrite if_pos, if_read.
    vm_compute. discriminate.
Qed.

Lemma centre_lag_witness :
  let o := init_options in
  let st := tick_state 5 o song in
  let W := window_of song in
  cur_frame_pos st = read_position o st - (W - W ÷ 2) /\
  cur_frame_pos st = head_frame_index o st - (W - W ÷ 2 - 1) /\
  (main_buf_head st ÷ numchannels st - main_buf_cen st ÷ numchannels st)
    `mod` W = W - W ÷ 2 - 1 /\
  (Z.even W = true -> cur_frame_pos st = read_position o st - W ÷ 2) /\
  (Z.odd W = true -> cur_frame_pos st = head_frame_index o st - W ÷ 2).
Proof.
  intros o st.
  apply (centre_lag o song (start_state o song) st).
  - vm_compute. reflexivity.
  - vm_compute. discriminate.
  - vm_compute. discriminate.
  - apply (ticks_reach 5). vm_compute. reflexivity.
  - vm_compute. reflexivity.
Defined.

Lemma track_ending_final_commit :
  let o := quick_options CPA_EXTRACT_TRACK in
  let st := tick_state 128 o song in
  cut_context st = CCTX_TRACK_ENDING /\ we_have_signal st = false /\
  time_to_live st = 0 /\
  exists nm fs,
    out_file st = Some (nm, fs) /\
    track_dir (updated o st) = [(nm, fs ++ [centre_frame st])] /\
    track_dir (updated o st) <> [(nm, fs)].
Proof.
  vm_compute. repeat split. do 2 eexists.
  split; [reflexivity |]. split; [reflexivity | discriminate].
Qed.

Lemma track_ending_tick_witness :
  let o := quick_options CPA_EXTRACT_TRACK in
  let st := tick_state 128 o song in
  exists st',
    update_context o st = Some st' /\ ending_machine st st' /\
    match cut_point_action o with
    | CPA_EXTRACT_TRACK =>
        exists nm fs, out_file st = Some (nm, fs) /\ ending_files st st' nm fs
    | CPA_LOG_POINT => ending_rows st st'
    end.
Proof.
  intros o st.
  apply (track_ending_tick o song (start_state o song) st).
  - vm_compute. reflexivity.
  - apply (ticks_reach 128). vm_compute. reflexivity.
  - vm_compute. reflexivity.
Defined.

Lemma eof_drain_odd_window :
  exists st0,
    init_state init_options cd44 = Some st0 /\
    in_eof st0 = false /\ in_file st0 = [] /\
    in_eof (snd (fetch_next_frame init_options st0)) = true /\
    window_of cd44 ÷ 2 = 1102 /\
    fst (fetch_next_frame init_options
           (fetch_n 1102 init_options
              (snd (fetch_next_frame init_options st0)))) = true.
Proof.
  exists (start_state init_options cd44).
  assert (H : init_state init_options cd44
              = Some (start_state init_options cd44))
    by (apply init_state_start; vm_compute; discriminate).
  pose proof (init_state_facts _ _ _ H) as F. split_facts F.
  assert (Hfile : in_file (start_state init_options cd44) = [])
    by (rewrite if_in_file; vm_compute; reflexivity).
  assert (Hrem : 0 < frames_remaining (start_state init_options cd44))
    by (rewrite if_remaining; vm_compute; reflexivity).
  destruct (eof_report init_options _ if_in_eof Hfile Hrem) as (_ & C2 & C3).
  destruct (fetch_n_after_eof init_options 1102 _ C2) as (I1 & _).
  split; [exact H |]. split; [exact if_in_eof |]. split; [exact Hfile |].
  split; [exact C2 |]. split; [reflexivity |].
  rewrite I1, C3, if_ra, if_remaining. vm_compute. reflexivity.
Qed.

Lemma eof_drain_witness :
  let o := init_options in
  let s1 := updated o (start_state o blip) in
  let W := window_of blip in
  let s2 := snd (fetch_next_frame o s1) in
  fst (fetch_next_frame o s1) = true /\
  in_eof s2 = true /\
  frames_remaining s2 = Z.min (W - W ÷ 2) (frames_remaining s1 - 1) /\
  (forall j : nat,
     fst (fetch_next_frame o (fetch_n j o s2))
     = (Z.of_nat j <? frames_remaining s2)) /\
  (forall j : nat,
     admitted_frame (fetch_n j o s1)
     = replicate (Z.to_nat (sf_channels blip)) dzero).
Proof.
  intros o s1.
  apply (eof_drain o blip (start_state o blip) (start_state o blip) s1).
  - vm_compute. reflexivity.
  - vm_compute. discriminate.
  - vm_compute. discriminate.
  - constructor.
  - vm_compute. reflexivity.
  - vm_compute. reflexivity.
  - vm_compute. reflexivity.
  - vm_compute. reflexivity.
Defined.

Lemma framed_mono rate (l : list float) : framed (mono rate l).
Proof.
  unfold framed, mono. cbn [sf_frames sf_channels].
  apply Forall_fmap, Forall_forall. intros x _. reflexivity.
Qed.



Lemma leadin_capacity_witness :
  let o := quick_options CPA_EXTRACT_TRACK in
  let st := tick_state 1 o song in
  let st' := updated o st in
  (1 <= min_signal_len st ->
   stderr_warnings st' = O /\
   (cut_point_action o = CPA_EXTRACT_TRACK ->
    (0 <= leadin_buf_end st' <= numchannels st * min_signal_len st) /\
    leadin_buf_edge st' = numchannels st * min_signal_len st /\
    Z.of_nat (length (leadin_buf st'))
    = numchannels st * min_signal_len st)) /\
  (min_signal_len st = 0 -> cut_point_action o = CPA_EXTRACT_TRACK ->
   cut_context st = CCTX_SILENCE -> we_have_signal st = true ->
   cut_context st' = CCTX_TRACK_STARTING /\
   stderr_warnings st' = S (stderr_warnings st) /\
   leadin_buf st' = leadin_buf st /\
   leadin_buf_end st' = 0).
Proof.
  intros o st st'.
  apply (leadin_capacity o song (start_state o song) st st').
  - vm_compute. reflexivity.
  - vm_compute. discriminate.
  - apply (ticks_reach 1). vm_compute. reflexivity.
  - vm_compute. reflexivity.
Defined.

Lemma signal_predicate_witness :
  let o := init_options in
  let st := tick_state 10 o song in
  let x_nf :=
    exp2 (ddiv (noise_floor_dbfs o) (dmul (d_of_Z 20) (log10 (d_of_Z 2)))) in
  rms_window_len st = sf_samplerate song * RMS_WINDOW_PERIOD ÷ 1000 /\
  n_x_nf_sq st = dmul (dmul x_nf x_nf) (d_of_Z (rms_window_len st)) /\
  (we_have_signal st = true <->
   exists c, 0 <= c < numchannels st /\
     dltb (dmul (dmul x_nf x_nf) (d_of_Z (rms_window_len st)))
       (load (x_sq_ttl st) c) = true).
Proof.
  intros o st.
  apply (signal_predicate o song (start_state o song) st).
  - vm_compute. reflexivity.
  - apply (ticks_reach 10). vm_compute. reflexivity.
Defined.

(** At a noise floor of -40 dBFS and 100 Hz the threshold is one part in
    two thousand.  The sum of squares of the first window of [faint] is
    above it, and [we_have_signal] says there is no signal: the threshold
    that [init_state] computes in binary64 is two units in the last place
    above the exact one, and the sum lies between the two. *)
Lemma signal_predicate_rounding :
  let o := noise_floor_options (-40) in
  let st := start_state o faint in
  init_state o faint = Some st /\
  rms_window_len st = 5 /\
  (Rpower 10 (-40 / 20) * Rpower 10 (-40 / 20) * IZR (rms_window_len st)
   < real_of_float (load (x_sq_ttl st) 0))%R /\
  n_x_nf_sq st = 0x1.0624dd2f1a9fep-11%float /\
  load (x_sq_ttl st) 0 = 0x1.0624dd2f1a9fdp-11%float /\
  we_have_signal st = false.
Proof.
  intros o st.
  split; [apply init_state_start; vm_compute; discriminate |].
  assert (EW : rms_window_len st = 5) by (vm_compute; reflexivity).
  split; [exact EW |]. split.
  - rewrite EW, threshold_40_5. unfold real_of_float.
    assert (E : Prim2SF (load (x_sq_ttl st) 0)
                = S754_finite false 4611686018427389 (-63))
      by (vm_compute; reflexivity).
    rewrite E. cbn [powerRZ].
    change (Pos.to_nat 63) with 63%nat. simpl pow. lra.
  - split; [vm_compute; reflexivity |].
    split; vm_compute; reflexivity.
Qed.

(** In binary64 the accumulator drifts from the sum of the ring: while the
    square of the loud sample is in the sum, the squares of the quiet ones
    are rounded away, and they do not come back when it is subtracted.  At
    tick 3 the ring holds five squares of [2^-60] and the accumulator holds
    one. *)
Lemma running_sum_binary64_drift :
  let st := tick_state 3 init_options loud_then_quiet in
  channel_squares (sq_buf st) (numchannels st) (rms_window_len st) 0
  = replicate 5 0x1p-60%float /\
  dsum (channel_squares (sq_buf st) (numchannels st) (rms_window_len st) 0)
  = 0x1.4p-58%float /\
  load (x_sq_ttl st) 0 = 0x1p-60%float.
Proof. vm_compute. repeat split; reflexivity. Qed.

(** The rounding law at work in binary64: in the first turn of the same
    run the accumulator holds 1, the square that leaves the ring is 0 and
    the square that enters it is [2^-60], which the addition rounds away;
    the gap to the exact sum of the ring grows by no more than the unit
    roundoff [2^-53] allows. *)
Lemma running_sum_binary64_step :
  let o := init_options in
  let st := updated o (start_state o loud_then_quiet) in
  let st' := snd (fetch_next_frame o st) in
  let x := load (x_sq_ttl st) 0 in
  let old := load (sq_buf st) (sq_buf_tail st + 0) in
  let new := load (sq_buf st') (sq_buf_tail st + 0) in
  x = 1%float /\ old = 0%float /\ new = 0x1p-60%float /\
  load (x_sq_ttl st') 0 = 1%float /\
  (Rabs (sum_gap real_of_float st' 0 - sum_gap real_of_float st 0)
   <= / 2 ^ 53 * (Rabs (real_of_float x - real_of_float old)
                  + Rabs (real_of_float (dsub x old) + real_of_float new)))%R.
Proof.
  intros o st st' x old new.
  assert (Ex : x = 1%float) by (vm_compute; reflexivity).
  assert (Eo : old = 0%float) by (vm_compute; reflexivity).
  assert (En : new = 0x1p-60%float) by (vm_compute; reflexivity).
  split; [exact Ex |]. split; [exact Eo |]. split; [exact En |].
  split; [vm_compute; reflexivity |].
  assert (Hr : ring_ok st).
  { apply (ring_ok_update o (start_state o loud_then_quiet)).
    - vm_compute. reflexivity.
    - apply (ring_ok_init o loud_then_quiet).
      + vm_compute. reflexivity.
      + vm_compute. discriminate.
      + vm_compute. discriminate. }
  assert (V1 : real_of_float 1 = 1%R).
  { unfold real_of_float.
    change (Prim2SF 1) with (S754_finite false 4503599627370496 (-52)).
    cbn [powerRZ]. change (Pos.to_nat 52) with 52%nat. simpl pow. lra. }
  assert (V0 : real_of_float 0 = 0%R) by reflexivity.
  assert (Vn : real_of_float 0x1p-60 = (/ 2 ^ 60)%R).
  { unfold real_of_float.
    change (Prim2SF 0x1p-60) with (S754_finite false 4503599627370496 (-112)).
    cbn [powerRZ]. change (Pos.to_nat 112) with 112%nat. simpl pow. lra. }
  apply (fetch_next_frame_gap o st 0 real_of_float (/ 2 ^ 53) Hr).
  - vm_compute. discriminate.
  - vm_compute. split; [discriminate | reflexivity].
  - fold x old. rewrite Ex, Eo.
    change (@dsub Binary64.ops 1%float 0%float) with 1%float.
    rewrite V1, V0.
    simpl pow. rewrite Rabs_right; rewrite ?Rabs_right; lra.
  - fold x old st' new. rewrite Ex, Eo, En.
    change (@dsub Binary64.ops 1%float 0%float) with 1%float.
    change (@dadd Binary64.ops 1%float 0x1p-60%float) with 1%float.
    rewrite V1, Vn. simpl pow.
    rewrite Rabs_left by lra. rewrite Rabs_right by lra. lra.
Qed.
End Examples64.

Section ExamplesQ.
#[local] Existing Instance Rational.ops.

Lemma rational_exact : ExactArith Rational.ops.
Proof.
  split; cbn; intros.
  - apply Qcplus_comm.
  - apply Qcplus_assoc.
  - apply Qcplus_0_l.
  - unfold Qcminus. rewrite <- Qcplus_assoc, Qcplus_opp_r. apply Qcplus_0_r.
Qed.

Lemma running_sum_witness :
  let o := init_options in
  let st := start_state o SamplesQ.song in
  load (x_sq_ttl st) 0
  = dsum (channel_squares (sq_buf st) (numchannels st) (rms_window_len st) 0)
  /\
  (forall q, load (sq_buf st) q
             = dmul (load (main_buf st) q) (load (main_buf st) q)) /\
  (forall s1, update_context o st = Some s1 ->
     let st' := snd (fetch_next_frame o s1) in
     let x := load (x_sq_ttl st) 0 in
     let old := load (sq_buf st) (sq_buf_tail st + 0) in
     let new := load (sq_buf st') (sq_buf_tail st + 0) in
     load (x_sq_ttl st') 0 = dadd (dsub x old) new /\
     new = dmul (load (main_buf st') (main_buf_tail st + 0))
             (load (main_buf st') (main_buf_tail st + 0)) /\
     (forall q, ~ (sq_buf_tail st <= q < sq_buf_tail st + numchannels st) ->
        load (sq_buf st') q = load (sq_buf st) q) /\
     (forall (val : Qc -> R) (eps : R),
        (Rabs (val (dsub x old) - (val x - val old))
         <= eps * Rabs (val x - val old))%R ->
        (Rabs (val (dadd (dsub x old) new) - (val (dsub x old) + val new))
         <= eps * Rabs (val (dsub x old) + val new))%R ->
        (Rabs (sum_gap val st' 0 - sum_gap val st 0)
         <= eps * (Rabs (val x - val old)
                   + Rabs (val (dsub x old) + val new)))%R)).
Proof.
  intros o st.
  destruct (running_sum o SamplesQ.song st st 0) as (A & B & C).
  - apply init_state_start. vm_compute. discriminate.
  - vm_compute. split; discriminate.
  - vm_compute. discriminate.
  - constructor.
  - vm_compute. split; [discriminate | reflexivity].
  - split; [exact (A rational_exact) |].
    split; [apply B, Qcmult_0_l | exact C].
Defined.

End ExamplesQ.

Section ExamplesR.
#[local] Existing Instance Real.ops.

Lemma real_exact : ExactArith Real.ops.
Proof. split; cbn; intros; ring. Qed.

Lemma signal_predicate_exact_song :
  let o := init_options in
  let st := start_state o SamplesR.song in
  let x_nf := Rpower 10 (noise_floor_dbfs o / 20) in
  rms_window_len st = sf_samplerate SamplesR.song * RMS_WINDOW_PERIOD ÷ 1000 /\
  (we_have_signal st = true <->
   exists c, 0 <= c < numchannels st /\
     (x_nf * x_nf * IZR (rms_window_len st) < load (x_sq_ttl st) c)%R).
Proof.
  intros o st.
  apply (signal_predicate_exact o SamplesR.song st st).
  - apply init_state_start. simpl. lia.
  - constructor.
Qed.

End ExamplesR.

(** ** Further properties of the run and of the range parsers *)

Section RunSafety.
Context {D : DoubleOps}.

(** X1.  In a run in extraction mode an output file is open exactly while
    the context is [CCTX_TRACK] or [CCTX_TRACK_ENDING], and in log mode no
    file is ever opened. So [commit_current_frame] and [leadin_buf_commit]
    never write through a null handle: with a libsndfile that opens and
    writes the output files without failure, which is what the model takes
    for granted, every call of [update_context] in the run returns. *)
Theorem writes_through_open_file o f st0 st :
  init_state o f = Some st0 -> loop_reach o st0 st ->
  (cut_point_action o = CPA_EXTRACT_TRACK ->
   (in_track st = true -> exists nm fs, out_file st = Some (nm, fs)) /\
   (in_track st = false -> out_file st = None)) /\
  (cut_point_action o = CPA_LOG_POINT ->
   out_file st = None /\ track_dir st = []) /\
  (exists st', update_context o st = Some st').
Proof.
  intros Hi Hr. pose proof (counter_ok_reach _ _ _ _ Hi Hr) as Hk.
  split; [| split; [| apply counter_ok_progress, Hk]].
  - intros Ho. destruct Hk as [_ Hk]. specialize (Hk Ho).
    destruct (in_track st); split; intros Ht; try discriminate Ht.
    + destruct (out_file st) as [[nm fs] |]; [| congruence].
      exists nm, fs. reflexivity.
    + exact Hk.
  - intros Ho. clear Hk. induction Hr as [| st st' _ IH Hb].
    + apply init_state_facts in Hi. split_facts Hi.
      split; assumption.
    + apply loop_body_inv in Hb as (s1 & b & Hu & Hf & _).
      pose proof (fetch_next_frame_machine o s1) as Hm. rewrite Hf in Hm.
      apply machine_fields in Hm
        as (_ & _ & _ & _ & _ & _ & _ & M8 & M9 & _).
      cbn [snd] in M8, M9. rewrite M8, M9. clear Hf M8 M9.
      destruct IH as [I1 I2]. revert Ho I1 I2 Hu. split_options o.
      cbn [cut_point_action]. intros -> I1 I2 Hu.
      split_state st. state_eval_in I1. state_eval_in I2. subst.
      machine_eval_in Hu. case_matches; state_eval; split; reflexivity.
Qed.

(** X2.  In a run with at least one channel and a sample rate of at least 20
    Hz (a window of at least one frame), the six cursors stay inside their
    rings: each points at a whole frame of the buffer it belongs to, and the
    two rings move in step. *)
Theorem ring_cursors_in_bounds o f st0 st :
  init_state o f = Some st0 -> 1 <= sf_channels f ->
  20 <= sf_samplerate f -> loop_reach o st0 st ->
  let C := numchannels st in
  let n := Z.of_nat (length (main_buf st)) in
  Z.of_nat (length (sq_buf st)) = n /\
  n = rms_window_len st * C /\ main_buf_edge st = n /\ sq_buf_edge st = n /\
  (forall p, p = main_buf_head st \/ p = main_buf_tail st \/
             p = main_buf_cen st ->
             0 <= p /\ p + C <= n /\ p mod C = 0) /\
  sq_buf_head st = main_buf_head st /\ sq_buf_tail st = main_buf_tail st /\
  sq_buf_cen st = main_buf_cen st.
Proof.
  intros Hi HC HR Hr C n.
  pose proof (window_of_pos f HR) as HW.
  pose proof (ring_ok_reach _ _ _ _ Hi HC HW Hr) as Hk.
  destruct (ring_ok_edges st Hk) as [E1 E2].
  apply ring_ok_fields in Hk. cbv zeta in Hk.
  destruct Hk as (H1 & H2 & Ht & _ & _ & Lm & Ls & Mt & St & Mh & Sh & Mc & Sc).
  pose proof (window_half _ H2) as Hh.
  assert (R1 : 0 <= wrap (rms_window_len st) (tail_slot st + rms_window_len st - 1)
               < rms_window_len st) by (apply wrap_range; lia).
  assert (R2 : 0 <= wrap (rms_window_len st)
                      (tail_slot st + rms_window_len st ÷ 2)
               < rms_window_len st) by (apply wrap_range; lia).
  subst n C. rewrite Ls, Lm, E1, E2, Sh, St, Sc, Mh, Mt, Mc.
  repeat split; try reflexivity;
    destruct H as [-> | [-> | ->]]; try nia; apply Z.mod_mul; lia.
Qed.

Lemma init_state_none o f :
  0 < start_frame_idx o ->
  Z.of_nat (length (sf_frames f)) < start_frame_idx o ->
  init_state o f = None.
Proof.
  intros Hp Hl. unfold init_state.
  assert (E : open_input_file o f (set_cur_track_num 1 zero_state) = None).
  { revert Hp Hl. split_options o.
    cbv beta iota zeta delta [open_input_file mbind option_bind zero_state].
    state_eval. intros Hp Hl.
    destruct (Z.ltb_spec 0 start_frame_idx); [| lia].
    destruct (Z.ltb_spec (Z.of_nat (length (sf_frames f))) start_frame_idx);
      [reflexivity | lia]. }
  rewrite E. reflexivity.
Qed.

Lemma fetch_next_frame_more o st :
  fst (fetch_next_frame o st) = false <-> frames_remaining st <= 0.
Proof.
  pose proof (fetch_next_frame_counters o st) as Hc.
  apply (f_equal fst) in Hc. cbn [fst] in Hc. rewrite Hc.
  unfold counters, source_step.
  destruct (in_eof st); cbn [negb andb];
    destruct (Z.ltb_spec 0 (frames_remaining st));
    try destruct (in_file st); cbn [fst]; split; intros; try lia;
    try discriminate; reflexivity.
Qed.

Lemma fetch_next_frame_done o st :
  frames_remaining st <= 0 ->
  frames_remaining (snd (fetch_next_frame o st)) = frames_remaining st /\
  in_file (snd (fetch_next_frame o st)) = in_file st /\
  in_eof (snd (fetch_next_frame o st)) = in_eof st.
Proof.
  intros Hr.
  pose proof (fetch_next_frame_counters o st) as Hc.
  apply (f_equal snd) in Hc. cbn [snd] in Hc.
  unfold counters at 2 in Hc. unfold source_step in Hc.
  destruct (Z.ltb_spec 0 (frames_remaining st)); [lia |].
  rewrite andb_false_r in Hc.
  apply counters_fields in Hc as (C1 & C2 & C3 & _).
  repeat split; assumption.
Qed.

(** X4.  [fetch_next_frame] returns [FALSE] exactly when no frames remain,
    and then it goes on returning [FALSE]: the end of the stream is final.
    Every call, also one that returns [FALSE], moves the position on by one
    frame. *)
Theorem fetch_end_is_final o st :
  (fst (fetch_next_frame o st) = false <-> frames_remaining st <= 0) /\
  (fst (fetch_next_frame o st) = false ->
   fst (fetch_next_frame o (snd (fetch_next_frame o st))) = false /\
   frames_remaining (snd (fetch_next_frame o st)) = frames_remaining st /\
   in_file (snd (fetch_next_frame o st)) = in_file st /\
   in_eof (snd (fetch_next_frame o st)) = in_eof st) /\
  cur_frame_pos (snd (fetch_next_frame o st)) = cur_frame_pos st + 1.
Proof.
  split; [apply fetch_next_frame_more |].
  split; [| apply fetch_next_frame_pos].
  intros Hf. apply fetch_next_frame_more in Hf.
  destruct (fetch_next_frame_done o st Hf) as (C1 & C2 & C3).
  split; [apply fetch_next_frame_more; lia |]. repeat split; assumption.
Qed.

End RunSafety.

Section Termination.
Context {D : DoubleOps}.






End Termination.

Section Termination64.
#[local] Existing Instance Binary64.ops.
Import Samples64.


End Termination64.

Section Numbering.
Context {D : DoubleOps}.

Lemma numbered_nil : numbered [].
Proof. reflexivity. Qed.

Lemma numbered_snoc {A} (f : A -> Z) (l : list A) (x : A) :
  numbered (f <$> l) -> f x = 1 + Z.of_nat (length l) ->
  numbered (f <$> (l ++ [x])).
Proof.
  unfold numbered. intros Hl Hx.
  rewrite fmap_app, length_app, !length_fmap. cbn [fmap list_fmap length].
  replace (length l + 1)%nat with (S (length l)) by lia.
  rewrite seqZ_S, Hx. rewrite length_fmap in Hl. rewrite <- Hl. reflexivity.
Qed.

Lemma names_ok_ext o (a b : state_t) :
  machine a = machine b -> names_ok o a -> names_ok o b.
Proof.
  intros Hm. apply machine_fields in Hm
    as (_ & _ & _ & M4 & _ & _ & _ & M8 & M9 & M10).
  unfold names_ok. rewrite M4, M8, M9, M10. auto.
Qed.

Lemma names_ok_update o st st' :
  update_context o st = Some st' -> names_ok o st -> names_ok o st'.
Proof.
  intros H. split_options o.
  destruct ocpa; split_state st; unfold names_ok; state_eval;
    machine_eval_in H; intros (Hc & Hd & Ho & Hm);
    case_matches; state_eval.
  all: repeat match goal with
           | H : _ /\ _ |- _ => destruct H
           end; subst; try discriminate.
  all: repeat match goal with |- _ /\ _ => split end;
    try assumption; try reflexivity; try exact numbered_nil;
    try (rewrite length_app; cbn [length]; lia);
    try (apply numbered_snoc; [assumption | cbn; lia]).
Qed.

Lemma names_ok_init o f st0 : init_state o f = Some st0 -> names_ok o st0.
Proof.
  intros H. apply init_state_facts in H. split_facts H. unfold names_ok.
  rewrite if_cuts_file, if_track_dir, if_out_file, if_track_num.
  repeat split; try exact numbered_nil. destruct (cut_point_action o);
    repeat split; reflexivity.
Qed.

Lemma names_ok_body o st more st' :
  loop_body o st = Some (more, st') -> names_ok o st -> names_ok o st'.
Proof.
  intros Hb Hk. apply loop_body_inv in Hb as (s1 & b & Hu & Hf & _).
  apply (names_ok_update _ _ _ Hu) in Hk.
  pose proof (fetch_next_frame_machine o s1) as Hm. rewrite Hf in Hm.
  eapply names_ok_ext; [symmetry; exact Hm | exact Hk].
Qed.

Lemma names_ok_reach o f st0 st :
  init_state o f = Some st0 -> loop_reach o st0 st -> names_ok o st.
Proof.
  intros H Hr. induction Hr as [| st st' _ IH Hb].
  - eapply names_ok_init; eassumption.
  - eapply names_ok_body; eassumption.
Qed.

Lemma names_ok_exit o st :
  names_ok o st ->
  track_numbers (cutter_exit o st)
  = seqZ 1 (Z.of_nat (length (track_numbers (cutter_exit o st)))).
Proof.
  split_options o.
  destruct ocpa; split_state st; unfold names_ok, track_numbers; state_eval;
    cbv beta iota zeta delta [cutter_exit force_end_of_track close_out_file
                                print_track_cut];
    state_eval; intros (Hc & Hd & Ho & Hm);
    case_matches; state_eval;
    repeat match goal with
           | H : _ /\ _ |- _ => destruct H
           end; subst; try discriminate;
    rewrite ?app_nil_r; cbn [fmap list_fmap app];
    try assumption; try reflexivity;
    apply numbered_snoc; try assumption; cbn; lia.
Qed.

(** The runs of [cutter_loop] that finish, taken apart: the last turn of
    the loop and what follows it. *)
Lemma run_cutter_inv o f fuel stf :
  run_cutter fuel o f = Finished stf ->
  exists st0 st st',
    init_state o f = Some st0 /\ loop_reach o st0 st /\
    loop_body o st = Some (false, st') /\ stf = cutter_exit o st'.
Proof.
  unfold run_cutter, cutter_loop.
  destruct (init_state o f) as [st0 |] eqn:Hi; [| discriminate].
  destruct (cutter_iterate fuel o st0) as [st' | |] eqn:Hc; try discriminate.
  intros [= <-]. apply cutter_iterate_reach in Hc as (st & Hr & Hb).
  exists st0, st, st'. repeat split; assumption.
Qed.

(** X6.  Without a track-names file, the tracks that a run writes are
    numbered 1, 2, 3, ... in the order in which they are written, whether
    they are rows of the cuts file or track files; the track that
    [cutter_loop] forces to end when the input runs out is numbered like the
    others. *)
Theorem tracks_numbered o f fuel stf :
  run_cutter fuel o f = Finished stf ->
  track_numbers stf = seqZ 1 (Z.of_nat (length (track_numbers stf))) /\
  match cut_point_action o with
  | CPA_LOG_POINT => track_dir stf = []
  | CPA_EXTRACT_TRACK => cuts_file stf = []
  end.
Proof.
  intros Hrun.
  apply run_cutter_inv in Hrun as (st0 & st & st' & Hi & Hr & Hb & ->).
  pose proof (names_ok_body _ _ _ _ Hb (names_ok_reach _ _ _ _ Hi Hr)) as Hk.
  split; [apply names_ok_exit, Hk |].
  revert Hk. clear. split_options o.
  destruct ocpa; split_state st'; unfold names_ok; state_eval;
    cbv beta iota zeta delta [cutter_exit force_end_of_track close_out_file
                                print_track_cut];
    state_eval; intros (Hc & Hd & Ho & Hm);
    case_matches; state_eval;
    repeat match goal with
           | H : _ /\ _ |- _ => destruct H
           end; subst; try discriminate; reflexivity.
Qed.

End Numbering.

Section Limit.
Context {D : DoubleOps}.

(** [update_context] increments the track counter by one at most, and only
    on its way to [CCTX_SILENCE]; a tick in [CCTX_SILENCE] leaves it alone
    and does not enter a track. *)
Lemma update_context_num o st st' :
  update_context o st = Some st' ->
  (cut_context st = CCTX_SILENCE ->
   cur_track_num st' = cur_track_num st /\ in_track st' = false) /\
  (cur_track_num st' = cur_track_num st \/
   cur_track_num st' = cur_track_num st + 1 /\
   cut_context st' = CCTX_SILENCE).
Proof.
  intros H. split_options o.
  destruct ocpa; split_state st; unfold in_track; state_eval;
    machine_eval_in H; case_matches; state_eval;
    (split; [intros Hx; first [discriminate Hx | split; reflexivity] |]);
    first [left; reflexivity | right; split; reflexivity].
Qed.

Lemma limit_ok_reach o f st0 st :
  init_state o f = Some st0 -> loop_reach o st0 st -> limit_ok o st.
Proof.
  intros Hi Hr. destruct Hr as [| st st' Hr Hb].
  - apply init_state_facts in Hi. split_facts Hi. unfold limit_ok.
    rewrite if_track_num, if_context. split; [lia | reflexivity].
  - pose proof (counter_ok_body _ _ _ _ Hb (counter_ok_reach _ _ _ _ Hi Hr))
      as [Hn _].
    apply loop_body_inv in Hb as (s1 & b & _ & _ & Hm).
    symmetry in Hm. apply andb_true_iff in Hm as [_ Hm].
    apply Z.leb_le in Hm. unfold limit_ok, ends in *. split; lia.
Qed.

(** X7.  A run never writes more tracks than the upper end of the track
    range allows: when it finishes, the number of rows in the cuts file, or
    of track files, is at most [track_num_end], the forced end of the last
    track included. *)
Theorem track_limit o f fuel stf :
  run_cutter fuel o f = Finished stf ->
  ends stf <= Z.max 0 (track_num_end o).
Proof.
  intros Hrun.
  apply run_cutter_inv in Hrun as (st0 & st & st' & Hi & Hr & Hb & ->).
  pose proof (counter_ok_reach _ _ _ _ Hi Hr) as Hk.
  pose proof (counter_ok_body _ _ _ _ Hb Hk) as Hk'.
  destruct (cutter_exit_counts o st' Hk') as [_ E]. rewrite E. clear E.
  destruct (limit_ok_reach _ _ _ _ Hi Hr) as [L1 L2].
  destruct Hk as [Hn _]. destruct Hk' as [Hn' _].
  apply loop_body_inv in Hb as (s1 & b & Hu & Hf & _).
  pose proof (fetch_next_frame_machine o s1) as Hm. rewrite Hf in Hm.
  apply machine_fields in Hm as (M1 & _ & _ & M4 & _). cbn [snd] in M1, M4.
  assert (Ht : in_track st' = in_track s1) by (unfold in_track; rewrite M1; reflexivity).
  apply update_context_num in Hu as [U1 U2].
  destruct (Z.lt_ge_cases (track_num_end o) 1) as [Hlt | Hge].
  - destruct (U1 (L2 Hlt)) as [U3 U4]. rewrite Ht, U4, andb_false_r. lia.
  - destruct U2 as [U2 | [U2 U3]].
    + destruct (_ && _); lia.
    + assert (in_track st' = false) as ->
        by (rewrite Ht; unfold in_track; rewrite U3; reflexivity).
      rewrite andb_false_r. lia.
Qed.

End Limit.

Section Rows.
Context {D : DoubleOps}.

Lemma rows_chained_snoc l : forall lo r,
  rows_chained lo l -> rows_hi lo l <= row_start r ->
  row_start r < row_end r -> row_duration r = row_end r - row_start r ->
  rows_chained lo (l ++ [r]).
Proof.
  induction l as [| x l IH]; intros lo r Hc Hh Hs Hd; simpl in *.
  - repeat split; assumption.
  - destruct Hc as (C1 & C2 & C3 & C4). repeat split; try assumption.
    apply IH; assumption.
Qed.

Lemma rows_hi_snoc l lo r : rows_hi lo (l ++ [r]) = row_end r + 1.
Proof. unfold rows_hi. rewrite fold_left_app. reflexivity. Qed.

Lemma rows_chained_weaken l : forall lo lo',
  lo' <= lo -> rows_chained lo l -> rows_chained lo' l.
Proof.
  destruct l as [| x l]; intros lo lo' Hl Hc; simpl in *; [exact I |].
  destruct Hc as (C1 & C2 & C3 & C4). repeat split; try assumption. lia.
Qed.

Lemma rows_chained_lookup l : forall lo (i : nat) r,
  rows_chained lo l -> l !! i = Some r ->
  lo <= row_start r /\ row_start r < row_end r /\
  row_duration r = row_end r - row_start r /\
  forall r', l !! S i = Some r' -> row_end r < row_start r'.
Proof.
  induction l as [| x l IH]; intros lo i r Hc Hi; [discriminate Hi |].
  simpl in Hc. destruct Hc as (C1 & C2 & C3 & C4).
  destruct i as [| i]; simpl in Hi.
  - injection Hi as ->.
    split; [exact C1 |]. split; [exact C2 |]. split; [exact C3 |].
    intros r' Hr'. simpl in Hr'. destruct l as [| y l]; [discriminate Hr' |].
    simpl in Hr'. injection Hr' as ->. simpl in C4. lia.
  - destruct (IH _ _ _ C4 Hi) as (I1 & I2 & I3 & I4).
    split; [lia |]. split; [exact I2 |]. split; [exact I3 | exact I4].
Qed.

Lemma rows_ok_update o st st' :
  update_context o st = Some st' -> rows_ok 0 o st -> rows_ok 1 o st'.
Proof.
  intros H. split_options o.
  destruct ocpa; split_state st; unfold rows_ok; state_eval;
    machine_eval_in H; intros [Hc Hh];
    case_matches; state_eval; rewrite ?rows_hi_snoc; cbn [row_end];
    repeat match goal with
           | H : _ /\ _ |- _ => destruct H
           end;
    repeat match goal with |- _ /\ _ => split end;
    try assumption; try lia;
    apply rows_chained_snoc; cbn; try assumption; try lia.
Qed.

Lemma rows_ok_fetch o st :
  rows_ok 1 o st -> rows_ok 0 o (snd (fetch_next_frame o st)).
Proof.
  intros [H1 H2].
  pose proof (fetch_next_frame_machine o st) as Hm.
  apply machine_fields in Hm as (M1 & _ & M3 & _ & _ & _ & _ & _ & _ & M10).
  unfold rows_ok. rewrite fetch_next_frame_pos, M1, M3, M10.
  split; [exact H1 |]. destruct (cut_context st); lia.
Qed.

Lemma rows_ok_body o st more st' :
  loop_body o st = Some (more, st') -> rows_ok 0 o st -> rows_ok 0 o st'.
Proof.
  intros Hb Hk. apply loop_body_inv in Hb as (s1 & b & Hu & Hf & _).
  apply (rows_ok_update _ _ _ Hu) in Hk.
  apply (rows_ok_fetch o) in Hk. rewrite Hf in Hk. exact Hk.
Qed.

Lemma rows_ok_reach o f st0 st :
  init_state o f = Some st0 -> loop_reach o st0 st -> rows_ok 0 o st.
Proof.
  intros H Hr. induction Hr as [| st st' _ IH Hb].
  - apply init_state_facts in H. split_facts H. unfold rows_ok.
    rewrite if_cuts_file, if_context, if_pos. split; [exact I |].
    unfold rows_hi. simpl. lia.
  - eapply rows_ok_body; eassumption.
Qed.

Lemma rows_ok_exit o st :
  rows_ok 0 o st -> rows_chained (start_frame_idx o) (cuts_file (cutter_exit o st)).
Proof.
  split_options o.
  destruct ocpa; split_state st; unfold rows_ok; state_eval;
    cbv beta iota zeta delta [cutter_exit force_end_of_track close_out_file
                                print_track_cut];
    state_eval; intros [Hc Hh];
    case_matches; state_eval; try assumption;
    destruct Hh; apply rows_chained_snoc; cbn; try assumption; lia.
Qed.

(** X8.  The rows of the cuts file are in order and do not overlap: every
    row starts at the start frame of the run or later and ends after it
    starts, its duration column is its end less its start, and the next row
    starts after it ends. This holds for the row that [cutter_loop] forces
    when the input runs out as well. *)
Theorem cut_rows_ordered o f fuel stf :
  run_cutter fuel o f = Finished stf ->
  forall (i : nat) r,
    cuts_file stf !! i = Some r ->
    start_frame_idx o <= row_start r /\ row_start r < row_end r /\
    row_duration r = row_end r - row_start r /\
    forall r', cuts_file stf !! S i = Some r' -> row_end r < row_start r'.
Proof.
  intros Hrun i r Hi.
  apply run_cutter_inv in Hrun as (st0 & st & st' & H0 & Hr & Hb & ->).
  pose proof (rows_ok_body _ _ _ _ Hb (rows_ok_reach _ _ _ _ H0 Hr)) as Hk.
  apply rows_ok_exit in Hk.
  eapply rows_chained_lookup; eassumption.
Qed.

End Rows.

Section Closing.
Context {D : DoubleOps}.

Lemma remaining_fetch o st :
  0 <= ra_frame_cnt st -> 0 <= frames_remaining st ->
  0 <= frames_remaining (snd (fetch_next_frame o st)).
Proof.
  intros Hra Hr.
  pose proof (fetch_next_frame_counters o st) as Hc.
  apply (f_equal snd) in Hc. cbn [snd] in Hc.
  unfold counters at 2 in Hc. unfold source_step in Hc.
  destruct (in_eof st); cbn [negb andb] in Hc;
    destruct (Z.ltb_spec 0 (frames_remaining st));
    try destruct (in_file st);
    cbn [snd] in Hc; apply counters_fields in Hc as (_ & _ & -> & _);
    try case_ltb; lia.
Qed.

Lemma remaining_reach o f st0 st :
  init_state o f = Some st0 -> start_frame_idx o <= end_frame_idx o ->
  1 <= sf_channels f -> 0 <= sf_samplerate f -> loop_reach o st0 st ->
  0 <= ra_frame_cnt st /\ 0 <= frames_remaining st.
Proof.
  intros Hi Hse HC HR Hr.
  assert (Hra : 0 <= ra_frame_cnt st0).
  { apply init_state_facts in Hi. split_facts Hi.
    rewrite if_ra, read_ahead_of_eq by exact HC.
    assert (0 <= window_of f)
      by (unfold window_of, RMS_WINDOW_PERIOD; apply Z.quot_pos; lia).
    assert (window_of f ÷ 2 <= window_of f) by (apply Z.quot_le_upper_bound; lia).
    lia. }
  induction Hr as [| st st' Hr IH Hb].
  - split; [exact Hra |].
    apply init_state_facts in Hi. split_facts Hi. rewrite if_remaining. lia.
  - destruct IH as [I1 I2].
    apply loop_body_inv in Hb as (s1 & b & Hu & Hf & _).
    apply update_context_keeps in Hu as [Hs Hp].
    apply source_counters, counters_fields in Hs as (_ & _ & S3 & _).
    apply params_ra in Hp.
    pose proof (fetch_next_frame_params o s1) as Hq. apply params_ra in Hq.
    pose proof (remaining_fetch o s1) as Hn. rewrite Hf in Hn, Hq.
    cbn [snd] in Hn, Hq. split; [congruence |]. apply Hn; congruence.
Qed.

Lemma force_end_of_track_closes o st :
  (cut_point_action o = CPA_LOG_POINT -> out_file st = None) ->
  out_file (force_end_of_track o st) = None.
Proof.
  split_options o.
  destruct ocpa; split_state st; state_eval;
    cbv beta iota zeta delta [force_end_of_track close_out_file
                                print_track_cut];
    state_eval; intros Ho; case_matches; state_eval;
    try reflexivity; try (apply Ho; reflexivity).
Qed.

(** X9.  When a run over a valid frame range finishes, no track file is left
    open: the last file is closed by the tick that ends its track, or by
    [cutter_loop] when the input runs out, and the loop is never left for
    the track limit with a file open. *)
Theorem no_file_left_open o f fuel stf :
  run_cutter fuel o f = Finished stf ->
  start_frame_idx o <= end_frame_idx o ->
  1 <= sf_channels f -> 0 <= sf_samplerate f ->
  out_file stf = None.
Proof.
  intros Hrun Hse HC HR.
  apply run_cutter_inv in Hrun as (st0 & st & st' & Hi & Hr & Hb & ->).
  pose proof (counter_ok_reach _ _ _ _ Hi Hr) as Hk.
  pose proof (counter_ok_body _ _ _ _ Hb Hk) as [Hn' Ho'].
  pose proof (names_ok_body _ _ _ _ Hb (names_ok_reach _ _ _ _ Hi Hr))
    as (_ & _ & _ & Hm').
  destruct (limit_ok_reach _ _ _ _ Hi Hr) as [L1 L2].
  destruct (remaining_reach _ _ _ _ Hi Hse HC HR Hr) as [R1 R2].
  assert (Hlog : cut_point_action o = CPA_LOG_POINT -> out_file st' = None).
  { intros E. rewrite E in Hm'. apply Hm'. }
  unfold cutter_exit.
  destruct (Z.eqb_spec (frames_remaining st') 0) as [Hz | Hnz];
    [apply force_end_of_track_closes, Hlog |].
  destruct (cut_point_action o) eqn:Ea; [apply Hlog; reflexivity |].
  specialize (Ho' eq_refl).
  destruct (in_track st') eqn:Et; [exfalso | exact Ho'].
  apply loop_body_inv in Hb as (s1 & b & Hu & Hf & Hmore).
  pose proof (update_context_keeps _ _ _ Hu) as [Hs Hp].
  apply source_counters, counters_fields in Hs as (_ & _ & S3 & _).
  apply params_ra in Hp.
  pose proof (fetch_next_frame_machine o s1) as Hm. rewrite Hf in Hm.
  apply machine_fields in Hm as (M1 & _ & _ & M4 & _). cbn [snd] in M1, M4.
  assert (Ht : in_track st' = in_track s1)
    by (unfold in_track; rewrite M1; reflexivity).
  pose proof (remaining_fetch o s1) as Hn. rewrite Hf in Hn. cbn [snd] in Hn.
  pose proof (fetch_next_frame_more o s1) as G.
  rewrite Hf in G. cbn [fst] in G.
  destruct b.
  - cbn [andb] in Hmore. symmetry in Hmore. apply Z.leb_gt in Hmore.
    apply update_context_num in Hu as [U1 U2].
    destruct (Z.lt_ge_cases (track_num_end o) 1) as [Hlt | Hge].
    + destruct (U1 (L2 Hlt)) as [_ U4]. congruence.
    + destruct U2 as [U2 | [U2 U3]]; [lia |].
      unfold in_track in Et. rewrite M1, U3 in Et. discriminate Et.
  - assert (Hle : frames_remaining s1 <= 0) by (apply G; reflexivity).
    destruct (fetch_next_frame_done o s1 Hle) as (Hd & _).
    rewrite Hf in Hd. cbn [snd] in Hd. apply Hnz. lia.
Qed.

End Closing.

Section Excerpts.
Context {D : DoubleOps}.

Lemma excerpt_snoc f s n :
  0 <= n -> excerpt f s (n + 1) = excerpt f s n ++ [passed_frame f (s + n)].
Proof.
  intros Hn. unfold excerpt. rewrite seqZ_app by lia. rewrite fmap_app.
  reflexivity.
Qed.

Lemma length_excerpt f s n : length (excerpt f s n) = Z.to_nat n.
Proof. unfold excerpt. rewrite length_fmap, length_seqZ. reflexivity. Qed.

Lemma excerpts_weaken f l : forall lo hi hi',
  hi <= hi' -> excerpts f lo l hi -> excerpts f lo l hi'.
Proof.
  induction l as [| e l IH]; intros lo hi hi' Hh He; simpl in *; [lia |].
  destruct He as (s & E1 & E2 & E3 & E4). exists s.
  repeat split; try assumption. eapply IH; eassumption.
Qed.

Lemma excerpts_snoc f l : forall lo hi nm s n,
  excerpts f lo l hi -> hi <= s -> 0 < n ->
  excerpts f lo (l ++ [(nm, excerpt f s n)]) (s + n).
Proof.
  induction l as [| e l IH]; intros lo hi nm s n He Hs Hn; simpl in *.
  - exists s. rewrite length_excerpt, Z2Nat.id by lia.
    split; [lia |]. split; [| split; [reflexivity | lia]].
    intros E. apply (f_equal length) in E. rewrite length_excerpt in E.
    simpl in E. lia.
  - destruct He as (s' & E1 & E2 & E3 & E4). exists s'.
    repeat split; try assumption. eapply IH; eassumption.
Qed.

(** One more frame stored after the [k] frames that a buffer holds. *)
Lemma load_frames_snoc (fr : list double) C (k : nat) : forall buf p,
  0 <= p -> 1 <= C -> length fr = Z.to_nat C ->
  p + (Z.of_nat k + 1) * C <= Z.of_nat (length buf) ->
  load_frames (store_frame buf (p + Z.of_nat k * C) fr) p C (S k)
  = load_frames buf p C k ++ [fr].
Proof.
  induction k as [| k IH]; intros buf p Hp HC Hl Hlen.
  - simpl. rewrite Z.add_0_r. f_equal.
    replace C with (Z.of_nat (length fr)) at 1 by lia.
    apply load_store_frame; lia.
  - change (load_frames ?b p C (S (S k)))
      with (load_frame b p C :: load_frames b (p + C) C (S k)).
    change (load_frames buf p C (S k))
      with (load_frame buf p C :: load_frames buf (p + C) C k).
    cbn [app]. f_equal.
    + apply load_frame_store_frame_out. left. nia.
    + replace (p + Z.of_nat (S k) * C) with (p + C + Z.of_nat k * C) by lia.
      apply IH; try assumption; lia.
Qed.

Lemma load_frames_add (fr : list double) C k (buf : list double) :
  0 <= k -> 1 <= C -> length fr = Z.to_nat C ->
  (k + 1) * C <= Z.of_nat (length buf) ->
  load_frames (store_frame buf (k * C) fr) 0 C (Z.to_nat (k + 1))
  = load_frames buf 0 C (Z.to_nat k) ++ [fr].
Proof.
  intros Hk HC Hl Hlen.
  replace (Z.to_nat (k + 1)) with (S (Z.to_nat k)) by lia.
  replace (k * C) with (0 + Z.of_nat (Z.to_nat k) * C) by lia.
  apply load_frames_snoc; try assumption; lia.
Qed.

(** [leadin_buf_add] of the centre frame, when the lead-in buffer holds the
    [k] frames before it. *)
Lemma slice_add f (leadin main : list double) cen C start pos msl e k n :
  1 <= C -> 0 <= k -> e = k * C -> n = k + 1 -> pos = start + k ->
  Z.of_nat (length leadin) = C * msl -> k + 1 <= msl ->
  load_frame main cen C = passed_frame f pos ->
  load_frames leadin 0 C (Z.to_nat k) = excerpt f start k ->
  load_frames
    (store_frame leadin e
       (load_frame main cen ((sizeof_double * C) ÷ sizeof_double)))
    0 C (Z.to_nat n)
  = excerpt f start n.
Proof.
  intros HC Hk -> -> -> Hlen Hroom Hcen Hl.
  replace ((sizeof_double * C) ÷ sizeof_double) with C
    by (unfold sizeof_double; rewrite (Z.mul_comm 8 C), Z.quot_mul; lia).
  rewrite load_frames_add; try assumption.
  - rewrite Hl, Hcen, excerpt_snoc by lia. reflexivity.
  - apply length_load_frame.
  - nia.
Qed.

(** [commit_current_frame] of the centre frame after the frames of the
    track so far. *)
Lemma slice_commit f (fs : list (list double)) fr start pos n :
  fs = excerpt f start (pos - start) -> fr = passed_frame f pos ->
  start <= pos -> n = pos + 1 - start ->
  fs ++ [fr] = excerpt f start n.
Proof.
  intros -> -> Hs ->.
  replace (pos + 1 - start) with (pos - start + 1) by lia.
  rewrite excerpt_snoc by lia. do 3 f_equal. lia.
Qed.

Lemma slice_ok_update o f lo st st' :
  update_context o st = Some st' ->
  cut_point_action o = CPA_EXTRACT_TRACK ->
  1 <= numchannels st -> 1 <= min_signal_len st ->
  frame_sz st = sizeof_double * numchannels st ->
  centre_frame st = passed_frame f (cur_frame_pos st) ->
  leadin_ok o st ->
  slice_ok 0 f lo st -> slice_ok 1 f lo st'.
Proof.
  intros H. split_options o. cbn [cut_point_action]. intros ->.
  split_state st. unfold slice_ok, leadin_ok, leadin_fill, centre_frame.
  state_eval. machine_eval_in H.
  intros HC Hm Hfs Hcen [_ Hl]. specialize (Hl eq_refl).
  destruct Hl as (L1 & L2 & L3). specialize (L2 ltac:(lia)).
  intros Hs.
  case_matches; state_eval; ltb_props;
    repeat match goal with
           | H : _ /\ _ |- _ => destruct H
           | H : exists _, _ |- _ => destruct H
           | H : Some _ = Some _ |- _ => injection H as ? ?
           | H : 1 <= ?m -> _, H' : 1 <= ?m |- _ => specialize (H H')
           end; subst; try discriminate; rewrite ?Z.add_0_r in *.
  - (* silence, signal: the first lead-in frame *)
    repeat split; try assumption; try lia.
    eapply (slice_add f _ _ _ _ _ _ min_signal_len _ 0);
      try eassumption; try reflexivity; lia.
  - nia.
  - split; [| reflexivity]. eapply excerpts_weaken; [| eassumption]. lia.
  - repeat split; try assumption; try lia. do 2 eexists.
    split; [reflexivity |]. eapply (slice_commit f _ _ cur_track_start cur_frame_pos);
      try eassumption; try reflexivity; lia.
  - repeat split; try assumption; try lia. do 2 eexists.
    split; [reflexivity |]. eapply (slice_commit f _ _ cur_track_start cur_frame_pos);
      try eassumption; try reflexivity; lia.
  - split; [| reflexivity]. eapply excerpts_weaken; [| eassumption]. lia.
  - repeat split; try assumption; try lia.
    eapply (slice_add f _ _ _ _ _ _ min_signal_len _
              (cur_frame_pos - cur_track_start));
      try eassumption; try reflexivity; try lia; nia.
  - nia.
  - repeat split; try assumption; try lia. do 2 eexists.
    split; [reflexivity |]. rewrite Z.quot_mul by lia.
    replace (min_signal_len - time_to_live)
      with (cur_frame_pos - cur_track_start) by nia.
    eapply (slice_commit f _ _ cur_track_start cur_frame_pos);
      try eassumption; try reflexivity; lia.
  - repeat split; try assumption; try lia. do 2 eexists.
    split; [reflexivity |]. eapply (slice_commit f _ _ cur_track_start cur_frame_pos);
      try eassumption; try reflexivity; lia.
  - repeat split; try assumption; try lia. do 2 eexists.
    split; [reflexivity |]. eapply (slice_commit f _ _ cur_track_start cur_frame_pos);
      try eassumption; try reflexivity; lia.
  - split; [| reflexivity].
    rewrite (slice_commit f _ _ cur_track_start cur_frame_pos
               (cur_frame_pos + 1 - cur_track_start) eq_refl Hcen
               ltac:(lia) eq_refl).
    pose proof (excerpts_snoc f track_dir lo cur_track_start x
                  cur_track_start (cur_frame_pos + 1 - cur_track_start)
                  H ltac:(lia) ltac:(lia)) as E.
    replace (cur_track_start + (cur_frame_pos + 1 - cur_track_start))
      with (cur_frame_pos + 1) in E by lia.
    exact E.
Qed.

Lemma slice_ok_fetch o f lo st :
  slice_ok 1 f lo st -> slice_ok 0 f lo (snd (fetch_next_frame o st)).
Proof.
  pose proof (fetch_next_frame_machine o st) as Hm.
  apply machine_fields in Hm
    as (M1 & _ & M3 & _ & M5 & M6 & _ & M8 & M9 & _).
  pose proof (fetch_next_frame_params o st) as Hp.
  apply params_fields in Hp as (P1 & _).
  unfold slice_ok. rewrite fetch_next_frame_pos, M1, M3, M5, M6, M8, M9, P1.
  replace (cur_frame_pos st + 1 + 0) with (cur_frame_pos st + 1) by lia.
  auto.
Qed.

(** A call of [update_context] leaves the track directory as it is, or
    closes the open file after the centre frame has been appended to it;
    the file then holds the frames from the start of the track to the
    current position. *)
Lemma update_context_closes o f lo st st' :
  update_context o st = Some st' ->
  cut_point_action o = CPA_EXTRACT_TRACK ->
  centre_frame st = passed_frame f (cur_frame_pos st) ->
  slice_ok 0 f lo st ->
  track_dir st' = track_dir st \/
  exists nm,
    track_dir st'
    = track_dir st
      ++ [(nm, excerpt f (cur_track_start st)
                 (cur_frame_pos st + 1 - cur_track_start st))].
Proof.
  intros H. split_options o. cbn [cut_point_action]. intros ->.
  split_state st. unfold slice_ok, centre_frame.
  state_eval. machine_eval_in H.
  intros Hcen Hs.
  case_matches; state_eval; ltb_props;
    repeat match goal with
           | H : _ /\ _ |- _ => destruct H
           | H : exists _, _ |- _ => destruct H
           | H : Some _ = Some _ |- _ => injection H as ? ?
           end; subst; try discriminate; rewrite ?Z.add_0_r in *;
    try (left; reflexivity).
  right. eexists. do 3 f_equal.
  apply (slice_commit f _ _ cur_track_start cur_frame_pos);
    try reflexivity; try assumption; lia.
Qed.

Lemma slice_ok_exit o f lo st :
  cut_point_action o = CPA_EXTRACT_TRACK -> slice_ok 0 f lo st ->
  excerpts f lo (track_dir (cutter_exit o st)) (cur_frame_pos st).
Proof.
  split_options o. cbn [cut_point_action]. intros ->.
  split_state st. unfold slice_ok. state_eval.
  cbv beta iota zeta delta [cutter_exit force_end_of_track close_out_file
                              print_track_cut].
  state_eval. rewrite Z.add_0_r. intros Hs.
  case_matches; state_eval;
    repeat match goal with
           | H : _ /\ _ |- _ => destruct H
           | H : exists _, _ |- _ => destruct H
           | H : Some _ = Some _ |- _ =>
               first [injection H as ? ? | injection H as ?]
           end; subst; try discriminate;
    try assumption;
    try (eapply excerpts_weaken; [| eassumption]; lia).
  all: match goal with
       | H : excerpts _ _ _ ?s |- excerpts _ _ (_ ++ [(?nm, excerpt _ ?s (?p - ?s))]) ?p =>
           let E := fresh in
           pose proof (excerpts_snoc _ _ _ _ nm s (p - s) H ltac:(lia) ltac:(lia)) as E;
           replace (s + (p - s)) with p in E by lia; exact E
       end.
Qed.

(** What [cutter_loop] does to the track directory on leaving the loop: it
    closes the file that is still open, which holds the frames from the
    start of the track to the frame before the current position. *)
Lemma cutter_exit_closes o f lo st :
  cut_point_action o = CPA_EXTRACT_TRACK -> slice_ok 0 f lo st ->
  track_dir (cutter_exit o st) = track_dir st \/
  exists nm,
    track_dir (cutter_exit o st)
    = track_dir st
      ++ [(nm, excerpt f (cur_track_start st)
                 (cur_frame_pos st - cur_track_start st))].
Proof.
  split_options o. cbn [cut_point_action]. intros ->.
  split_state st. unfold slice_ok. state_eval.
  cbv beta iota zeta delta [cutter_exit force_end_of_track close_out_file
                              print_track_cut].
  state_eval. rewrite Z.add_0_r. intros Hs.
  case_matches; state_eval;
    repeat match goal with
           | H : _ /\ _ |- _ => destruct H
           | H : exists _, _ |- _ => destruct H
           | H : Some _ = Some _ |- _ =>
               first [injection H as ? ? | injection H as ?]
           end; subst; try discriminate;
    first [left; reflexivity | right; eexists; reflexivity].
Qed.

Lemma slice_ok_reach o f st0 st :
  init_state o f = Some st0 -> cut_point_action o = CPA_EXTRACT_TRACK ->
  1 <= sf_channels f <= MAX_CHANNELS -> 20 <= sf_samplerate f ->
  0 <= start_frame_idx o ->
  1 <= sf_samplerate f * min_signal_period o ÷ 1000 ->
  high_pass_filter_enabled o = false ->
  (forall c, 0 <= c < sf_channels f -> load (dc_offset o) c = dzero) ->
  framed f -> loop_reach o st0 st ->
  slice_ok 0 f (start_frame_idx o) st.
Proof.
  intros Hi Ho HC HR Hs Hms Hhp Hdc Hw Hr.
  pose proof (proj1 HC) as HC1.
  pose proof (init_state_facts _ _ _ Hi) as F. split_facts F.
  induction Hr as [| s s' Hrs IH Hbs].
  - unfold slice_ok. rewrite if_context, if_track_dir, if_out_file, if_pos.
    split; [simpl; lia | reflexivity].
  - pose proof (loop_reach_params _ _ _ Hrs) as Hp.
    apply params_fields in Hp as (P1 & _ & _ & P4 & _ & _ & _ & P8 & _).
    apply loop_body_inv in Hbs as (s1 & b & Hu & Hf & _).
    pose proof (slice_ok_fetch o f (start_frame_idx o) s1) as Hfe.
    rewrite Hf in Hfe. apply Hfe.
    eapply slice_ok_update; try eassumption.
    + rewrite P1, if_numchannels. lia.
    + rewrite P4, if_min_signal. exact Hms.
    + rewrite P8, P1, if_frame_sz, if_numchannels. reflexivity.
    + eapply centre_frame_passed; eassumption.
    + eapply leadin_ok_reach; eassumption.
Qed.

(** X10.  In extraction mode with the high-pass filter off, zero DC offsets
    and a signal dwell of at least one frame, for a recording of 1 to 8
    channels whose frames have one sample for each channel, in every tick of
    a run: the track being written is the run of consecutive frames of the
    recording from [cur_track_start] up to the current position, each sample
    plus zero (zero frames where it reaches past the end); it is in the
    lead-in buffer while the track is starting and in the open file
    afterwards, the lead-in frames first. A file is closed by
    [update_context] with the frames from [cur_track_start] to the current
    position in it, or by [cutter_loop] on leaving the loop with the frames
    from [cur_track_start] to the frame before the current position, and
    [fetch_next_frame] closes none. The closed files are not empty and
    follow one another in the recording without overlap, from the start
    frame of the run on. *)
Theorem track_files_are_excerpts o f st0 st :
  init_state o f = Some st0 -> cut_point_action o = CPA_EXTRACT_TRACK ->
  1 <= sf_channels f <= MAX_CHANNELS -> 20 <= sf_samplerate f ->
  0 <= start_frame_idx o ->
  1 <= sf_samplerate f * min_signal_period o ÷ 1000 ->
  high_pass_filter_enabled o = false ->
  (forall c, 0 <= c < sf_channels f -> load (dc_offset o) c = dzero) ->
  framed f -> loop_reach o st0 st ->
  let start := cur_track_start st in
  let pos := cur_frame_pos st in
  excerpts f (start_frame_idx o) (track_dir st) pos /\
  (cut_context st = CCTX_TRACK_STARTING ->
   start < pos /\
   load_frames (leadin_buf st) 0 (numchannels st) (Z.to_nat (pos - start))
   = excerpt f start (pos - start)) /\
  (forall nm fs, out_file st = Some (nm, fs) ->
     start < pos /\ fs = excerpt f start (pos - start)) /\
  (forall s1 more st',
     update_context o st = Some s1 -> fetch_next_frame o s1 = (more, st') ->
     (track_dir s1 = track_dir st \/
      exists nm,
        track_dir s1
        = track_dir st ++ [(nm, excerpt f start (pos + 1 - start))]) /\
     track_dir st' = track_dir s1 /\
     (track_dir (cutter_exit o st') = track_dir st' \/
      exists nm,
        track_dir (cutter_exit o st')
        = track_dir st'
          ++ [(nm, excerpt f (cur_track_start st')
                     (cur_frame_pos st' - cur_track_start st'))])).
Proof.
  intros Hi Ho HC HR Hs Hms Hhp Hdc Hw Hr start pos. subst start pos.
  pose proof (proj1 HC) as HC1.
  pose proof (slice_ok_reach _ _ _ _ Hi Ho HC HR Hs Hms Hhp Hdc Hw Hr) as Hk.
  pose proof (centre_frame_passed _ _ _ _ Hi HC HR Hs Hhp Hdc Hw Hr) as Hcen.
  split; [| split; [| split]].
  - unfold slice_ok in Hk. destruct (cut_context st).
    + rewrite Z.add_0_r in Hk. apply Hk.
    + destruct Hk as (E & Hlt & _).
      eapply excerpts_weaken; [| exact E]. lia.
    + destruct Hk as (E & Hlt & _).
      eapply excerpts_weaken; [| exact E]. lia.
    + destruct Hk as (E & Hlt & _).
      eapply excerpts_weaken; [| exact E]. lia.
  - intros Hc. unfold slice_ok in Hk. rewrite Hc in Hk.
    rewrite Z.add_0_r in Hk. destruct Hk as (_ & Hlt & _ & _ & Hl).
    split; [exact Hlt | exact Hl].
  - intros nm fs Hout. unfold slice_ok in Hk.
    destruct (cut_context st); rewrite ?Z.add_0_r in Hk.
    + destruct Hk as [_ Hn]. congruence.
    + destruct Hk as (_ & Hlt & nm' & fs' & Hout' & Hfs).
      split; [exact Hlt | congruence].
    + destruct Hk as (_ & _ & Hn & _). congruence.
    + destruct Hk as (_ & Hlt & nm' & fs' & Hout' & Hfs).
      split; [exact Hlt | congruence].
  - intros s1 more st' Hu Hf.
    split; [eapply update_context_closes; eassumption |].
    pose proof (fetch_next_frame_machine o s1) as Hm.
    apply machine_fields in Hm as (_ & _ & _ & _ & _ & _ & _ & _ & M9 & _).
    rewrite Hf in M9. cbn [snd] in M9. split; [exact M9 |].
    apply (cutter_exit_closes o f (start_frame_idx o) st' Ho).
    assert (Hb : loop_body o st
                 = Some (more && (cur_track_num st' <=? track_num_end o), st'))
      by (unfold loop_body; rewrite Hu; cbn; rewrite Hf; reflexivity).
    destruct (more && (cur_track_num st' <=? track_num_end o)) eqn:Em.
    + eapply slice_ok_reach; try eassumption.
      eapply reach_step; eassumption.
    + pose proof (slice_ok_fetch o f (start_frame_idx o) s1) as Hfe.
      rewrite Hf in Hfe. apply Hfe.
      pose proof (loop_reach_params _ _ _ Hr) as Hp.
      apply params_fields in Hp as (P1 & _ & _ & P4 & _ & _ & _ & P8 & _).
      pose proof (init_state_facts _ _ _ Hi) as F. split_facts F.
      eapply slice_ok_update; try eassumption.
      * rewrite P1, if_numchannels. lia.
      * rewrite P4, if_min_signal. exact Hms.
      * rewrite P8, P1, if_frame_sz, if_numchannels. reflexivity.
      * eapply leadin_ok_reach; eassumption.
Qed.

End Excerpts.

Section Ranges.
Context {D : DoubleOps}.

Lemma strchr_hyphen_none s :
  strchr_hyphen s = None <-> count_hyphens s = O.
Proof.
  induction s as [| c s IH]; simpl; [tauto |].
  destruct (Ascii.eqb c "-"); [split; [discriminate | lia] |].
  destruct (strchr_hyphen s) as [[a b] |].
  - split; [discriminate |]. intros H. simpl in H. apply IH in H.
    discriminate H.
  - simpl. tauto.
Qed.

Lemma strchr_hyphen_some s : forall a b,
  strchr_hyphen s = Some (a, b) <->
  s = String.append a (String "-"%char b) /\ count_hyphens a = O.
Proof.
  induction s as [| c s IH]; intros a b; simpl.
  - split; [discriminate |]. intros [E _]. destruct a; discriminate E.
  - destruct (Ascii.eqb_spec c "-"%char) as [-> | Hc].
    + split.
      * intros [= <- <-]. split; reflexivity.
      * intros [E Ha]. destruct a as [| c' a]; simpl in E.
        -- injection E as <-. reflexivity.
        -- injection E as <- _. simpl in Ha. discriminate Ha.
    + apply Ascii.eqb_neq in Hc. split.
      * remember (strchr_hyphen s) as r eqn:E in |- *.
        destruct r as [[a' b'] |]; [| discriminate].
        intros [= <- <-]. symmetry in E. apply IH in E as [-> Ha]. simpl.
        rewrite Hc. split; [reflexivity | exact Ha].
      * intros [E Ha]. destruct a as [| c' a]; simpl in E.
        -- injection E as -> _. rewrite Ascii.eqb_refl in Hc. discriminate Hc.
        -- injection E as <- ->. simpl in Ha. rewrite Hc in Ha. simpl in Ha.
           rewrite (proj2 (IH a b) (conj eq_refl Ha)). reflexivity.
Qed.

Lemma count_hyphens_app a b :
  count_hyphens (String.append a b) = (count_hyphens a + count_hyphens b)%nat.
Proof. induction a as [| c a IH]; simpl; [reflexivity | rewrite IH; lia]. Qed.

Lemma split_range_spec (optarg a b : string) :
  split_range optarg = Some (a, b) <->
  optarg = String.append a (String "-"%char b) /\
  count_hyphens a = O /\ count_hyphens b = O.
Proof.
  unfold split_range. split.
  - destruct (strchr_hyphen optarg) as [[a0 b0] |] eqn:E; [| discriminate].
    destruct (strchr_hyphen b0) as [[] |] eqn:E2; [discriminate |].
    intros [= <- <-]. apply strchr_hyphen_some in E as [-> Ha].
    apply strchr_hyphen_none in E2. repeat split; assumption.
  - intros (E & Ha & Hb).
    rewrite (proj2 (strchr_hyphen_some optarg a b) (conj E Ha)).
    rewrite (proj2 (strchr_hyphen_none b) Hb). reflexivity.
Qed.

(** X11.  A range argument is split only when it holds exactly one hyphen,
    and then into the text before the hyphen and the text after it; every
    other argument takes the fatal exit. *)
Theorem split_range_one_hyphen (optarg a b : string) :
  (split_range optarg = Some (a, b) <->
   optarg = String.append a (String "-"%char b) /\
   count_hyphens a = O /\ count_hyphens b = O) /\
  (split_range optarg = None <-> count_hyphens optarg <> 1%nat).
Proof.
  split; [apply split_range_spec |].
  remember (split_range optarg) as r eqn:E in |- *. symmetry in E.
  destruct r as [[a0 b0] |].
  - apply split_range_spec in E as (-> & Ha & Hb).
    rewrite count_hyphens_app. simpl. split; [discriminate | lia].
  - split; [intros _ | reflexivity]. intros H1.
    unfold split_range in E.
    destruct (strchr_hyphen optarg) as [[a0 b0] |] eqn:E1.
    + destruct (strchr_hyphen b0) as [[a1 b1] |] eqn:E2; [| discriminate].
      apply strchr_hyphen_some in E1 as [-> Ha].
      apply strchr_hyphen_some in E2 as [-> Ha1].
      rewrite !count_hyphens_app in H1. simpl in H1.
      rewrite !count_hyphens_app in H1. simpl in H1. lia.
    + apply strchr_hyphen_none in E1. lia.
Qed.

(** *** Boundaries *)

Lemma scan_lld_blank s : blank s -> scan_lld s = None.
Proof. unfold blank, scan_lld. intros ->. reflexivity. Qed.

Lemma scan_lld_some s n rest :
  scan_lld s = Some (n, rest) -> ~ blank s.
Proof.
  unfold blank, scan_lld. intros H E. rewrite E in H. discriminate H.
Qed.

(** *** Numerals *)

Lemma scan_digits_stop rest acc :
  no_digit_head rest -> scan_digits rest acc = (acc, rest).
Proof. destruct rest as [| c t]; simpl; [reflexivity | intros ->; reflexivity]. Qed.

Lemma scan_digits_pos u : forall acc rest,
  no_digit_head rest ->
  scan_digits (String.append (NilEmpty.string_of_uint u) rest) (Z.pos acc)
  = (Z.pos (Pos.of_uint_acc u acc), rest).
Proof.
  induction u as [| u IH | u IH | u IH | u IH | u IH | u IH | u IH | u IH
                  | u IH | u IH]; intros acc rest Hr;
    cbn [NilEmpty.string_of_uint String.append Pos.of_uint_acc];
    [apply scan_digits_stop, Hr | ..];
    match goal with
    | |- scan_digits (String ?c ?t) ?a = _ =>
        change (scan_digits (String c t) a)
          with (match digit_of c with
                | Some d => scan_digits t (a * 10 + d)
                | None => (a, String c t)
                end)
    end;
    match goal with
    | |- context [digit_of ?c] =>
        let v := eval vm_compute in (digit_of c) in
        change (digit_of c) with v
    end; cbv iota beta;
    rewrite <- IH by exact Hr; f_equal; lia.
Qed.

Lemma scan_digits_uint u : forall rest,
  no_digit_head rest ->
  scan_digits (String.append (NilEmpty.string_of_uint u) rest) 0
  = (Z.of_N (Pos.of_uint u), rest).
Proof.
  induction u as [| u IH | u IH | u IH | u IH | u IH | u IH | u IH | u IH
                  | u IH | u IH]; intros rest Hr;
    cbn [NilEmpty.string_of_uint String.append Pos.of_uint];
    [apply scan_digits_stop, Hr | ..];
    match goal with
    | |- scan_digits (String ?c ?t) ?a = _ =>
        change (scan_digits (String c t) a)
          with (match digit_of c with
                | Some d => scan_digits t (a * 10 + d)
                | None => (a, String c t)
                end)
    end;
    match goal with
    | |- context [digit_of ?c] =>
        let v := eval vm_compute in (digit_of c) in
        change (digit_of c) with v
    end; cbv iota beta;
    first [apply IH, Hr | apply (scan_digits_pos u _ rest Hr)].
Qed.

Lemma scan_lld_digit c t d :
  digit_of c = Some d ->
  scan_lld (String c t)
  = (let '(n, rest) := scan_digits (String c t) 0 in
     Some (llong_of n, rest)).
Proof.
  intros Hd.
  destruct c as [[] [] [] [] [] [] [] []];
    try (vm_compute in Hd; discriminate Hd); reflexivity.
Qed.

Lemma scan_lld_minus c t d :
  digit_of c = Some d ->
  scan_lld (String "-"%char (String c t))
  = (let '(n, rest) := scan_digits (String c t) 0 in
     Some (llong_of (- n), rest)).
Proof.
  intros Hd.
  destruct c as [[] [] [] [] [] [] [] []];
    try (vm_compute in Hd; discriminate Hd); reflexivity.
Qed.

Lemma llong_of_fits n : LLONG_MIN <= n <= LLONG_MAX -> llong_of n = n.
Proof. unfold llong_of. lia. Qed.

Lemma llong_of_range n : LLONG_MIN <= llong_of n <= LLONG_MAX.
Proof. unfold llong_of, LLONG_MIN, LLONG_MAX. lia. Qed.

Lemma llong_of_sign n :
  (0 <= n -> 0 <= llong_of n) /\ (n < 0 -> llong_of n < 0).
Proof. unfold llong_of, LLONG_MIN, LLONG_MAX. lia. Qed.

Lemma string_of_uint_head u :
  u <> Nil ->
  exists c t d, NilEmpty.string_of_uint u = String c t /\ digit_of c = Some d.
Proof.
  destruct u; [congruence | ..]; intros _; do 3 eexists;
    (split; [reflexivity | vm_compute; reflexivity]).
Qed.

Lemma count_hyphens_uint u : count_hyphens (NilEmpty.string_of_uint u) = O.
Proof.
  induction u; [reflexivity | ..];
    cbn [NilEmpty.string_of_uint count_hyphens];
    match goal with
    | |- context [Ascii.eqb ?a ?b] =>
        let v := eval vm_compute in (Ascii.eqb a b) in
        change (Ascii.eqb a b) with v
    end; assumption.
Qed.

Lemma scan_lld_uint u rest :
  u <> Nil -> no_digit_head rest ->
  scan_lld (String.append (NilEmpty.string_of_uint u) rest)
  = Some (llong_of (Z.of_N (Pos.of_uint u)), rest).
Proof.
  intros Hu Hr. pose proof (scan_digits_uint u rest Hr) as E.
  destruct (string_of_uint_head u Hu) as (c & t & d & Hs & Hd).
  rewrite Hs in *. cbn [String.append] in *.
  rewrite (scan_lld_digit _ _ _ Hd), E. reflexivity.
Qed.

Lemma to_uint_nonnil (m : N) : N.to_uint m <> Nil.
Proof.
  destruct m as [| p]; [discriminate |]. apply DecimalPos.Unsigned.to_uint_nonnil.
Qed.

Lemma decimal_digits n :
  decimal n = NilEmpty.string_of_uint (N.to_uint (Z.to_N n)).
Proof.
  unfold decimal, NilZero.string_of_uint.
  pose proof (to_uint_nonnil (Z.to_N n)) as H.
  destruct (N.to_uint (Z.to_N n)); [congruence | reflexivity ..].
Qed.

Lemma scan_lld_decimal n rest :
  0 <= n -> no_digit_head rest ->
  scan_lld (String.append (decimal n) rest) = Some (llong_of n, rest).
Proof.
  intros Hn Hr. rewrite decimal_digits.
  rewrite scan_lld_uint; [| apply to_uint_nonnil | exact Hr].
  change (Pos.of_uint (N.to_uint (Z.to_N n)))
    with (N.of_uint (N.to_uint (Z.to_N n))).
  rewrite DecimalN.Unsigned.of_to, Z2N.id by exact Hn. reflexivity.
Qed.

Lemma scan_lld_minus_decimal n rest :
  0 <= n -> no_digit_head rest ->
  scan_lld (String "-"%char (String.append (decimal n) rest))
  = Some (llong_of (- n), rest).
Proof.
  intros Hn Hr. rewrite decimal_digits.
  pose proof (scan_digits_uint (N.to_uint (Z.to_N n)) rest Hr) as E.
  destruct (string_of_uint_head _ (to_uint_nonnil (Z.to_N n)))
    as (c & t & d & Hs & Hd).
  rewrite Hs in *. cbn [String.append] in *.
  rewrite (scan_lld_minus _ _ _ Hd), E.
  change (Pos.of_uint (N.to_uint (Z.to_N n)))
    with (N.of_uint (N.to_uint (Z.to_N n))).
  rewrite DecimalN.Unsigned.of_to, Z2N.id by exact Hn. reflexivity.
Qed.

Lemma skip_space_blank w s :
  blank w -> skip_space (String.append w s) = skip_space s.
Proof.
  unfold blank. induction w as [| c w IH]; simpl; [reflexivity |].
  destruct (isspace c); [exact IH | discriminate].
Qed.

Lemma blank_no_digit w : blank w -> no_digit_head w.
Proof.
  unfold blank. destruct w as [| c w]; simpl; [reflexivity |].
  destruct (isspace c) eqn:E; [| discriminate]. intros _.
  destruct c as [[] [] [] [] [] [] [] []];
    try (vm_compute in E; discriminate E); reflexivity.
Qed.

Lemma scan_lld_skip w s :
  blank w -> scan_lld (String.append w s) = scan_lld s.
Proof. intros Hw. unfold scan_lld. rewrite skip_space_blank by exact Hw. reflexivity. Qed.

Lemma parse_decimal w1 w2 n dfl :
  blank w1 -> blank w2 -> 0 <= n -> n <= SF_COUNT_MAX ->
  parse_int_boundary (String.append w1 (String.append (decimal n) w2)) dfl
  = Some n.
Proof.
  intros H1 H2 Hn Hm. unfold parse_int_boundary.
  rewrite scan_lld_skip by exact H1.
  rewrite scan_lld_decimal; [| exact Hn | apply blank_no_digit, H2].
  rewrite llong_of_fits
    by (unfold LLONG_MIN, LLONG_MAX, SF_COUNT_MAX in *; lia).
  destruct (Z.ltb_spec n 0); [lia |]. rewrite H2. reflexivity.
Qed.

(** X12.  A boundary is the default exactly when its text is blank, and a
    boundary that is read from the text is never negative. A negative
    numeral takes the fatal exit, and so does a numeral with anything but
    white space after it. *)
Theorem parse_int_boundary_cases (s : string) (dfl : Z) :
  (blank s -> parse_int_boundary s dfl = Some dfl) /\
  (forall n, parse_int_boundary s dfl = Some n ->
             blank s /\ n = dfl \/ ~ blank s /\ 0 <= n) /\
  (forall w n rest,
     blank w -> 0 < n -> no_digit_head rest ->
     s = String.append w (String "-"%char (String.append (decimal n) rest)) ->
     parse_int_boundary s dfl = None) /\
  (forall w n junk,
     blank w -> 0 <= n -> no_digit_head junk -> ~ blank junk ->
     s = String.append w (String.append (decimal n) junk) ->
     parse_int_boundary s dfl = None).
Proof.
  split; [| split; [| split]].
  - intros Hb. unfold parse_int_boundary. rewrite scan_lld_blank by exact Hb.
    rewrite Hb. reflexivity.
  - intros n. unfold parse_int_boundary.
    destruct (scan_lld s) as [[m rest] |] eqn:E.
    + destruct (Z.ltb_spec m 0); [discriminate |].
      destruct (is_empty (skip_space rest)); [| discriminate].
      intros [= <-]. right. split; [| assumption].
      eapply scan_lld_some. exact E.
    + destruct (skip_space s) eqn:Es; [| discriminate].
      intros [= <-]. left. split; [exact Es | reflexivity].
  - intros w n rest Hw Hn Hr ->. unfold parse_int_boundary.
    rewrite scan_lld_skip by exact Hw.
    rewrite scan_lld_minus_decimal by (lia || exact Hr).
    destruct (llong_of_sign (- n)) as [_ Hneg].
    destruct (Z.ltb_spec (llong_of (- n)) 0); [reflexivity | lia].
  - intros w n junk Hw Hn Hj Hnb ->. unfold parse_int_boundary.
    rewrite scan_lld_skip by exact Hw.
    rewrite scan_lld_decimal by assumption.
    destruct (llong_of_sign n) as [Hpos _].
    destruct (Z.ltb_spec (llong_of n) 0); [lia |].
    unfold blank in Hnb. destruct (skip_space junk); [congruence |].
    reflexivity.
Qed.

(** X13.  Reading back what [%lld] prints: the numeral of a non-negative
    [sf_count_t], with white space before it and after it or without, is
    read as that number, whatever the default. *)
Theorem parse_int_boundary_decimal (w1 w2 : string) (n dfl : Z) :
  blank w1 -> blank w2 -> 0 <= n -> n <= SF_COUNT_MAX ->
  parse_int_boundary (String.append w1 (String.append (decimal n) w2)) dfl
  = Some n.
Proof. intros H1 H2 Hn Hm. apply parse_decimal; assumption. Qed.

Lemma append_nil_r s : String.append s EmptyString = s.
Proof. induction s as [| c s IH]; simpl; [| rewrite IH]; reflexivity. Qed.

Lemma parse_boundary_text x dfl :
  (forall n, x = Some n -> 0 <= n <= SF_COUNT_MAX) ->
  parse_int_boundary (boundary_text x) dfl = Some (default dfl x).
Proof.
  intros Hx. destruct x as [n |]; simpl; [| reflexivity].
  pose proof (parse_decimal EmptyString EmptyString n dfl eq_refl eq_refl
                (proj1 (Hx n eq_refl)) (proj2 (Hx n eq_refl))) as E.
  cbn [String.append] in E. rewrite append_nil_r in E. exact E.
Qed.

Lemma count_hyphens_boundary x : count_hyphens (boundary_text x) = O.
Proof.
  destruct x as [n |]; simpl; [| reflexivity].
  rewrite decimal_digits. apply count_hyphens_uint.
Qed.

(** X14.  A frame range written as two numerals with a hyphen between them,
    either of which may be left out, is read as it is written: the start
    frame is the first number, or 0 when it is left out, and the end frame
    is the second, or [SF_COUNT_MAX]; the task, the action, the dwell
    periods, the noise floor, the track range, the DC offsets and the filter
    switch are left as they were. *)
Theorem frame_range_round_trip (x y : option Z) (o : options_t) :
  let a := default 0 x in
  let b := default SF_COUNT_MAX y in
  0 <= a -> a <= b -> b <= SF_COUNT_MAX ->
  exists o',
    parse_frame_range (range_text x y) o = Some o' /\
    start_frame_idx o' = a /\ end_frame_idx o' = b /\
    task o' = task o /\ cut_point_action o' = cut_point_action o /\
    min_silence_period o' = min_silence_period o /\
    min_signal_period o' = min_signal_period o /\
    noise_floor_dbfs o' = noise_floor_dbfs o /\
    min_track_length o' = min_track_length o /\
    track_num_start o' = track_num_start o /\
    track_num_end o' = track_num_end o /\
    dc_offset o' = dc_offset o /\
    high_pass_filter_enabled o' = high_pass_filter_enabled o.
Proof.
  intros a b Ha Hab Hb. exists (set_frame_range a b o).
  split; [| repeat split].
  unfold parse_frame_range, range_text.
  rewrite (proj2 (split_range_spec _ (boundary_text x) (boundary_text y)))
    by (repeat split; apply count_hyphens_boundary).
  rewrite (parse_boundary_text x 0)
    by (intros n E; subst a b; rewrite E in *; simpl in *; lia).
  cbn [mbind option_bind].
  rewrite (parse_boundary_text y SF_COUNT_MAX)
    by (intros n E; subst a b; rewrite E in *; simpl in *; lia).
  cbn [mbind option_bind]. fold a b.
  change (end_frame_idx (set_frame_range a b o)) with b.
  change (start_frame_idx (set_frame_range a b o)) with a.
  destruct (Z.ltb_spec b a); [lia | reflexivity].
Qed.

Lemma scan_lld_range s m rest :
  scan_lld s = Some (m, rest) -> LLONG_MIN <= m <= LLONG_MAX.
Proof.
  unfold scan_lld.
  destruct (match skip_space s with
            | String "-"%char t => (true, t)
            | String "+"%char t => (false, t)
            | _ => (false, skip_space s)
            end) as [neg s2].
  destruct s2 as [| c t]; [discriminate |].
  destruct (digit_of c); [| discriminate].
  destruct (scan_digits (String c t) 0) as [n r].
  intros [= <- _]. apply llong_of_range.
Qed.

Lemma parse_int_boundary_range s dfl n :
  0 <= dfl <= SF_COUNT_MAX -> parse_int_boundary s dfl = Some n ->
  0 <= n <= SF_COUNT_MAX.
Proof.
  intros Hd. unfold parse_int_boundary.
  destruct (scan_lld s) as [[m rest] |] eqn:E.
  - apply scan_lld_range in E. unfold LLONG_MAX in E.
    destruct (Z.ltb_spec m 0); [discriminate |].
    destruct (is_empty (skip_space rest)); [| discriminate].
    intros [= <-]. unfold SF_COUNT_MAX. lia.
  - destruct (is_empty (skip_space s)); [| discriminate].
    intros [= <-]. assumption.
Qed.

(** X15.  A frame range that is accepted holds exactly one hyphen and is
    valid: the start frame is not negative, the end frame is not before the
    start frame and not above [SF_COUNT_MAX]; the task, the action, the
    dwell periods, the noise floor, the track range, the DC offsets and the
    filter switch are left as they were. *)
Theorem parse_frame_range_sound (optarg : string) (o o' : options_t) :
  parse_frame_range optarg o = Some o' ->
  count_hyphens optarg = 1%nat /\
  0 <= start_frame_idx o' <= end_frame_idx o' /\
  end_frame_idx o' <= SF_COUNT_MAX /\
  task o' = task o /\ cut_point_action o' = cut_point_action o /\
  min_silence_period o' = min_silence_period o /\
  min_signal_period o' = min_signal_period o /\
  noise_floor_dbfs o' = noise_floor_dbfs o /\
  min_track_length o' = min_track_length o /\
  track_num_start o' = track_num_start o /\
  track_num_end o' = track_num_end o /\
  dc_offset o' = dc_offset o /\
  high_pass_filter_enabled o' = high_pass_filter_enabled o.
Proof.
  unfold parse_frame_range.
  destruct (split_range optarg) as [[a b] |] eqn:E; [| discriminate].
  apply split_range_spec in E as (-> & Ha & Hb).
  destruct (parse_int_boundary a 0) as [s |] eqn:Es; [| discriminate].
  cbn [mbind option_bind].
  destruct (parse_int_boundary b SF_COUNT_MAX) as [e |] eqn:Ee;
    [| discriminate].
  cbn [mbind option_bind].
  change (end_frame_idx (set_frame_range s e o)) with e.
  change (start_frame_idx (set_frame_range s e o)) with s.
  destruct (Z.ltb_spec e s); [discriminate |]. intros [= <-].
  change (end_frame_idx (set_frame_range s e o)) with e.
  change (start_frame_idx (set_frame_range s e o)) with s.
  apply parse_int_boundary_range in Es; [| unfold SF_COUNT_MAX; lia].
  apply parse_int_boundary_range in Ee; [| unfold SF_COUNT_MAX; lia].
  rewrite count_hyphens_app. simpl. rewrite Ha, Hb.
  repeat split; try reflexivity; lia.
Qed.

End Ranges.

Section Dwell.
Context {D : DoubleOps}.

Lemma dwell_ok_update o st st' :
  update_context o st = Some st' -> dwell_ok 0 st -> dwell_ok 1 st'.
Proof.
  intros H. split_options o.
  destruct ocpa; split_state st; unfold dwell_ok; state_eval;
    machine_eval_in H; intros Hd;
    case_matches; state_eval; ltb_props; try exact I; try lia;
    try (destruct Hd as [D1 D2]; split; intros Hm;
         first [specialize (D1 Hm) | specialize (D2 Hm)]; lia);
    try (split; intros Hm; lia).
Qed.

Lemma dwell_ok_fetch o st :
  dwell_ok 1 st -> dwell_ok 0 (snd (fetch_next_frame o st)).
Proof.
  pose proof (fetch_next_frame_machine o st) as Hm.
  apply machine_fields in Hm as (M1 & M2 & M3 & _).
  pose proof (fetch_next_frame_params o st) as Hp.
  apply params_fields in Hp as (_ & _ & _ & P4 & _).
  unfold dwell_ok. rewrite fetch_next_frame_pos, M1, M2, M3, P4.
  replace (cur_frame_pos st + 1 + 0) with (cur_frame_pos st + 1) by lia.
  auto.
Qed.

Lemma dwell_ok_reach o f st0 st :
  init_state o f = Some st0 -> loop_reach o st0 st -> dwell_ok 0 st.
Proof.
  intros H Hr. induction Hr as [| st st' _ IH Hb].
  - apply init_state_facts in H. split_facts H. unfold dwell_ok.
    rewrite if_context. exact I.
  - apply loop_body_inv in Hb as (s1 & b & Hu & Hf & _).
    apply (dwell_ok_update _ _ _ Hu) in IH.
    apply (dwell_ok_fetch o) in IH. rewrite Hf in IH. exact IH.
Qed.

Lemma update_context_confirms o st st' :
  update_context o st = Some st' ->
  cut_context st = CCTX_TRACK_STARTING -> cut_context st' = CCTX_TRACK ->
  we_have_signal st = true /\ time_to_live st <= 0 /\
  cur_track_start st' = cur_track_start st.
Proof.
  intros H. split_options o.
  destruct ocpa; split_state st; state_eval; machine_eval_in H;
    intros ->; case_matches; state_eval; ltb_props; intros Hc;
    try discriminate Hc; repeat split; try reflexivity; try lia;
    match goal with
    | H : negb ?b = false |- ?b = true => destruct b; [reflexivity | discriminate H]
    end.
Qed.

(** X16.  The signal dwell: the tick that confirms a track, the step from
    [CCTX_TRACK_STARTING] to [CCTX_TRACK], comes exactly [min_signal_len]
    frames after the frame at which the track starts (one frame after it
    when [min_signal_len] is zero), with signal at the confirming frame. In
    every tick in which a track is being written, the track has run for more
    than that. *)
Theorem track_confirmation_dwell o f st0 st st' :
  init_state o f = Some st0 -> loop_reach o st0 st ->
  update_context o st = Some st' ->
  (cut_context st = CCTX_TRACK_STARTING -> cut_context st' = CCTX_TRACK ->
   we_have_signal st = true /\
   cur_track_start st' = cur_track_start st /\
   cur_frame_pos st = cur_track_start st + Z.max 1 (min_signal_len st)) /\
  (in_track st = true ->
   cur_track_start st + Z.max 1 (min_signal_len st) < cur_frame_pos st).
Proof.
  intros Hi Hr Hu. pose proof (dwell_ok_reach _ _ _ _ Hi Hr) as Hd.
  unfold dwell_ok in Hd. split.
  - intros Hc Hc'. rewrite Hc in Hd. destruct Hd as [D1 D2].
    destruct (update_context_confirms _ _ _ Hu Hc Hc') as (U1 & U2 & U3).
    split; [exact U1 |]. split; [exact U3 |].
    destruct (Z.le_gt_cases 1 (min_signal_len st)) as [Hm | Hm].
    + specialize (D1 Hm). lia.
    + specialize (D2 ltac:(lia)). lia.
  - unfold in_track. destruct (cut_context st); try discriminate; lia.
Qed.

End Dwell.

Section Silence.
Context {D : DoubleOps}.

Lemma zeros_store (buf : list double) p : zeros buf -> zeros (store buf p dzero).
Proof.
  intros H q. destruct (load_store_cases buf p q dzero) as [-> | ->];
    [reflexivity | apply H].
Qed.

Lemma zeros_store_frame fr : forall (buf : list double) p,
  zeros buf -> zero_frame fr -> zeros (store_frame buf p fr).
Proof.
  induction fr as [| x fr IH]; intros buf p Hb Hf; simpl; [exact Hb |].
  apply Forall_cons in Hf as [-> Hf]. apply IH; [| exact Hf].
  apply zeros_store, Hb.
Qed.

Lemma zeros_store_frames frs : forall (buf : list double) p n,
  zeros buf -> Forall zero_frame frs -> zeros (store_frames buf p n frs).
Proof.
  induction frs as [| fr frs IH]; intros buf p n Hb Hf; simpl; [exact Hb |].
  apply Forall_cons in Hf as [Hx Hf]. apply IH; [| exact Hf].
  apply zeros_store_frame; [exact Hb |]. apply Forall_take. exact Hx.
Qed.

Lemma zeros_replicate n : zeros (replicate n dzero).
Proof. intros q. apply load_replicate. Qed.

Lemma zero_frame_replicate n : zero_frame (replicate n dzero).
Proof. apply Forall_replicate. reflexivity. Qed.

Section ZeroArith.
Hypothesis Zadd : dadd dzero dzero = dzero.
Hypothesis Zsub : dsub dzero dzero = dzero.
Hypothesis Zmul : dmul dzero dzero = dzero.

Lemma quiet_filter_channel o st c :
  high_pass_filter_enabled o = false -> load (dc_offset o) c = dzero ->
  quiet st -> quiet (filter_channel o st c).
Proof.
  intros Hhp Hdc (Hm & Hs & Hx).
  assert (Hm' : zeros (main_buf (filter_channel o st c))).
  { rewrite filter_channel_main by exact Hhp.
    rewrite Hdc, (Hm _), Zadd. apply zeros_store, Hm. }
  pose proof (filter_channel_sq o st c) as Hv.
  unfold filtered_sample in Hv. rewrite (Hm' _), Zmul in Hv.
  unfold sq_view, sq_step in Hv. cbv zeta in Hv.
  apply (f_equal fst) in Hv as Hv1. apply (f_equal snd) in Hv as Hv2.
  cbn [fst snd] in Hv1, Hv2.
  split; [exact Hm' |]. split.
  - rewrite Hv2. apply zeros_store, Hs.
  - rewrite Hv1. rewrite (Hx _), (Hs _), Zsub.
    rewrite (zeros_store _ _ Hx _), (zeros_store _ _ Hs _), Zadd.
    apply zeros_store, zeros_store, Hx.
Qed.

Lemma quiet_filter_new_frame o st :
  high_pass_filter_enabled o = false ->
  (forall c, 0 <= c < numchannels st -> load (dc_offset o) c = dzero) ->
  quiet st -> quiet (filter_new_frame o st).
Proof.
  intros Hhp Hdc Hq. unfold filter_new_frame.
  change (quiet (set_frames_proc_ttl ?v ?s)) with (quiet s).
  apply (fold_left_inv_in quiet); [exact Hq |].
  intros a c Hc Ha. apply elem_of_seqZ in Hc.
  apply quiet_filter_channel; [exact Hhp | apply Hdc; lia | exact Ha].
Qed.

Lemma new_frame_zero st :
  Forall zero_frame (in_file st) -> zero_frame (new_frame st).
Proof.
  intros Hf. unfold new_frame.
  destruct (negb (in_eof st) && (0 <? frames_remaining st));
    [| apply zero_frame_replicate].
  destruct Hf as [| fr rest Hfr _]; [apply zero_frame_replicate |].
  apply Forall_take. exact Hfr.
Qed.

Lemma quiet_fetch o st :
  high_pass_filter_enabled o = false ->
  (forall c, 0 <= c < numchannels st -> load (dc_offset o) c = dzero) ->
  Forall zero_frame (in_file st) -> quiet st ->
  quiet (snd (fetch_next_frame o st)) /\
  Forall zero_frame (in_file (snd (fetch_next_frame o st))).
Proof.
  intros Hhp Hdc Hf (Hm & Hs & Hx). split.
  - rewrite fetch_next_frame_admitted.
    destruct (admitted_sq st) as (V1 & _ & _ & V4 & V5).
    destruct (admitted_main st) as [_ Vm].
    apply params_fields in V1 as (PC & _).
    apply quiet_filter_new_frame; [exact Hhp | rewrite PC; exact Hdc |].
    unfold quiet. rewrite V4, V5, Vm, fetch_input_main.
    split; [| split; assumption].
    apply zeros_store_frame; [exact Hm | apply new_frame_zero, Hf].
  - pose proof (fetch_next_frame_counters o st) as Hc.
    apply (f_equal snd) in Hc. cbn [snd] in Hc.
    unfold counters at 2 in Hc. unfold source_step in Hc.
    destruct (negb (in_eof st) && (0 <? frames_remaining st));
      [destruct Hf as [| fr rest Hfr Hrest] |
       destruct (0 <? frames_remaining st)];
      cbn [snd] in Hc; apply counters_fields in Hc as (-> & _);
      first [constructor | assumption].
Qed.

Lemma quiet_prime_filter fuel o : forall st,
  high_pass_filter_enabled o = false ->
  (forall c, 0 <= c < numchannels st -> load (dc_offset o) c = dzero) ->
  quiet st -> quiet (prime_filter fuel o st).
Proof.
  induction fuel as [| fuel IH]; intros st Hhp Hdc Hq; simpl; [exact Hq |].
  destruct (main_buf_head st <? main_buf_edge st); [| exact Hq].
  destruct (prime_step_keeps o st) as (Hp & _).
  apply params_fields in Hp as (PC & _).
  apply IH; [exact Hhp | rewrite PC; exact Hdc |].
  unfold prime_step.
  change (quiet (set_sq_buf_head ?a (set_main_buf_head ?b ?s)))
    with (quiet s).
  apply quiet_filter_new_frame; assumption.
Qed.

Lemma quiet_init o f st0 :
  init_state o f = Some st0 ->
  high_pass_filter_enabled o = false ->
  (forall c, 0 <= c < sf_channels f -> load (dc_offset o) c = dzero) ->
  Forall zero_frame (sf_frames f) ->
  quiet st0 /\ Forall zero_frame (in_file st0).
Proof.
  intros H Hhp Hdc Hf.
  pose proof (init_state_facts _ _ _ H) as F. split_facts F.
  split; [| rewrite if_in_file; apply Forall_drop, Forall_drop, Hf].
  apply init_state_reads in H. subst st0.
  pose proof (init_read_view o f) as Hv. cbv zeta in Hv.
  destruct Hv as (V1 & _ & _ & _ & _ & V6 & V7).
  destruct (init_read_main o f) as [Vm _].
  assert (Hq : quiet (init_prime o (init_read (init_buffers (opened o f))))).
  { unfold init_prime. apply quiet_prime_filter;
      [exact Hhp | rewrite V1; exact Hdc |].
    unfold quiet. rewrite V6, V7, Vm. unfold calloc.
    split; [| split; apply zeros_replicate].
    apply zeros_store_frames; [apply zeros_replicate |].
    apply Forall_take, Forall_drop, Hf. }
  destruct Hq as (Q1 & Q2 & Q3).
  destruct (finish_sq o (init_prime o (init_read (init_buffers (opened o f)))))
    as (_ & _ & F3 & F4).
  unfold quiet. rewrite finish_main, F3, F4. repeat split; assumption.
Qed.

Lemma quiet_no_signal st :
  zeros (x_sq_ttl st) -> dltb (n_x_nf_sq st) dzero = false ->
  we_have_signal st = false.
Proof.
  intros Hx Ht. destruct (we_have_signal st) eqn:E; [| reflexivity].
  apply we_have_signal_spec in E as (c & _ & Hc).
  rewrite (Hx c) in Hc. congruence.
Qed.

Lemma update_context_idle o st :
  cut_context st = CCTX_SILENCE -> we_have_signal st = false ->
  update_context o st = Some st.
Proof. intros Hc Hs. unfold update_context. rewrite Hc, Hs. reflexivity. Qed.

Lemma idle_body o st more st' :
  high_pass_filter_enabled o = false ->
  (forall c, 0 <= c < numchannels st -> load (dc_offset o) c = dzero) ->
  dltb (n_x_nf_sq st) dzero = false ->
  loop_body o st = Some (more, st') ->
  quiet st /\ Forall zero_frame (in_file st) /\ idle st ->
  quiet st' /\ Forall zero_frame (in_file st') /\ idle st'.
Proof.
  intros Hhp Hdc Ht Hb (Hq & Hf & Hc & Hcf & Hd & Ho).
  apply loop_body_inv in Hb as (s1 & b & Hu & Hfe & _).
  rewrite update_context_idle in Hu;
    [| exact Hc | apply quiet_no_signal; [apply Hq | exact Ht]].
  injection Hu as <-.
  destruct (quiet_fetch o st Hhp Hdc Hf Hq) as [Q1 Q2].
  pose proof (fetch_next_frame_machine o st) as Hm.
  apply machine_fields in Hm
    as (M1 & _ & _ & _ & _ & _ & _ & M8 & M9 & M10).
  rewrite Hfe in *. cbn [snd] in *.
  split; [exact Q1 |]. split; [exact Q2 |].
  unfold idle. rewrite M1, M8, M9, M10. repeat split; assumption.
Qed.

Lemma idle_exit o st : idle st -> idle (cutter_exit o st).
Proof.
  split_options o.
  destruct ocpa; split_state st; unfold idle; state_eval;
    cbv beta iota zeta delta [cutter_exit force_end_of_track close_out_file
                                print_track_cut];
    state_eval; intros (-> & -> & -> & ->);
    case_matches; state_eval; repeat split; reflexivity.
Qed.

(** X17.  Digital silence gives no tracks. In an arithmetic in which zero
    plus zero, zero minus zero and zero times zero are zero (the hypotheses
    of this section; binary64 is one), with the high-pass filter off and
    zero DC offsets, for a recording whose samples are all zero and a
    threshold that zero does not exceed: the run finds no signal in any
    tick, stays in [CCTX_SILENCE], writes no row and creates no file. *)
Theorem silence_gives_no_tracks o f fuel stf :
  run_cutter fuel o f = Finished stf ->
  high_pass_filter_enabled o = false ->
  (forall c, 0 <= c < sf_channels f -> load (dc_offset o) c = dzero) ->
  Forall zero_frame (sf_frames f) ->
  dltb (noise_threshold (noise_floor_dbfs o) (window_of f)) dzero = false ->
  cut_context stf = CCTX_SILENCE /\ cuts_file stf = [] /\
  track_dir stf = [] /\ out_file stf = None.
Proof.
  intros Hrun Hhp Hdc Hf Ht.
  apply run_cutter_inv in Hrun as (st0 & st & st' & Hi & Hr & Hb & ->).
  pose proof (init_state_facts _ _ _ Hi) as F. split_facts F.
  assert (Hstep : forall s more s', loop_reach o st0 s ->
            loop_body o s = Some (more, s') ->
            quiet s /\ Forall zero_frame (in_file s) /\ idle s ->
            quiet s' /\ Forall zero_frame (in_file s') /\ idle s').
  { intros s more s' Hrs Hbs Hks.
    pose proof (loop_reach_params _ _ _ Hrs) as Hp.
    apply params_fields in Hp
      as (P1 & _ & _ & _ & _ & _ & _ & _ & _ & _ & P11 & _).
    eapply idle_body; try eassumption.
    - rewrite P1, if_numchannels. exact Hdc.
    - rewrite P11, if_threshold. exact Ht. }
  apply idle_exit. apply (Hstep st false st' Hr Hb). clear Hb.
  induction Hr as [| s s' Hrs IH Hbs].
  - destruct (quiet_init _ _ _ Hi Hhp Hdc Hf) as [Q1 Q2].
    split; [exact Q1 |]. split; [exact Q2 |]. repeat split; assumption.
  - eapply Hstep; eassumption.
Qed.

End ZeroArith.

End Silence.

Section MoreExamples64.
#[local] Existing Instance Binary64.ops.
Import Samples64.

Lemma writes_through_open_file_witness :
  let o := quick_options CPA_EXTRACT_TRACK in
  let st := tick_state 128 o song in
  (cut_point_action o = CPA_EXTRACT_TRACK ->
   (in_track st = true -> exists nm fs, out_file st = Some (nm, fs)) /\
   (in_track st = false -> out_file st = None)) /\
  (cut_point_action o = CPA_LOG_POINT ->
   out_file st = None /\ track_dir st = []) /\
  (exists st', update_context o st = Some st').
Proof.
  intros o st.
  apply (writes_through_open_file o song (start_state o song) st).
  - vm_compute. reflexivity.
  - apply (ticks_reach 128). vm_compute. reflexivity.
Defined.

Lemma ring_cursors_in_bounds_witness :
  let o := init_options in
  let st := tick_state 7 o song in
  let C := numchannels st in
  let n := Z.of_nat (length (main_buf st)) in
  Z.of_nat (length (sq_buf st)) = n /\
  n = rms_window_len st * C /\ main_buf_edge st = n /\ sq_buf_edge st = n /\
  (forall p, p = main_buf_head st \/ p = main_buf_tail st \/
             p = main_buf_cen st ->
             0 <= p /\ p + C <= n /\ p mod C = 0) /\
  sq_buf_head st = main_buf_head st /\ sq_buf_tail st = main_buf_tail st /\
  sq_buf_cen st = main_buf_cen st.
Proof.
  intros o st.
  apply (ring_cursors_in_bounds o song (start_state o song) st).
  - vm_compute. reflexivity.
  - vm_compute. discriminate.
  - vm_compute. discriminate.
  - apply (ticks_reach 7). vm_compute. reflexivity.
Defined.

Lemma tracks_numbered_witness :
  let o := quick_options CPA_LOG_POINT in
  let stf := final_state 400 o album in
  track_numbers stf = seqZ 1 (Z.of_nat (length (track_numbers stf))) /\
  match cut_point_action o with
  | CPA_LOG_POINT => track_dir stf = []
  | CPA_EXTRACT_TRACK => cuts_file stf = []
  end.
Proof.
  intros o stf. apply (tracks_numbered o album 400 stf).
  vm_compute. reflexivity.
Defined.

(** The album has two songs, and a track range that ends at 1 stops the
    run after the first. *)
Lemma album_tracks :
  ends (final_state 400 (quick_options CPA_LOG_POINT) album) = 2 /\
  ends (final_state 400 (set_track_range 0 1 (quick_options CPA_LOG_POINT))
          album) = 1.
Proof. vm_compute. split; reflexivity. Qed.

Lemma track_limit_witness :
  let o := set_track_range 0 1 (quick_options CPA_LOG_POINT) in
  ends (final_state 400 o album) <= Z.max 0 (track_num_end o).
Proof.
  intros o. apply (track_limit o album 400 (final_state 400 o album)).
  vm_compute. reflexivity.
Defined.

Lemma cut_rows_ordered_witness :
  let o := quick_options CPA_LOG_POINT in
  let stf := final_state 400 o album in
  let r := {| row_track_num := 1; row_start := 0; row_end := 128;
              row_duration := 128 |} in
  start_frame_idx o <= row_start r /\ row_start r < row_end r /\
  row_duration r = row_end r - row_start r /\
  forall r', cuts_file stf !! 1%nat = Some r' -> row_end r < row_start r'.
Proof.
  intros o stf r. apply (cut_rows_ordered o album 400 stf).
  - vm_compute. reflexivity.
  - vm_compute. reflexivity.
Defined.

Lemma no_file_left_open_witness :
  out_file (final_state 400 (quick_options CPA_EXTRACT_TRACK) album) = None.
Proof.
  apply (no_file_left_open (quick_options CPA_EXTRACT_TRACK) album 400).
  - vm_compute. reflexivity.
  - vm_compute. discriminate.
  - vm_compute. discriminate.
  - vm_compute. discriminate.
Defined.

Lemma track_files_are_excerpts_witness :
  let o := quick_options CPA_EXTRACT_TRACK in
  let st := tick_state 128 o album in
  let start := cur_track_start st in
  let pos := cur_frame_pos st in
  excerpts album (start_frame_idx o) (track_dir st) pos /\
  (cut_context st = CCTX_TRACK_STARTING ->
   start < pos /\
   load_frames (leadin_buf st) 0 (numchannels st) (Z.to_nat (pos - start))
   = excerpt album start (pos - start)) /\
  (forall nm fs, out_file st = Some (nm, fs) ->
     start < pos /\ fs = excerpt album start (pos - start)) /\
  (forall s1 more st',
     update_context o st = Some s1 -> fetch_next_frame o s1 = (more, st') ->
     (track_dir s1 = track_dir st \/
      exists nm,
        track_dir s1
        = track_dir st ++ [(nm, excerpt album start (pos + 1 - start))]) /\
     track_dir st' = track_dir s1 /\
     (track_dir (cutter_exit o st') = track_dir st' \/
      exists nm,
        track_dir (cutter_exit o st')
        = track_dir st'
          ++ [(nm, excerpt album (cur_track_start st')
                     (cur_frame_pos st' - cur_track_start st'))])).
Proof.
  intros o st.
  apply (track_files_are_excerpts o album (start_state o album) st).
  - vm_compute. reflexivity.
  - reflexivity.
  - vm_compute. split; discriminate.
  - vm_compute. discriminate.
  - vm_compute. discriminate.
  - vm_compute. discriminate.
  - reflexivity.
  - intros c Hc. change (0 <= c < 1) in Hc.
    replace c with 0 by lia. reflexivity.
  - apply framed_mono.
  - apply (ticks_reach 128). vm_compute. reflexivity.
Defined.

(** Tick 128 of the album is the tick that closes the file of the first
    song, which the track has been written to since frame 0. *)
Lemma album_first_file :
  let o := quick_options CPA_EXTRACT_TRACK in
  let st := tick_state 128 o album in
  cur_track_start st = 0 /\ cur_frame_pos st = 128 /\ track_dir st = [] /\
  track_dir (updated o st) = [(1, excerpt album 0 129)].
Proof. vm_compute. repeat split; reflexivity. Qed.

(** The two files of the album: frames 0 to 128 and frames 148 to 278. *)
Lemma album_files :
  track_dir (final_state 400 (quick_options CPA_EXTRACT_TRACK) album)
  = [(1, excerpt album 0 129); (2, excerpt album 148 131)].
Proof. vm_compute. reflexivity. Qed.

Lemma parse_int_boundary_decimal_witness :
  parse_int_boundary
    (String.append " " (String.append (decimal 42) " ")) 7 = Some 42.
Proof.
  apply (parse_int_boundary_decimal " " " " 42 7).
  - reflexivity.
  - reflexivity.
  - lia.
  - vm_compute. discriminate.
Defined.

Lemma frame_range_round_trip_witness :
  let o := init_options in
  exists o',
    parse_frame_range (range_text (Some 44100) None) o = Some o' /\
    start_frame_idx o' = 44100 /\ end_frame_idx o' = SF_COUNT_MAX /\
    task o' = task o /\ cut_point_action o' = cut_point_action o /\
    min_silence_period o' = min_silence_period o /\
    min_signal_period o' = min_signal_period o /\
    noise_floor_dbfs o' = noise_floor_dbfs o /\
    min_track_length o' = min_track_length o /\
    track_num_start o' = track_num_start o /\
    track_num_end o' = track_num_end o /\
    dc_offset o' = dc_offset o /\
    high_pass_filter_enabled o' = high_pass_filter_enabled o.
Proof.
  intros o.
  apply (frame_range_round_trip (Some 44100) None init_options).
  - vm_compute. discriminate.
  - vm_compute. discriminate.
  - vm_compute. discriminate.
Defined.

Lemma parse_frame_range_sound_witness :
  let o := init_options in
  let o' := set_frame_range 10 20 o in
  count_hyphens "10-20" = 1%nat /\
  0 <= start_frame_idx o' <= end_frame_idx o' /\
  end_frame_idx o' <= SF_COUNT_MAX /\
  task o' = task o /\ cut_point_action o' = cut_point_action o /\
  min_silence_period o' = min_silence_period o /\
  min_signal_period o' = min_signal_period o /\
  noise_floor_dbfs o' = noise_floor_dbfs o /\
  min_track_length o' = min_track_length o /\
  track_num_start o' = track_num_start o /\
  track_num_end o' = track_num_end o /\
  dc_offset o' = dc_offset o /\
  high_pass_filter_enabled o' = high_pass_filter_enabled o.
Proof.
  intros o o'. apply (parse_frame_range_sound "10-20" init_options o').
  vm_compute. reflexivity.
Defined.

(** A start frame too large for a [long long] is read as [SF_COUNT_MAX],
    and the range is accepted when the end is left out. *)
Lemma frame_range_saturated :
  parse_frame_range "99999999999999999999-" init_options
  = Some (set_frame_range SF_COUNT_MAX SF_COUNT_MAX init_options).
Proof. vm_compute. reflexivity. Qed.

(** A negative boundary and junk after a number take the fatal exit. *)
Lemma parse_int_boundary_rejects :
  parse_int_boundary "-5" 0 = None /\ parse_int_boundary "12x" 0 = None.
Proof. vm_compute. split; reflexivity. Qed.

Lemma track_confirmation_dwell_witness :
  let o := quick_options CPA_LOG_POINT in
  let st := tick_state 3 o song in
  let st' := updated o st in
  (cut_context st = CCTX_TRACK_STARTING -> cut_context st' = CCTX_TRACK ->
   we_have_signal st = true /\
   cur_track_start st' = cur_track_start st /\
   cur_frame_pos st = cur_track_start st + Z.max 1 (min_signal_len st)) /\
  (in_track st = true ->
   cur_track_start st + Z.max 1 (min_signal_len st) < cur_frame_pos st).
Proof.
  intros o st st'.
  apply (track_confirmation_dwell o song (start_state o song) st st').
  - vm_compute. reflexivity.
  - apply (ticks_reach 3). vm_compute. reflexivity.
  - vm_compute. reflexivity.
Defined.

(** Tick 3 of the song is the tick that confirms its track. *)
Lemma song_confirmed :
  let o := quick_options CPA_LOG_POINT in
  cut_context (tick_state 3 o song) = CCTX_TRACK_STARTING /\
  cut_context (updated o (tick_state 3 o song)) = CCTX_TRACK.
Proof. vm_compute. split; reflexivity. Qed.

Lemma silence_gives_no_tracks_witness :
  let stf := final_state 100 init_options hush in
  cut_context stf = CCTX_SILENCE /\ cuts_file stf = [] /\
  track_dir stf = [] /\ out_file stf = None.
Proof.
  intros stf.
  refine (silence_gives_no_tracks _ _ _ init_options hush 100 stf
            _ _ _ _ _).
  - vm_compute. reflexivity.
  - vm_compute. reflexivity.
  - vm_compute. reflexivity.
  - vm_compute. reflexivity.
  - reflexivity.
  - intros c Hc. change (0 <= c < 1) in Hc.
    replace c with 0 by lia. reflexivity.
  - unfold hush, mono. cbn [sf_frames]. apply Forall_fmap, Forall_replicate.
    repeat constructor.
  - vm_compute. reflexivity.
Defined.

End MoreExamples64.

Section Positions.
Context {D : DoubleOps}.

Lemma range_ok_fetch o st :
  0 <= ra_frame_cnt st -> range_ok o st ->
  fst (fetch_next_frame o st) = true ->
  range_ok o (snd (fetch_next_frame o st)).
Proof.
  intros Hra [[R1 R2] R3] Ht.
  pose proof (fetch_next_frame_counters o st) as Hc. rewrite Ht in Hc.
  unfold counters at 2 in Hc. unfold source_step in Hc.
  unfold range_ok.
  destruct (in_eof st) eqn:Ee; cbn [negb andb] in Hc;
    destruct (Z.ltb_spec 0 (frames_remaining st)); try discriminate Hc;
    try destruct (in_file st);
    apply (f_equal snd) in Hc; cbn [snd] in Hc;
    apply counters_fields in Hc as (_ & -> & -> & _ & ->);
    try specialize (R3 eq_refl);
    (split; [try case_ltb; lia | intros Hx; try discriminate Hx; lia]).
Qed.

Lemma range_ok_ticks n : forall o f st0 st,
  init_state o f = Some st0 ->
  start_frame_idx o <= end_frame_idx o ->
  1 <= sf_channels f -> 0 <= sf_samplerate f ->
  ticks n o st0 = Some st ->
  cur_frame_pos st = start_frame_idx o + Z.of_nat n /\ range_ok o st.
Proof.
  intros o f st0 st Hi Hse HC HR Ht.
  pose proof (init_state_facts _ _ _ Hi) as F. split_facts F.
  assert (G : forall m s, loop_reach o st0 s ->
              cur_frame_pos s = start_frame_idx o + Z.of_nat m ->
              range_ok o s ->
              forall s', ticks n o s = Some s' ->
              cur_frame_pos s' = start_frame_idx o + Z.of_nat (m + n) /\
              range_ok o s').
  { clear Ht st. induction n as [| n IH]; intros m s Hr Hp Hk s' Ht.
    - simpl in Ht. injection Ht as <-. rewrite Nat.add_0_r. split; assumption.
    - simpl in Ht.
      destruct (loop_body o s) as [[[] s1] |] eqn:Hb; try discriminate Ht.
      replace (m + S n)%nat with (S m + n)%nat by lia.
      apply (IH (S m) s1); [| | | exact Ht].
      + eapply reach_step; eassumption.
      + apply loop_body_inv in Hb as (u & b & Hu & Hf & _).
        apply update_context_keeps in Hu as [Hs _].
        apply source_counters, counters_fields in Hs as (_ & _ & _ & _ & S5).
        pose proof (fetch_next_frame_pos o u) as Hq. rewrite Hf in Hq.
        cbn [snd] in Hq. lia.
      + destruct (remaining_reach _ _ _ _ Hi Hse HC HR Hr) as [Hra _].
        apply loop_body_inv in Hb as (u & b & Hu & Hf & Hm).
        symmetry in Hm. apply andb_true_iff in Hm as [-> _].
        apply update_context_keeps in Hu as [Hs Hp'].
        apply source_counters, counters_fields in Hs
          as (_ & S2 & S3 & _ & S5).
        apply params_ra in Hp'.
        pose proof (range_ok_fetch o u) as Hfe. rewrite Hf in Hfe.
        apply Hfe; [congruence | | reflexivity].
        unfold range_ok. rewrite S2, S3, S5. exact Hk. }
  apply (G O st0); [constructor | lia | | exact Ht].
  unfold range_ok. rewrite if_remaining, if_pos, if_in_eof.
  split; [lia | reflexivity].
Qed.

(** X18.  The frame range is respected: turn [n] of the loop runs at
    position [start_frame_idx + n], which is never past [end_frame_idx];
    while the codec has not reported the end of the file, the frames
    remaining are those up to [end_frame_idx]. *)
Theorem frame_range_respected o f st0 (n : nat) st :
  init_state o f = Some st0 ->
  start_frame_idx o <= end_frame_idx o ->
  1 <= sf_channels f -> 0 <= sf_samplerate f ->
  ticks n o st0 = Some st ->
  cur_frame_pos st = start_frame_idx o + Z.of_nat n /\
  cur_frame_pos st <= end_frame_idx o /\
  (in_eof st = false ->
   frames_remaining st = end_frame_idx o - cur_frame_pos st).
Proof.
  intros Hi Hse HC HR Ht.
  destruct (range_ok_ticks n o f st0 st Hi Hse HC HR Ht) as [Hp [[R1 R2] R3]].
  split; [exact Hp |]. split; [lia | exact R3].
Qed.

End Positions.

Section Names.

Lemma length_append (a b : string) :
  String.length (String.append a b)
  = (String.length a + String.length b)%nat.
Proof. induction a as [| c a IH]; simpl; [| rewrite IH]; reflexivity. Qed.

Lemma substring_prefix (a b : string) :
  String.substring 0 (String.length a) (String.append a b) = a.
Proof.
  induction a as [| c a IH]; simpl.
  - destruct b; reflexivity.
  - rewrite IH. reflexivity.
Qed.

Lemma blank_get ws : forall n,
  blank ws -> (n < String.length ws)%nat ->
  exists c, String.get n ws = Some c /\ isspace c = true.
Proof.
  unfold blank. induction ws as [| c ws IH]; intros n Hb Hn; simpl in *;
    [lia |].
  destruct (isspace c) eqn:E; [| discriminate Hb].
  destruct n as [| n]; [exists c; split; [reflexivity | exact E] |].
  apply IH; [exact Hb | lia].
Qed.

Lemma trim_len_blank name ws (j : nat) :
  blank ws -> (j <= String.length ws)%nat ->
  trim_len (String.append name ws) (String.length name + j)
  = trim_len (String.append name ws) (String.length name).
Proof.
  intros Hb. induction j as [| j IH]; intros Hj.
  - rewrite Nat.add_0_r. reflexivity.
  - replace (String.length name + S j)%nat
      with (S (String.length name + j)) by lia.
    cbn [trim_len].
    replace (String.length name + j)%nat
      with (j + String.length name)%nat at 1 by lia.
    rewrite <- append_correct2.
    destruct (blank_get ws j Hb ltac:(lia)) as (c & -> & ->).
    apply IH. lia.
Qed.

Lemma trim_len_clean name ws :
  ends_clean name ->
  trim_len (String.append name ws) (String.length name) = String.length name.
Proof.
  unfold ends_clean. destruct (String.length name) as [| n] eqn:E;
    [reflexivity |].
  cbn [trim_len]. replace (S n - 1)%nat with n by lia.
  rewrite <- append_correct1 by lia.
  destruct (String.get n name) as [c |]; [intros ->; reflexivity | reflexivity].
Qed.

(** X19.  Reading a track name back: a line made of a name that does not end
    in white space, followed by white space only (the newline that [getline]
    leaves, blanks, a carriage return), is trimmed to the name; a line of
    white space only is trimmed to the empty name. *)
Theorem trimmed_name_round_trip (name ws : string) :
  blank ws -> ends_clean name ->
  trimmed_name (String.append name ws) = name.
Proof.
  intros Hb Hc. unfold trimmed_name.
  rewrite length_append, trim_len_blank by (exact Hb || lia).
  rewrite trim_len_clean by exact Hc. apply substring_prefix.
Qed.

End Names.

Section PositionExamples64.
#[local] Existing Instance Binary64.ops.
Import Samples64.

Lemma frame_range_respected_witness :
  let o := set_frame_range 10 60 (quick_options CPA_LOG_POINT) in
  let st := tick_state 20 o song in
  cur_frame_pos st = start_frame_idx o + Z.of_nat 20 /\
  cur_frame_pos st <= end_frame_idx o /\
  (in_eof st = false ->
   frames_remaining st = end_frame_idx o - cur_frame_pos st).
Proof.
  intros o st.
  apply (frame_range_respected o song (start_state o song) 20 st).
  - vm_compute. reflexivity.
  - vm_compute. discriminate.
  - vm_compute. discriminate.
  - vm_compute. discriminate.
  - vm_compute. reflexivity.
Defined.

(** The run over frames 10 to 60 takes 51 turns and stops at position 61. *)
Lemma frame_range_turns :
  let o := set_frame_range 10 60 (quick_options CPA_LOG_POINT) in
  cur_frame_pos (tick_state 50 o song) = 60 /\
  ticks 51 o (start_state o song) = None /\
  cur_frame_pos (final_state 100 o song) = 61.
Proof. vm_compute. repeat split; reflexivity. Qed.

Lemma trimmed_name_round_trip_witness :
  trimmed_name
    (String.append "Blue Train" (String " " (String "010" EmptyString)))
  = "Blue Train"%string.
Proof.
  apply (trimmed_name_round_trip "Blue Train"
           (String " " (String "010" EmptyString))).
  - reflexivity.
  - vm_compute. reflexivity.
Defined.

End PositionExamples64.

Section Modes.
Context {D : DoubleOps}.

Lemma filter_channel_core o st c :
  filter_channel o (core st) c = core (filter_channel o st c).
Proof.
  split_options o. destruct ohp; split_state st; unfold core; filter_eval;
    reflexivity.
Qed.

Lemma fold_left_step {A B} (f : A -> B -> A) b l a :
  fold_left f (b :: l) a = fold_left f l (f a b).
Proof. reflexivity. Qed.

Lemma fold_filter_core o l : forall st,
  fold_left (filter_channel o) l (core st)
  = core (fold_left (filter_channel o) l st).
Proof.
  induction l as [| c l IH]; intros st; [reflexivity |].
  rewrite !fold_left_step, filter_channel_core. apply IH.
Qed.

Lemma core_fields st :
  numchannels (core st) = numchannels st /\
  frames_proc_ttl (core st) = frames_proc_ttl st /\
  cur_frame_pos (core st) = cur_frame_pos st.
Proof. split_state st. repeat split. Qed.

Lemma set_frames_proc_ttl_core v st :
  set_frames_proc_ttl v (core st) = core (set_frames_proc_ttl v st).
Proof. split_state st. reflexivity. Qed.

Lemma set_cur_frame_pos_core v st :
  set_cur_frame_pos v (core st) = core (set_cur_frame_pos v st).
Proof. split_state st. reflexivity. Qed.

Lemma advance_buf_ptrs_core st :
  advance_buf_ptrs (core st) = core (advance_buf_ptrs st).
Proof. split_state st. reflexivity. Qed.

Lemma filter_new_frame_core o st :
  filter_new_frame o (core st) = core (filter_new_frame o st).
Proof.
  unfold filter_new_frame.
  destruct (core_fields st) as (-> & _).
  rewrite fold_filter_core.
  generalize (fold_left (filter_channel o) (seqZ 0 (numchannels st)) st).
  intros s. destruct (core_fields s) as (_ & -> & _).
  apply set_frames_proc_ttl_core.
Qed.

Lemma fetch_input_core st :
  fetch_input (core st) = (fst (fetch_input st), core (snd (fetch_input st))).
Proof.
  split_state st. unfold core. source_eval.
  destruct in_eof, (0 <? frames_remaining), in_file; reflexivity.
Qed.

Lemma fetch_next_frame_core o st :
  fetch_next_frame o (core st)
  = (fst (fetch_next_frame o st), core (snd (fetch_next_frame o st))).
Proof.
  rewrite !fetch_next_frame_unfold, fetch_input_core.
  generalize (fetch_input st). intros [e s]. cbn [fst snd].
  destruct (core_fields s) as (_ & _ & ->).
  rewrite set_cur_frame_pos_core, advance_buf_ptrs_core,
    filter_new_frame_core.
  reflexivity.
Qed.

Lemma filter_channel_mode o1 o2 st c :
  dc_offset o1 = dc_offset o2 ->
  high_pass_filter_enabled o1 = high_pass_filter_enabled o2 ->
  filter_channel o1 st c = filter_channel o2 st c.
Proof.
  split_options o1.
  destruct o2 as [t2 a2 sp2 gp2 nf2 tl2 sf2 ef2 ts2 te2 dc2 hp2].
  intros H1 H2. simpl in H1, H2. subst.
  destruct hp2; split_state st; filter_eval; reflexivity.
Qed.

Lemma filter_new_frame_mode o1 o2 st :
  dc_offset o1 = dc_offset o2 ->
  high_pass_filter_enabled o1 = high_pass_filter_enabled o2 ->
  filter_new_frame o1 st = filter_new_frame o2 st.
Proof.
  intros Hd Hh. unfold filter_new_frame.
  assert (E : forall l s, fold_left (filter_channel o1) l s
                          = fold_left (filter_channel o2) l s).
  { induction l as [| c l IH]; intros s; [reflexivity |].
    rewrite !fold_left_step, (filter_channel_mode o1 o2) by assumption.
    apply IH. }
  rewrite E. reflexivity.
Qed.

Lemma fetch_next_frame_mode o1 o2 st :
  dc_offset o1 = dc_offset o2 ->
  high_pass_filter_enabled o1 = high_pass_filter_enabled o2 ->
  fetch_next_frame o1 st = fetch_next_frame o2 st.
Proof.
  intros Hd Hh. rewrite !fetch_next_frame_unfold.
  rewrite (filter_new_frame_mode o1 o2) by assumption. reflexivity.
Qed.

Lemma core_view (a b : state_t) :
  core a = core b ->
  cut_context a = cut_context b /\ time_to_live a = time_to_live b /\
  cur_track_start a = cur_track_start b /\
  cur_track_num a = cur_track_num b /\
  cur_frame_pos a = cur_frame_pos b /\
  frames_remaining a = frames_remaining b /\
  we_have_signal a = we_have_signal b.
Proof.
  split_state a. split_state' b. unfold core, we_have_signal. state_eval.
  intros E. injection E. intros. subst. repeat split.
Qed.

(** [update_context] looks at the cutting mode only to decide what to
    write: from states that agree on everything else, its two runs agree
    on everything else again. *)
Lemma update_context_core o1 o2 a b a' b' :
  core a = core b ->
  update_context o1 a = Some a' -> update_context o2 b = Some b' ->
  core a' = core b'.
Proof.
  intros Hc Ha Hb. revert Ha Hb. split_options o1.
  destruct o2 as [t2 a2 sp2 gp2 nf2 tl2 sf2 ef2 ts2 te2 dc2 hp2].
  revert Hc. split_state a. split_state' b.
  unfold core. state_eval. intros E. injection E. intros. subst.
  revert Ha Hb. unfold update_context, we_have_signal. state_eval.
  intros Ha Hb. machine_eval_in Ha. machine_eval_in Hb.
  destruct ocpa, a2; case_matches; state_eval;
    first [reflexivity | discriminate].
Qed.

Lemma prime_filter_step fuel o st :
  prime_filter (S fuel) o st
  = if main_buf_head st <? main_buf_edge st
    then prime_filter fuel o (prime_step o st) else st.
Proof. reflexivity. Qed.

Lemma prime_filter_mode fuel o1 o2 :
  dc_offset o1 = dc_offset o2 ->
  high_pass_filter_enabled o1 = high_pass_filter_enabled o2 ->
  forall st, prime_filter fuel o1 st = prime_filter fuel o2 st.
Proof.
  intros Hd Hh. induction fuel as [| fuel IH]; intros st; [reflexivity |].
  rewrite !prime_filter_step, IH. unfold prime_step.
  rewrite (filter_new_frame_mode o1 o2) by assumption. reflexivity.
Qed.

Lemma init_cutting_core o1 o2 st :
  same_but_mode o1 o2 ->
  core (init_cutting o1 st) = core (init_cutting o2 st).
Proof.
  split_options o1.
  destruct o2 as [t2 a2 sp2 gp2 nf2 tl2 sf2 ef2 ts2 te2 dc2 hp2].
  unfold same_but_mode. state_eval.
  intros (-> & -> & -> & -> & -> & -> & -> & -> & -> & -> & ->).
  destruct ocpa, a2; split_state st; reflexivity.
Qed.

Lemma start_state_core o1 o2 f :
  same_but_mode o1 o2 ->
  core (start_state o1 f) = core (start_state o2 f).
Proof.
  intros Hs. pose proof Hs as (_ & _ & _ & _ & _ & S6 & S7 & _ & _ & Sd & Sh).
  unfold start_state.
  assert (E : opened o1 f = opened o2 f)
    by (unfold opened; rewrite S6, S7; reflexivity).
  rewrite E. unfold init_prime.
  rewrite (prime_filter_mode _ o1 o2 Sd Sh).
  apply init_cutting_core, Hs.
Qed.

Lemma cutter_exit_core o st : core (cutter_exit o st) = core st.
Proof.
  split_options o.
  destruct ocpa; split_state st;
    cbv beta iota zeta delta [cutter_exit force_end_of_track close_out_file
                                print_track_cut];
    state_eval; case_matches; reflexivity.
Qed.

Lemma loop_body_mode o1 o2 a b more a1 :
  same_but_mode o1 o2 -> core a = core b -> counter_ok o2 b ->
  loop_body o1 a = Some (more, a1) ->
  exists b1, loop_body o2 b = Some (more, b1) /\ core a1 = core b1.
Proof.
  intros Hs Hc Hk Hb.
  pose proof Hs as (_ & _ & _ & _ & _ & _ & _ & _ & S9 & Sd & Sh).
  apply loop_body_inv in Hb as (ua & m & Hu & Hf & Hm).
  destruct (counter_ok_progress o2 b Hk) as [ub Hub].
  pose proof (update_context_core _ _ _ _ _ _ Hc Hu Hub) as Hcu.
  pose proof (fetch_next_frame_core o1 ua) as Fa.
  pose proof (fetch_next_frame_core o1 ub) as Fb.
  rewrite Hcu, Fb, Hf in Fa. cbn [fst snd] in Fa.
  rewrite (fetch_next_frame_mode o1 o2) in Fa by assumption.
  unfold loop_body. rewrite Hub. cbn [mbind option_bind].
  destruct (fetch_next_frame o2 ub) as [m2 b1]. cbn [fst snd] in Fa.
  pose proof (f_equal fst Fa) as Hm2. pose proof (f_equal snd Fa) as Hc1.
  cbn [fst snd] in Hm2, Hc1. subst m2.
  exists b1. split; [| symmetry; exact Hc1].
  apply core_view in Hc1 as (_ & _ & _ & V4 & _).
  rewrite Hm, V4, S9. reflexivity.
Qed.

Lemma cutter_iterate_mode fuel o1 o2 : forall a b a',
  same_but_mode o1 o2 -> core a = core b ->
  counter_ok o1 a -> counter_ok o2 b ->
  cutter_iterate fuel o1 a = Finished a' ->
  exists b', cutter_iterate fuel o2 b = Finished b' /\ core a' = core b' /\
             counter_ok o1 a' /\ counter_ok o2 b'.
Proof.
  induction fuel as [| fuel IH]; intros a b a' Hs Hc Ka Kb;
    cbn [cutter_iterate]; [discriminate |].
  destruct (loop_body o1 a) as [[more a1] |] eqn:Hb; [| discriminate].
  destruct (loop_body_mode _ _ _ _ _ _ Hs Hc Kb Hb) as (b1 & Hb2 & Hc1).
  rewrite Hb2.
  pose proof (counter_ok_body _ _ _ _ Hb Ka) as Ka1.
  pose proof (counter_ok_body _ _ _ _ Hb2 Kb) as Kb1.
  destruct more.
  - intros Hit. eapply IH; eassumption.
  - intros [= <-]. exists b1.
    split; [reflexivity |]. split; [exact Hc1 |]. split; assumption.
Qed.

(** X20.  The cuts do not depend on the cutting mode. Two runs over the same
    recording whose options differ in [cut_point_action] at most finish
    together, at the same position and in the same context, and end the same
    number of tracks: log mode lists exactly the tracks that extraction mode
    writes. *)
Theorem cuts_independent_of_mode o1 o2 f fuel sa :
  same_but_mode o1 o2 -> run_cutter fuel o1 f = Finished sa ->
  exists sb,
    run_cutter fuel o2 f = Finished sb /\
    cur_frame_pos sb = cur_frame_pos sa /\
    cut_context sb = cut_context sa /\
    cur_track_start sb = cur_track_start sa /\
    cur_track_num sb = cur_track_num sa /\
    ends sb = ends sa.
Proof.
  intros Hs. unfold run_cutter, cutter_loop.
  destruct (init_state o1 f) as [a0 |] eqn:Ha0; [| discriminate].
  destruct (cutter_iterate fuel o1 a0) as [a' | |] eqn:Hit; try discriminate.
  intros [= <-].
  assert (Hb0 : init_state o2 f = Some (start_state o2 f)).
  { apply init_state_start.
    destruct (Z.le_gt_cases (start_frame_idx o2)
                (Z.of_nat (length (sf_frames f)))) as [Hle | Hgt];
      [exact Hle |].
    destruct Hs as (_ & _ & _ & _ & _ & S6 & _).
    rewrite init_state_none in Ha0 by lia. discriminate Ha0. }
  rewrite Hb0.
  pose proof (init_state_reads _ _ _ Ha0) as Ea.
  fold (start_state o1 f) in Ea. subst a0.
  destruct (cutter_iterate_mode fuel o1 o2 _ _ _ Hs
              (start_state_core o1 o2 f Hs)
              (counter_ok_init _ _ _ Ha0) (counter_ok_init _ _ _ Hb0) Hit)
    as (b' & Hitb & Hc & Ka & Kb).
  rewrite Hitb. exists (cutter_exit o2 b'). split; [reflexivity |].
  destruct (cutter_exit_counts o1 a' Ka) as [Na Ea].
  destruct (cutter_exit_counts o2 b' Kb) as [Nb Eb].
  assert (Hx : core (cutter_exit o1 a') = core (cutter_exit o2 b'))
    by (rewrite !cutter_exit_core; exact Hc).
  apply core_view in Hx as (X1 & _ & X3 & X4 & X5 & _).
  apply core_view in Hc as (V1 & _ & _ & V4 & _ & V6 & _).
  destruct Ka as [Ka _]. destruct Kb as [Kb _].
  repeat split; try congruence.
  rewrite Ea, Eb. unfold in_track. rewrite V1, V6. lia.
Qed.

End Modes.

Section ModeExamples64.
#[local] Existing Instance Binary64.ops.
Import Samples64.

Lemma cuts_independent_of_mode_witness :
  let o1 := quick_options CPA_LOG_POINT in
  let o2 := quick_options CPA_EXTRACT_TRACK in
  let sa := final_state 400 o1 album in
  exists sb,
    run_cutter 400 o2 album = Finished sb /\
    cur_frame_pos sb = cur_frame_pos sa /\
    cut_context sb = cut_context sa /\
    cur_track_start sb = cur_track_start sa /\
    cur_track_num sb = cur_track_num sa /\
    ends sb = ends sa.
Proof.
  intros o1 o2 sa. apply (cuts_independent_of_mode o1 o2 album 400 sa).
  - repeat split; reflexivity.
  - vm_compute. reflexivity.
Defined.

End ModeExamples64.
